(** * Coordinate conversions of coordsys.js: WGS84, PSD93 and PSD93 / UTM

    The JavaScript numbers of the source are read as real numbers: every
    arithmetic operator and every [Math] function is given its exact
    mathematical meaning, so the development speaks about the formulas the
    code evaluates and not about the rounding of IEEE-754 doubles. *)

From Stdlib Require Import Reals Lra Psatz ZArith Machin String List.
Import ListNotations.

Local Open Scope R_scope.

(** ** The [Math] object, on real numbers *)

Module Math.

Definition PI : R := Rtrigo1.PI.
Definition sqrt (x : R) : R := R_sqrt.sqrt x.
Definition sin (x : R) : R := Rtrigo_def.sin x.
Definition cos (x : R) : R := Rtrigo_def.cos x.
Definition tan (x : R) : R := Rtrigo1.tan x.

(** [Math.atan2(y, x)]: the angle of the point (x, y), in [-PI, PI];
    the origin is sent to 0. *)
Definition atan2 (y x : R) : R :=
  if Rlt_dec 0 x then atan (y / x)
  else if Rlt_dec x 0 then
    (if Rle_dec 0 y then atan (y / x) + PI else atan (y / x) - PI)
  else if Rlt_dec 0 y then PI / 2
  else if Rlt_dec y 0 then - PI / 2
  else 0.

(** [Math.pow(x, y)]: an integer power when the exponent is an integer,
    [exp (y * ln x)] otherwise (the source only raises positive bases to
    the exponent 1.5). *)
Definition pow (x y : R) : R :=
  if Req_dec_T y (IZR (Int_part y)) then powerRZ x (Int_part y)
  else Rpower x y.

End Math.

(** ** Module-level constants and unit conversions *)

Record HelmertParams : Set := mkHelmert {
  dx : R; dy : R; dz : R;     (* meters *)
  rx : R; ry : R; rz : R;     (* arc-seconds *)
  scale : R                   (* ppm *)
}.

(** WGS84 -> PSD93 (EPSG:1439). *)
Definition helmertParams : HelmertParams :=
  {| dx := -180.624; dy := -225.516; dz := 173.919;
     rx := -0.81; ry := -1.898; rz := 8.336;
     scale := 16.71006 |}.

Definition deg2rad (deg : R) : R := (deg * Math.PI) / 180.

Definition rad2deg (rad : R) : R := (rad * 180) / Math.PI.

Definition arcsec2rad (sec : R) : R := (sec * (Math.PI / 180)) / 3600.

(** ** Geodetic <-> Cartesian (ECEF) *)

Definition geodeticToECEF (lat lon h a f : R) : R * R * R :=
  let lat := deg2rad lat in
  let lon := deg2rad lon in
  let e2 := 2 * f - f * f in
  let N := a / Math.sqrt (1 - e2 * Math.sin lat * Math.sin lat) in
  let X := (N + h) * Math.cos lat * Math.cos lon in
  let Y := (N + h) * Math.cos lat * Math.sin lon in
  let Z := (N * (1 - e2) + h) * Math.sin lat in
  (X, Y, Z).

Definition ecefToGeodetic (X Y Z a f : R) : R * R * R :=
  let e2 := 2 * f - f * f in
  let ep2 := e2 / (1 - e2) in
  let p := Math.sqrt (X * X + Y * Y) in
  let theta := Math.atan2 (Z * a) (p * (1 - f) * a) in
  let lon := Math.atan2 Y X in
  let lat :=
    Math.atan2
      (Z + ep2 * (1 - f) * a * Math.pow (Math.sin theta) 3)
      (p - e2 * a * Math.pow (Math.cos theta) 3) in
  let N := a / Math.sqrt (1 - e2 * Math.sin lat * Math.sin lat) in
  let h := p / Math.cos lat - N in
  let lat := rad2deg lat in
  (lat, rad2deg lon, h).

(** ** Datum conversion WGS84 <-> PSD93 *)

Definition wgs84ToPSD93 (lat lon h : R) : R * R * R :=
  let a := 6378137.0 in
  let f := 1 / 298.257223563 in
  let '(Xs, Ys, Zs) := geodeticToECEF lat lon h a f in
  let s := scale helmertParams * 1e-6 in
  let rx := arcsec2rad (rx helmertParams) in
  let ry := arcsec2rad (ry helmertParams) in
  let rz := arcsec2rad (rz helmertParams) in
  let tX := dx helmertParams in
  let tY := dy helmertParams in
  let tZ := dz helmertParams in
  let Xt := Xs + tX + s * Xs - rz * Ys + ry * Zs in
  let Yt := Ys + tY + rz * Xs + s * Ys - rx * Zs in
  let Zt := Zs + tZ - ry * Xs + rx * Ys + s * Zs in
  let a_psd := 6378249.145 in
  let f_psd := 1 / 293.465 in
  ecefToGeodetic Xt Yt Zt a_psd f_psd.

Definition psd93ToWGS84 (lat lon h : R) : R * R * R :=
  let a_psd := 6378249.145 in
  let f_psd := 1 / 293.465 in
  let '(Xt, Yt, Zt) := geodeticToECEF lat lon h a_psd f_psd in
  let s := - scale helmertParams * 1e-6 in
  let rx := - arcsec2rad (rx helmertParams) in
  let ry := - arcsec2rad (ry helmertParams) in
  let rz := - arcsec2rad (rz helmertParams) in
  let tX := - dx helmertParams in
  let tY := - dy helmertParams in
  let tZ := - dz helmertParams in
  let Xs := Xt + tX + s * Xt - rz * Yt + ry * Zt in
  let Ys := Yt + tY + rz * Xt + s * Yt - rx * Zt in
  let Zs := Zt + tZ - ry * Xt + rx * Yt + s * Zt in
  let a := 6378137.0 in
  let f := 1 / 298.257223563 in
  ecefToGeodetic Xs Ys Zs a f.

(** ** UTM projection for PSD93 (Clarke 1880) *)

Module UTM.
Record t : Type := mk { easting : R; northing : R; zone : R }.
End UTM.

Module Geo.
Record t : Type := mk { lat : R; lon : R }.
End Geo.

Definition psd93ToUTM (lat lon zone : R) : UTM.t :=
  let a := 6378249.145 in
  let f := 1 / 293.465 in
  let k0 := 0.9996 in
  let e2 := 2 * f - f * f in
  let e := Math.sqrt e2 in
  let latRad := deg2rad lat in
  let lonRad := deg2rad lon in
  let zoneCM := 6 * zone - 183 in
  let lon0 := deg2rad zoneCM in
  let N := a / Math.sqrt (1 - e2 * Math.sin latRad * Math.sin latRad) in
  let T := Math.tan latRad * Math.tan latRad in
  let C := (e2 / (1 - e2)) * Math.cos latRad * Math.cos latRad in
  let A := Math.cos latRad * (lonRad - lon0) in
  let M :=
    a *
    ((1 - e2 / 4 - (3 * e2 * e2) / 64 - (5 * e2 * e2 * e2) / 256) * latRad -
     ((3 * e2) / 8 + (3 * e2 * e2) / 32 + (45 * e2 * e2 * e2) / 1024) *
       Math.sin (2 * latRad) +
     ((15 * e2 * e2) / 256 + (45 * e2 * e2 * e2) / 1024) *
       Math.sin (4 * latRad) -
     ((35 * e2 * e2 * e2) / 3072) * Math.sin (6 * latRad)) in
  let easting :=
    500000 +
    k0 *
      N *
      (A +
       ((1 - T + C) * Math.pow A 3) / 6 +
       ((5 - 18 * T + T * T + 72 * C - (58 * e2) / (1 - e2)) *
          Math.pow A 5) /
         120) in
  let northing :=
    k0 *
    (M +
     N *
       Math.tan latRad *
       ((A * A) / 2 +
        ((5 - T + 9 * C + 4 * C * C) * Math.pow A 4) / 24 +
        ((61 - 58 * T + T * T + 600 * C - (330 * e2) / (1 - e2)) *
           Math.pow A 6) /
          720)) in
  {| UTM.easting := easting; UTM.northing := northing; UTM.zone := zone |}.

Definition utmToPSD93 (easting northing zone : R) : Geo.t :=
  let a := 6378249.145 in
  let f := 1 / 293.465 in
  let k0 := 0.9996 in
  let e2 := 2 * f - f * f in
  let e := Math.sqrt e2 in
  let e1 := (1 - Math.sqrt (1 - e2)) / (1 + Math.sqrt (1 - e2)) in
  let zoneCM := 6 * zone - 183 in
  let lon0 := deg2rad zoneCM in
  let x := easting - 500000 in
  let y := northing in
  let M := y / k0 in
  let mu :=
    M / (a * (1 - e2 / 4 - (3 * e2 * e2) / 64 - (5 * e2 * e2 * e2) / 256)) in
  let phi1 :=
    mu +
    ((3 * e1) / 2 - (27 * Math.pow e1 3) / 32) * Math.sin (2 * mu) +
    ((21 * e1 * e1) / 16 - (55 * Math.pow e1 4) / 32) * Math.sin (4 * mu) +
    ((151 * Math.pow e1 3) / 96) * Math.sin (6 * mu) +
    ((1097 * Math.pow e1 4) / 512) * Math.sin (8 * mu) in
  let N1 := a / Math.sqrt (1 - e2 * Math.sin phi1 * Math.sin phi1) in
  let T1 := Math.tan phi1 * Math.tan phi1 in
  let C1 := (e2 / (1 - e2)) * Math.cos phi1 * Math.cos phi1 in
  let R1 :=
    (a * (1 - e2)) /
    Math.pow (1 - e2 * Math.sin phi1 * Math.sin phi1) 1.5 in
  let D := x / (N1 * k0) in
  let lat :=
    rad2deg
      (phi1 -
       ((N1 * Math.tan phi1) / R1) *
         ((D * D) / 2 -
          ((5 + 3 * T1 + 10 * C1 - 4 * C1 * C1 - (9 * e2) / (1 - e2)) *
             Math.pow D 4) /
            24 +
          ((61 +
            90 * T1 +
            298 * C1 +
            45 * T1 * T1 -
            (252 * e2) / (1 - e2) -
            3 * C1 * C1) *
             Math.pow D 6) /
            720)) in
  let lon :=
    rad2deg
      (lon0 +
       (D -
        ((1 + 2 * T1 + C1) * Math.pow D 3) / 6 +
        ((5 -
          2 * C1 +
          28 * T1 -
          3 * C1 * C1 +
          (8 * e2) / (1 - e2) +
          24 * T1 * T1) *
           Math.pow D 5) /
          120) /
         Math.cos phi1) in
  {| Geo.lat := lat; Geo.lon := lon |}.

(** ** Named stages and specification-side formulas *)

(** The linear form shared by lines 76-78 of [wgs84ToPSD93] and lines
    100-102 of [psd93ToWGS84] (Position Vector convention), as a function of
    the translations, the rotations in radians and the unit-less scale. *)
Definition helmertLinear (tX tY tZ rx ry rz s : R) (P : R * R * R)
  : R * R * R :=
  let '(X, Y, Z) := P in
  (X + tX + s * X - rz * Y + ry * Z,
   Y + tY + rz * X + s * Y - rx * Z,
   Z + tZ - ry * X + rx * Y + s * Z).

(** The Cartesian stage of [wgs84ToPSD93]: the stored parameters. *)
Definition helmertForward (P : R * R * R) : R * R * R :=
  helmertLinear
    (dx helmertParams) (dy helmertParams) (dz helmertParams)
    (arcsec2rad (rx helmertParams)) (arcsec2rad (ry helmertParams))
    (arcsec2rad (rz helmertParams))
    (scale helmertParams * 1e-6) P.

(** The Cartesian stage of [psd93ToWGS84]: all seven parameters negated. *)
Definition helmertInverse (P : R * R * R) : R * R * R :=
  helmertLinear
    (- dx helmertParams) (- dy helmertParams) (- dz helmertParams)
    (- arcsec2rad (rx helmertParams)) (- arcsec2rad (ry helmertParams))
    (- arcsec2rad (rz helmertParams))
    (- scale helmertParams * 1e-6) P.

(** Largest absolute difference between the coordinates of two points. *)
Definition dist3 (P Q : R * R * R) : R :=
  let '(X, Y, Z) := P in
  let '(X', Y', Z') := Q in
  Rmax (Rabs (X - X')) (Rmax (Rabs (Y - Y')) (Rabs (Z - Z'))).

(** The central meridian the specification assigns to a zone, in degrees. *)
Definition centralMeridian (zone : Z) : R := IZR (6 * zone - 183).

(** Snyder's transverse Mercator series as the specification words them,
    on an ellipsoid given by its semi-major axis and flattening. *)
Record Ellipsoid : Set := mkEllipsoid { semiMajor : R; flattening : R }.

Definition WGS84 : Ellipsoid :=
  {| semiMajor := 6378137.0; flattening := 1 / 298.257223563 |}.

Definition Clarke1880 : Ellipsoid :=
  {| semiMajor := 6378249.145; flattening := 1 / 293.465 |}.

Section Snyder.
Variable E : Ellipsoid.

Let a := semiMajor E.
Let e2 := 2 * flattening E - flattening E * flattening E.
Let ep2 := e2 / (1 - e2).

(** Radius of curvature in the prime vertical. *)
Definition primeVertical (phi : R) : R :=
  a / sqrt (1 - e2 * (sin phi) ^ 2).

(** Length of the meridian from the equator to the latitude [phi]. *)
Definition meridionalArc (phi : R) : R :=
  a * ((1 - e2 / 4 - 3 * e2 ^ 2 / 64 - 5 * e2 ^ 3 / 256) * phi
       - (3 * e2 / 8 + 3 * e2 ^ 2 / 32 + 45 * e2 ^ 3 / 1024) * sin (2 * phi)
       + (15 * e2 ^ 2 / 256 + 45 * e2 ^ 3 / 1024) * sin (4 * phi)
       - (35 * e2 ^ 3 / 3072) * sin (6 * phi)).

(** The series in [A = cos phi * dlam] of the easting, [dlam] being the
    longitude counted from the central meridian, in radians. *)
Definition eastingSeries (phi dlam : R) : R :=
  let T := (tan phi) ^ 2 in
  let C := ep2 * (cos phi) ^ 2 in
  let A := cos phi * dlam in
  A + (1 - T + C) * A ^ 3 / 6
    + (5 - 18 * T + T ^ 2 + 72 * C - 58 * ep2) * A ^ 5 / 120.

(** The correction series added to the meridional arc in the northing. *)
Definition northingSeries (phi dlam : R) : R :=
  let T := (tan phi) ^ 2 in
  let C := ep2 * (cos phi) ^ 2 in
  let A := cos phi * dlam in
  primeVertical phi * tan phi *
    (A ^ 2 / 2 + (5 - T + 9 * C + 4 * C ^ 2) * A ^ 4 / 24
     + (61 - 58 * T + T ^ 2 + 600 * C - 330 * ep2) * A ^ 6 / 720).
End Snyder.

(** The reference point of the specification: Muscat, in WGS84 degrees. *)
Definition muscatLat : R := 23.588.
Definition muscatLon : R := 58.3829.

(** The chain of the map click handler of script.js: [wgs84ToPSD93] with
    the default height 0, then [psd93ToUTM] on the latitude and longitude
    it returns. *)
Definition wgs84ToUTM (lat lon zone : R) : UTM.t :=
  let '(psdLat, psdLon, _) := wgs84ToPSD93 lat lon 0 in
  psd93ToUTM psdLat psdLon zone.

(** The point of the WGS84 ellipsoid at a latitude and longitude given in
    degrees, by the formula of geodesy: semi-major axis 6378137 m,
    flattening 1/298.257223563, [e2 = f (2 - f)], radius of curvature in
    the prime vertical [N = a / sqrt (1 - e2 sin^2 phi)].  It is written
    out here and uses no function of the code. *)
Definition wgs84SurfacePoint (lat lon : R) : R * R * R :=
  let a := 6378137 in
  let f := 1 / 298.257223563 in
  let e2 := f * (2 - f) in
  let phi := lat * PI / 180 in
  let lam := lon * PI / 180 in
  let N := a / sqrt (1 - e2 * (sin phi) ^ 2) in
  (N * cos phi * cos lam, N * cos phi * sin lam, (1 - e2) * N * sin phi).

(** The distance in metres, along the straight line, between the points of
    the WGS84 ellipsoid at two geographic positions given in degrees: the
    metre equivalent of a difference of latitude and longitude. *)
Definition groundDistance (lat1 lon1 lat2 lon2 : R) : R :=
  let '(X1, Y1, Z1) := wgs84SurfacePoint lat1 lon1 in
  let '(X2, Y2, Z2) := wgs84SurfacePoint lat2 lon2 in
  sqrt ((X1 - X2) ^ 2 + (Y1 - Y2) ^ 2 + (Z1 - Z2) ^ 2).

(** ** script.js: distances, areas and the point store *)

(** The [lat] and [lng] properties of a point object, in degrees. *)
Module LatLng.
Record t : Type := mk { lat : R; lng : R }.
End LatLng.

(** [calculateDistance(point1, point2)]: the haversine formula on a sphere
    of radius 6,371,000 m.  Only [lat] and [lng] of the arguments are
    read.  On real numbers [a] never exceeds 1; in double precision it can
    round to just above 1 for two nearly antipodal points, where
    [Math.sqrt(1 - a)] is then not a number.  Statements about the sign
    or the range of a distance are therefore made for points that are not
    close to antipodal. *)
Definition calculateDistance (point1 point2 : LatLng.t) : R :=
  let R := 6371000 in
  let lat1 := (LatLng.lat point1 * Math.PI) / 180 in
  let lat2 := (LatLng.lat point2 * Math.PI) / 180 in
  let deltaLat :=
    ((LatLng.lat point2 - LatLng.lat point1) * Math.PI) / 180 in
  let deltaLng :=
    ((LatLng.lng point2 - LatLng.lng point1) * Math.PI) / 180 in
  let a :=
    Math.sin (deltaLat / 2) * Math.sin (deltaLat / 2) +
    Math.cos lat1 *
      Math.cos lat2 *
      Math.sin (deltaLng / 2) *
      Math.sin (deltaLng / 2) in
  let c := 2 * Math.atan2 (Math.sqrt a) (Math.sqrt (1 - a)) in
  R * c.

(** [calculatePolygonArea(coordinates)]: the shoelace sum over the vertices
    [[lat, lng]], index [j] following [i] cyclically, then [Math.abs], the
    halving and the fixed factor 111320 squared. *)
Definition calculatePolygonArea (coordinates : list (R * R)) : R :=
  let n := length coordinates in
  let area :=
    fold_left
      (fun area i =>
         let j := ((i + 1) mod n)%nat in
         let area :=
           area + snd (nth i coordinates (0, 0))
                  * fst (nth j coordinates (0, 0)) in
         area - snd (nth j coordinates (0, 0))
                * fst (nth i coordinates (0, 0)))
      (seq 0 n) 0 in
  let area := Rabs area / 2 in
  area * 111320 * 111320.

(** [calculatePerimeter(coordinates)]: the haversine distances between
    cyclically consecutive vertices, added up. *)
Definition calculatePerimeter (coordinates : list (R * R)) : R :=
  let n := length coordinates in
  fold_left
    (fun perimeter i =>
       let j := ((i + 1) mod n)%nat in
       let lat1 := fst (nth i coordinates (0, 0)) in
       let lng1 := snd (nth i coordinates (0, 0)) in
       let lat2 := fst (nth j coordinates (0, 0)) in
       let lng2 := snd (nth j coordinates (0, 0)) in
       perimeter
       + calculateDistance {| LatLng.lat := lat1; LatLng.lng := lng1 |}
                           {| LatLng.lat := lat2; LatLng.lng := lng2 |})
    (seq 0 n) 0.

(** The values an identifier takes in script.js: the number [Date.now()]
    gives a point, or the string an inline [onclick] handler passes. *)
Inductive JsValue : Type :=
  | JsNumber (n : Z)
  | JsString (s : string).

(** [x === y] on such values: never true across the two types. *)
Definition strictEq (x y : JsValue) : bool :=
  match x, y with
  | JsNumber a, JsNumber b => Z.eqb a b
  | JsString a, JsString b => String.eqb a b
  | _, _ => false
  end.

(** The point objects that [addPoint] builds. *)
Module Point.
Record t : Type := mk {
  id : JsValue;
  name : string;
  easting : R;
  northing : R;
  lat : R;
  lng : R;
  group : string;
  coordSystem : string
}.
Definition latlng (p : t) : LatLng.t :=
  {| LatLng.lat := lat p; LatLng.lng := lng p |}.
End Point.

(** The group objects that [createGroup] builds. *)
Module Group.
Record t : Type := mk { name : string; points : list Point.t; color : string }.
End Group.

(** [findPointById(pointId)] on the global [groups], an object read here as
    the list of its keys and values in enumeration order. *)
Fixpoint findPointById (groups : list (string * Group.t)) (pointId : JsValue)
  : option Point.t :=
  match groups with
  | [] => None
  | (groupKey, g) :: rest =>
      match find (fun p => strictEq (Point.id p) pointId) (Group.points g) with
      | Some point => Some point
      | None => findPointById rest pointId
      end
  end.

(** The figures [updateSummaryCalculations] (the version without areas)
    writes into the summary panel: number of groups, [totalPoints],
    [totalDistance] before [toFixed] and [groupsWithDistances]. *)
Module Summary.
Record t : Type := mk {
  groups : nat;
  totalPoints : nat;
  totalDistance : R;
  groupsWithDistances : nat
}.
End Summary.

Definition updateSummaryCalculations (groups : list (string * Group.t))
  : Summary.t :=
  let '(totalPoints, totalDistance, groupsWithDistances) :=
    fold_left
      (fun (acc : nat * R * nat) (entry : string * Group.t) =>
         let '(totalPoints, totalDistance, groupsWithDistances) := acc in
         let points := map Point.latlng (Group.points (snd entry)) in
         let totalPoints := (totalPoints + length points)%nat in
         let totalDistance :=
           fold_left
             (fun totalDistance i =>
                totalDistance
                + calculateDistance
                    (nth i points (LatLng.mk 0 0))
                    (nth (i + 1) points (LatLng.mk 0 0)))
             (seq 0 (length points - 1)) totalDistance in
         let groupsWithDistances :=
           if (2 <=? length points)%nat then S groupsWithDistances
           else groupsWithDistances in
         (totalPoints, totalDistance, groupsWithDistances))
      groups (0%nat, 0, 0%nat) in
  {| Summary.groups := length groups;
     Summary.totalPoints := totalPoints;
     Summary.totalDistance := totalDistance;
     Summary.groupsWithDistances := groupsWithDistances |}.

(** Proof-side forms of the index loops of script.js: the sum of [g] over
    the consecutive pairs of a list, and the same sum over the list closed
    by its first element. *)
Fixpoint pathSum {A : Type} (g : A -> A -> R) (l : list A) : R :=
  match l with
  | a :: (b :: _) as rest => g a b + pathSum g rest
  | _ => 0
  end.

Definition cycleSum {A : Type} (g : A -> A -> R) (l : list A) : R :=
  pathSum g (l ++ firstn 1 l).

(** The term that one turn of the loop of [calculatePolygonArea] adds, and
    the one of [calculatePerimeter], for the vertices [ci] and [cj]. *)
Definition shoelaceTerm (ci cj : R * R) : R :=
  snd ci * fst cj - snd cj * fst ci.

Definition edgeLength (ci cj : R * R) : R :=
  calculateDistance {| LatLng.lat := fst ci; LatLng.lng := snd ci |}
                    {| LatLng.lat := fst cj; LatLng.lng := snd cj |}.

(** A store with one group of two points, as [addPoint] fills it. *)
Definition samplePoint (n : Z) : Point.t :=
  {| Point.id := JsNumber n; Point.name := "P";
     Point.easting := 500000; Point.northing := 2600000;
     Point.lat := 23.5; Point.lng := 57;
     Point.group := "default"; Point.coordSystem := "utm40" |}.

Definition sampleGroups : list (string * Group.t) :=
  [("default"%string,
    {| Group.name := "Default Group";
       Group.points := [samplePoint 1700000000000; samplePoint 1700000000001];
       Group.color := "#3b82f6" |})].

(** * Properties *)

(** ** The [Math] functions and the unit conversions *)

Ltac unq := unfold Q2R; cbn [QArith_base.Qnum QArith_base.Qden].

Ltac zconst H :=
  repeat match type of H with
    | context [IZR (?a ^ ?b)] =>
        let v := eval vm_compute in (a ^ b)%Z in change (a ^ b)%Z with v in H
    | context [IZR (Z.of_nat ?b)] =>
        let v := eval vm_compute in (Z.of_nat b) in
        change (Z.of_nat b) with v in H
    end.

Lemma pow_int (x : R) (z : Z) : Math.pow x (IZR z) = powerRZ x z.
Proof.
  unfold Math.pow.
  assert (H : Int_part (IZR z) = z).
  { symmetry. apply Int_part_spec. split; lra. }
  rewrite H. destruct (Req_dec_T (IZR z) (IZR z)) as [_|n]; [reflexivity|].
  exfalso; apply n; reflexivity.
Qed.

Lemma pow_3 x : Math.pow x 3 = x ^ 3.
Proof. rewrite pow_int. reflexivity. Qed.

Lemma pow_4 x : Math.pow x 4 = x ^ 4.
Proof. rewrite pow_int. reflexivity. Qed.

Lemma pow_5 x : Math.pow x 5 = x ^ 5.
Proof. rewrite pow_int. reflexivity. Qed.

Lemma pow_6 x : Math.pow x 6 = x ^ 6.
Proof. rewrite pow_int. reflexivity. Qed.

Lemma Math_PI_neq0 : Math.PI <> 0.
Proof. unfold Math.PI. apply PI_neq0. Qed.

Lemma atan2_pos y x : 0 < x -> Math.atan2 y x = atan (y / x).
Proof.
  intros Hx. unfold Math.atan2.
  destruct (Rlt_dec 0 x) as [_|n]; [reflexivity|contradiction].
Qed.

Lemma atan2_range y x : - Math.PI <= Math.atan2 y x <= Math.PI.
Proof.
  unfold Math.atan2, Math.PI.
  pose proof PI_RGT_0 as Hpi.
  pose proof (atan_bound (y / x)) as [Hl Hu].
  destruct (Rlt_dec 0 x) as [Hx|Hx]; [lra|].
  destruct (Rlt_dec x 0) as [Hx'|Hx'].
  - assert (Hi : / x < 0) by (apply Rinv_lt_0_compat; lra).
    destruct (Rle_dec 0 y) as [Hy|Hy].
    + assert (Hq : y / x <= 0) by (unfold Rdiv; nra).
      assert (atan (y / x) <= 0).
      { destruct Hq as [Hq|Hq].
        - rewrite <- atan_0. left. apply atan_increasing. exact Hq.
        - rewrite Hq, atan_0. lra. }
      lra.
    + assert (Hq : 0 < y / x) by (unfold Rdiv; nra).
      assert (0 < atan (y / x)).
      { rewrite <- atan_0. apply atan_increasing. exact Hq. }
      lra.
  - destruct (Rlt_dec 0 y); [lra|]. destruct (Rlt_dec y 0); lra.
Qed.

Lemma deg2rad_rad2deg x : deg2rad (rad2deg x) = x.
Proof. unfold deg2rad, rad2deg. field. apply Math_PI_neq0. Qed.

Lemma rad2deg_deg2rad x : rad2deg (deg2rad x) = x.
Proof. unfold deg2rad, rad2deg. field. apply Math_PI_neq0. Qed.

Lemma deg2rad_minus x y : deg2rad x - deg2rad y = deg2rad (x - y).
Proof. unfold deg2rad, Rdiv. ring. Qed.

Lemma deg2rad_opp x : deg2rad (- x) = - deg2rad x.
Proof. unfold deg2rad, Rdiv. ring. Qed.

Lemma deg2rad_0 : deg2rad 0 = 0.
Proof. unfold deg2rad, Rdiv. ring. Qed.

Lemma rad2deg_plus x y : rad2deg (x + y) = rad2deg x + rad2deg y.
Proof. unfold rad2deg, Rdiv. ring. Qed.

Lemma rad2deg_range x :
  - Math.PI <= x <= Math.PI -> -180 <= rad2deg x <= 180.
Proof.
  unfold rad2deg, Math.PI. intros [Hl Hu].
  pose proof PI_RGT_0 as Hpi.
  split; apply Rmult_le_reg_r with PI; try lra;
    unfold Rdiv; rewrite Rmult_assoc, Rinv_l by lra; lra.
Qed.

Lemma centralMeridian_eq z : centralMeridian z = 6 * IZR z - 183.
Proof. unfold centralMeridian. rewrite minus_IZR, mult_IZR. reflexivity. Qed.

(** ** Longitudes returned by the datum conversions *)

(** C9: the longitude returned by [ecefToGeodetic], hence the longitude
    component of [wgs84ToPSD93] and of [psd93ToWGS84], lies between -180 and
    180 degrees for every input, because it is [Math.atan2 Y X] converted
    to degrees; the longitude passed in plays no part in the bound. *)
Theorem longitude_within_half_turn :
  (forall X Y Z a f : R,
      let '(_, lon, _) := ecefToGeodetic X Y Z a f in -180 <= lon <= 180) /\
  (forall lat lon h : R,
      let '(_, lon', _) := wgs84ToPSD93 lat lon h in -180 <= lon' <= 180) /\
  (forall lat lon h : R,
      let '(_, lon', _) := psd93ToWGS84 lat lon h in -180 <= lon' <= 180).
Proof.
  assert (E : forall X Y Z a f : R,
      let '(_, lon, _) := ecefToGeodetic X Y Z a f in -180 <= lon <= 180).
  { intros. unfold ecefToGeodetic. apply rad2deg_range, atan2_range. }
  split; [exact E|]. split; intros lat lon h.
  - unfold wgs84ToPSD93. destruct (geodeticToECEF _ _ _ _ _) as [[Xs Ys] Zs].
    apply E.
  - unfold psd93ToWGS84. destruct (geodeticToECEF _ _ _ _ _) as [[Xt Yt] Zt].
    apply E.
Qed.

(** ** Points of the central meridian *)

(** C10: on the central meridian of an integer zone, that is at longitude
    [6 * zone - 183], [psd93ToUTM] returns the easting 500000 exactly,
    whatever the latitude; and the zone field of every result is the zone
    that was passed in. *)
Theorem easting_on_central_meridian :
  (forall (lat : R) (z : Z),
      UTM.easting (psd93ToUTM lat (IZR (6 * z - 183)) (IZR z)) = 500000) /\
  (forall lat lon zone : R, UTM.zone (psd93ToUTM lat lon zone) = zone).
Proof.
  split; [|reflexivity].
  intros lat z. unfold psd93ToUTM. cbn [UTM.easting].
  rewrite minus_IZR, mult_IZR.
  replace (deg2rad (6 * IZR z - 183) - deg2rad (6 * IZR z - 183)) with 0
    by ring.
  rewrite Rmult_0_r, pow_3, pow_5. unq. unfold Rdiv. ring.
Qed.

(** ** The forward projection as Snyder's series *)

Section SnyderSeries.
Variable E : Ellipsoid.



Lemma meridionalArc_0 : meridionalArc E 0 = 0.
Proof.
  unfold meridionalArc. rewrite !Rmult_0_r, sin_0. unfold Rdiv. ring.
Qed.


Lemma northingSeries_0 dlam : northingSeries E 0 dlam = 0.
Proof. unfold northingSeries. rewrite tan_0. unfold Rdiv. ring. Qed.

Lemma northingSeries_even_dlam phi dlam :
  northingSeries E phi (- dlam) = northingSeries E phi dlam.
Proof. unfold northingSeries, Rdiv. ring. Qed.

Lemma eastingSeries_odd_dlam phi dlam :
  eastingSeries E phi (- dlam) = - eastingSeries E phi dlam.
Proof. unfold eastingSeries, Rdiv. ring. Qed.

Lemma eastingSeries_0 phi : eastingSeries E phi 0 = 0.
Proof. unfold eastingSeries, Rdiv. ring. Qed.
End SnyderSeries.

(** [psd93ToUTM] evaluates Snyder's series on Clarke 1880 at the longitude
    counted from the meridian [6 * zone - 183]. *)
Lemma psd93ToUTM_snyder lat lon zone :
  psd93ToUTM lat lon zone =
  let phi := deg2rad lat in
  let dlam := deg2rad (lon - (6 * zone - 183)) in
  {| UTM.easting :=
       500000 + 0.9996 * (primeVertical Clarke1880 phi
                          * eastingSeries Clarke1880 phi dlam);
     UTM.northing :=
       0.9996 * (meridionalArc Clarke1880 phi
                 + northingSeries Clarke1880 phi dlam);
     UTM.zone := zone |}.
Proof.
  unfold psd93ToUTM, eastingSeries, northingSeries, meridionalArc,
    primeVertical, Clarke1880.
  cbn [semiMajor flattening].
  rewrite deg2rad_minus, !pow_3, !pow_4, !pow_5, !pow_6.
  unfold Math.sin, Math.cos, Math.tan, Math.sqrt.
  assert (Hs : forall e x,
             sqrt (1 - e * sin x ^ 2) = sqrt (1 - e * sin x * sin x))
    by (intros; f_equal; ring).
  rewrite !Hs.
  f_equal; unq; unfold Rdiv; ring.
Qed.


(** ** The inverse projection and the zone *)

Lemma utmToPSD93_lat_zone e n z z' :
  Geo.lat (utmToPSD93 e n z) = Geo.lat (utmToPSD93 e n z').
Proof. reflexivity. Qed.

(** The zone only shifts the longitude: zone 30.5 would have the central
    meridian 0. *)
Lemma utmToPSD93_lon_zone e n z :
  Geo.lon (utmToPSD93 e n z)
    = (6 * z - 183) + Geo.lon (utmToPSD93 e n (61 / 2)).
Proof.
  unfold utmToPSD93. cbn [Geo.lon].
  match goal with |- rad2deg (_ + ?q) = _ => set (Q := q) end.
  rewrite !rad2deg_plus, !rad2deg_deg2rad. lra.
Qed.

Lemma utmToPSD93_mirror x n :
  Geo.lat (utmToPSD93 (500000 - x) n (61 / 2))
    = Geo.lat (utmToPSD93 (500000 + x) n (61 / 2)) /\
  Geo.lon (utmToPSD93 (500000 - x) n (61 / 2))
    = - Geo.lon (utmToPSD93 (500000 + x) n (61 / 2)).
Proof.
  unfold utmToPSD93. cbn [Geo.lon Geo.lat].
  match goal with |- context [Math.sin (2 * ?m)] => set (mu := m) end.
  match goal with |- context [Math.tan ?p] => set (phi1 := p) end.
  match goal with |- context [?a / Math.sqrt ?q] =>
    set (N1 := a / Math.sqrt q) end.
  match goal with |- context [?a / Math.pow ?q ?r] =>
    set (R1 := a / Math.pow q r) end.
  set (T1 := Math.tan phi1 * Math.tan phi1).
  match goal with |- context [?a * Math.cos phi1 * Math.cos phi1] =>
    set (C1 := a * Math.cos phi1 * Math.cos phi1) end.
  match goal with |- context [(500000 - x - 500000) / ?d] => set (k := d) end.
  set (c := Math.cos phi1).
  replace ((500000 - x - 500000) / k) with (- (x / k))
    by (unfold Rdiv; ring).
  replace ((500000 + x - 500000) / k) with (x / k) by (unfold Rdiv; ring).
  set (D := x / k).
  rewrite !pow_3, !pow_4, !pow_5, !pow_6.
  replace (6 * (61 / 2) - 183) with 0 by lra.
  rewrite deg2rad_0.
  unfold rad2deg.
  split; unfold Rdiv; ring.
Qed.

Lemma primeVertical_pos (E : Ellipsoid) phi :
  0 < semiMajor E -> 0 < flattening E < 1 -> 0 < primeVertical E phi.
Proof.
  intros Ha Hf. unfold primeVertical.
  set (e2 := 2 * flattening E - flattening E * flattening E).
  assert (He2 : 0 < e2 < 1) by (unfold e2; nra).
  pose proof (sin2_cos2 phi) as Hsc. unfold Rsqr in Hsc.
  pose proof (Rle_0_sqr (cos phi)) as Hc. unfold Rsqr in Hc.
  pose proof (Rle_0_sqr (sin phi)) as Hs. unfold Rsqr in Hs.
  assert (Hq : 0 < 1 - e2 * sin phi ^ 2).
  { replace (sin phi ^ 2) with (sin phi * sin phi) by ring.
    set (s2 := sin phi * sin phi) in *. clearbody s2 e2. nra. }
  apply Rdiv_lt_0_compat; [exact Ha|]. apply sqrt_lt_R0. exact Hq.
Qed.

(** East of the central meridian, within a few degrees, the series of the
    easting is positive. *)
Lemma eastingSeries_pos phi dlam :
  0 < cos phi -> 0 < dlam <= 0.07 -> 0 < eastingSeries Clarke1880 phi dlam.
Proof.
  intros Hc Hd. unfold eastingSeries, Clarke1880. cbn [semiMajor flattening].
  set (e2 := 2 * (1 / 293.465) - 1 / 293.465 * (1 / 293.465)).
  assert (He2 : 0.0068 <= e2 <= 0.0069) by (unfold e2; lra).
  clearbody e2.
  set (ep2 := e2 / (1 - e2)).
  assert (Hep : 0 <= ep2 <= 0.007).
  { unfold ep2. split.
    - apply Rmult_le_pos; [lra|]. left. apply Rinv_0_lt_compat. lra.
    - apply Rmult_le_reg_r with (1 - e2); [lra|].
      unfold Rdiv. rewrite Rmult_assoc, Rinv_l by lra. nra. }
  clearbody ep2.
  pose proof (sin2_cos2 phi) as Hsc. unfold Rsqr in Hsc.
  set (c := cos phi) in *. set (s := sin phi) in *.
  assert (Ht : tan phi * c = s).
  { unfold tan. fold c s. field. lra. }
  set (t := tan phi) in *. clearbody t c s.
  set (u := c * dlam * (c * dlam)).
  set (v := t * (c * dlam) * (t * (c * dlam))).
  assert (Hv : v = s * dlam * (s * dlam)).
  { unfold v. replace (t * (c * dlam)) with (t * c * dlam) by ring.
    rewrite Ht. reflexivity. }
  pose proof (Rle_0_sqr (c * dlam)) as Hu0. unfold Rsqr in Hu0. fold u in Hu0.
  pose proof (Rle_0_sqr (s * dlam)) as Hv0. unfold Rsqr in Hv0.
  rewrite <- Hv in Hv0.
  assert (Hdd : 0 <= dlam * dlam <= 0.0049) by nra.
  assert (Huv : u + v = dlam * dlam).
  { rewrite Hv. unfold u.
    replace (c * dlam * (c * dlam) + s * dlam * (s * dlam))
      with ((s * s + c * c) * (dlam * dlam)) by ring.
    rewrite Hsc. ring. }
  replace (c * dlam + (1 - t ^ 2 + ep2 * c ^ 2) * (c * dlam) ^ 3 / 6
           + (5 - 18 * t ^ 2 + (t ^ 2) ^ 2 + 72 * (ep2 * c ^ 2) - 58 * ep2)
             * (c * dlam) ^ 5 / 120)
    with (c * dlam
          * (1 + (u - v + ep2 * (c * c) * u) / 6
             + (5 * (u * u) - 18 * (v * u) + v * v
                + 72 * (ep2 * (c * c)) * (u * u) - 58 * ep2 * (u * u)) / 120))
    by (unfold u, v; field).
  apply Rmult_lt_0_compat; [nra|].
  clear Hv Ht. clearbody u v.
  assert (Hu : 0 <= u <= 0.0049) by lra.
  assert (Hv : 0 <= v <= 0.0049) by lra.
  pose proof (Rle_0_sqr c) as Hcc. unfold Rsqr in Hcc.
  assert (H1 : 0 <= ep2 * (c * c) * u)
    by (apply Rmult_le_pos; [apply Rmult_le_pos|]; lra).
  assert (H2 : 0 <= u * u) by (apply Rmult_le_pos; lra).
  assert (H3 : 0 <= v * u <= 0.0049 * 0.0049) by nra.
  assert (H4 : 0 <= v * v) by (apply Rmult_le_pos; lra).
  assert (H5 : 0 <= 72 * (ep2 * (c * c)) * (u * u)).
  { apply Rmult_le_pos; [|lra]. apply Rmult_le_pos; [lra|].
    apply Rmult_le_pos; lra. }
  assert (H6 : 58 * ep2 * (u * u) <= 5 * (u * u)) by nra.
  set (w1 := ep2 * (c * c) * u) in *. set (w2 := u * u) in *.
  set (w3 := v * u) in *. set (w4 := v * v) in *.
  set (w5 := 72 * (ep2 * (c * c)) * w2) in *. set (w6 := 58 * ep2 * w2) in *.
  clearbody w1 w2 w3 w4 w5 w6. lra.
Qed.

(** Up to 3 degrees east of the meridian [6 * zone - 183] the easting is
    above 500000, up to 3 degrees west of it below. *)
Lemma easting_off_central_meridian lat d zone :
  -90 < lat < 90 -> 0 < d <= 3 ->
  500000 < UTM.easting (psd93ToUTM lat (6 * zone - 183 + d) zone) /\
  UTM.easting (psd93ToUTM lat (6 * zone - 183 - d) zone) < 500000.
Proof.
  intros Hlat Hd. rewrite !psd93ToUTM_snyder. cbn [UTM.easting].
  replace (6 * zone - 183 + d - (6 * zone - 183)) with d by ring.
  replace (6 * zone - 183 - d - (6 * zone - 183)) with (- d) by ring.
  rewrite deg2rad_opp, eastingSeries_odd_dlam.
  assert (Hc : 0 < cos (deg2rad lat)).
  { pose proof PI_RGT_0. apply cos_gt_0; unfold deg2rad, Math.PI; nra. }
  assert (Hdl : 0 < deg2rad d <= 0.07).
  { pose proof PI_RGT_0. pose proof PI_4. unfold deg2rad, Math.PI.
    split; nra. }
  pose proof (eastingSeries_pos _ _ Hc Hdl) as Hs.
  pose proof (primeVertical_pos Clarke1880 (deg2rad lat)) as HN.
  cbn [semiMajor flattening Clarke1880] in HN.
  specialize (HN ltac:(lra) ltac:(lra)).
  assert (0 < primeVertical Clarke1880 (deg2rad lat)
              * eastingSeries Clarke1880 (deg2rad lat) (deg2rad d))
    by (apply Rmult_lt_0_compat; assumption).
  split; lra.
Qed.

(** C5: for every integer zone, [psd93ToUTM] and [utmToPSD93] project about
    the central meridian [6 * zone - 183] degrees.  Forward, the grid
    coordinates are Snyder's series evaluated at the longitude counted
    from that meridian; the meridian is sent to the easting 500000 and it
    is the only one within 3 degrees that is: to the east the easting is
    larger, to the west smaller; it is the axis of symmetry of the grid,
    and the grid coordinates depend on the longitude only through its
    offset from it, alike in every zone.  Backward, the grid line of
    easting 500000 is sent to that meridian, it is the axis of symmetry of
    the returned longitudes, and the returned longitude counted from it,
    like the returned latitude, is the same in every zone. *)
Theorem zone_central_meridian (z : Z) :
  let cm := centralMeridian z in
  (forall lat lon : R,
      UTM.easting (psd93ToUTM lat lon (IZR z))
        = 500000 + 0.9996 * (primeVertical Clarke1880 (deg2rad lat)
                             * eastingSeries Clarke1880 (deg2rad lat)
                                 (deg2rad (lon - cm))) /\
      UTM.northing (psd93ToUTM lat lon (IZR z))
        = 0.9996 * (meridionalArc Clarke1880 (deg2rad lat)
                    + northingSeries Clarke1880 (deg2rad lat)
                        (deg2rad (lon - cm)))) /\
  (forall lat d : R,
      -90 < lat < 90 -> 0 < d <= 3 ->
      500000 < UTM.easting (psd93ToUTM lat (cm + d) (IZR z)) /\
      UTM.easting (psd93ToUTM lat (cm - d) (IZR z)) < 500000) /\
  (forall lat : R, UTM.easting (psd93ToUTM lat cm (IZR z)) = 500000) /\
  (forall lat d : R,
      UTM.easting (psd93ToUTM lat (cm - d) (IZR z)) - 500000
        = - (UTM.easting (psd93ToUTM lat (cm + d) (IZR z)) - 500000) /\
      UTM.northing (psd93ToUTM lat (cm - d) (IZR z))
        = UTM.northing (psd93ToUTM lat (cm + d) (IZR z))) /\
  (forall (lat d : R) (z' : Z),
      UTM.easting (psd93ToUTM lat (centralMeridian z' + d) (IZR z'))
        = UTM.easting (psd93ToUTM lat (cm + d) (IZR z)) /\
      UTM.northing (psd93ToUTM lat (centralMeridian z' + d) (IZR z'))
        = UTM.northing (psd93ToUTM lat (cm + d) (IZR z))) /\
  (forall n : R, Geo.lon (utmToPSD93 500000 n (IZR z)) = cm) /\
  (forall x n : R,
      Geo.lon (utmToPSD93 (500000 - x) n (IZR z)) - cm
        = - (Geo.lon (utmToPSD93 (500000 + x) n (IZR z)) - cm) /\
      Geo.lat (utmToPSD93 (500000 - x) n (IZR z))
        = Geo.lat (utmToPSD93 (500000 + x) n (IZR z))) /\
  (forall (e n : R) (z' : Z),
      Geo.lon (utmToPSD93 e n (IZR z')) - centralMeridian z'
        = Geo.lon (utmToPSD93 e n (IZR z)) - cm /\
      Geo.lat (utmToPSD93 e n (IZR z')) = Geo.lat (utmToPSD93 e n (IZR z))).
Proof.
  intros cm. subst cm.
  assert (Hd : forall (w : Z) d,
             centralMeridian w + d - (6 * IZR w - 183) = d)
    by (intros; rewrite centralMeridian_eq; ring).
  assert (Hd' : forall (w : Z) d,
             centralMeridian w - d - (6 * IZR w - 183) = - d)
    by (intros; rewrite centralMeridian_eq; ring).
  split.
  { intros lat lon. rewrite psd93ToUTM_snyder, centralMeridian_eq.
    cbn [UTM.easting UTM.northing]. split; reflexivity. }
  split.
  { intros lat d Hlat Hpos. rewrite centralMeridian_eq.
    apply easting_off_central_meridian; assumption. }
  repeat split; intros.
  - rewrite psd93ToUTM_snyder. cbn [UTM.easting].
    replace (centralMeridian z - (6 * IZR z - 183)) with 0
      by (rewrite centralMeridian_eq; ring).
    rewrite deg2rad_0, eastingSeries_0. ring.
  - rewrite !psd93ToUTM_snyder. cbn [UTM.easting].
    rewrite Hd, Hd', deg2rad_opp, eastingSeries_odd_dlam. ring.
  - rewrite !psd93ToUTM_snyder. cbn [UTM.northing].
    rewrite Hd, Hd', deg2rad_opp, northingSeries_even_dlam. reflexivity.
  - rewrite !psd93ToUTM_snyder. cbn [UTM.easting]. rewrite !Hd. reflexivity.
  - rewrite !psd93ToUTM_snyder. cbn [UTM.northing]. rewrite !Hd.
    reflexivity.
  - rewrite utmToPSD93_lon_zone.
    destruct (utmToPSD93_mirror 0 n) as [_ H].
    replace (500000 - 0) with 500000 in H by ring.
    replace (500000 + 0) with 500000 in H by ring.
    rewrite centralMeridian_eq. lra.
  - rewrite (utmToPSD93_lon_zone (500000 - x)),
      (utmToPSD93_lon_zone (500000 + x)).
    destruct (utmToPSD93_mirror x n) as [_ H].
    rewrite H, centralMeridian_eq. ring.
  - rewrite (utmToPSD93_lat_zone _ _ _ (61 / 2)).
    rewrite (utmToPSD93_lat_zone (500000 + x) _ _ (61 / 2)).
    apply utmToPSD93_mirror.
  - rewrite (utmToPSD93_lon_zone _ _ (IZR z')),
      (utmToPSD93_lon_zone _ _ (IZR z)).
    rewrite !centralMeridian_eq. ring.
Qed.

Lemma zone_central_meridian_witness :
  500000 < UTM.easting (psd93ToUTM 23.5 (centralMeridian 40 + 1.38) (IZR 40))
  /\ UTM.easting (psd93ToUTM 23.5 (centralMeridian 40 - 1.38) (IZR 40))
     < 500000.
Proof.
  apply (proj1 (proj2 (zone_central_meridian 40)) 23.5 1.38); lra.
Defined.

(** ** The Helmert stage *)

(** Seven and eight terms of Machin's series for PI / 4. *)
Lemma PI_bounds : 3.1415926 < Math.PI < 3.1415927.
Proof.
  unfold Math.PI.
  destruct (PI_2_3_7_ineq 3) as [Hl Hu].
  change (S (2 * 3)) with 7%nat in Hl. change (2 * 3)%nat with 6%nat in Hu.
  unfold tg_alt, PI_2_3_7_tg, Ratan_seq in Hl, Hu.
  cbn [sum_f_R0 Nat.mul Nat.add] in Hl, Hu.
  rewrite !INR_IZR_INZ, !pow_inv, !pow_IZR in Hl.
  rewrite !INR_IZR_INZ, !pow_inv, !pow_IZR in Hu.
  zconst Hl. zconst Hu.
  split; lra.
Qed.

(** The rotations of [helmertParams], in radians. *)
Lemma rotation_enclosures :
  -0.00000392699088 <= arcsec2rad (rx helmertParams) <= -0.00000392699075 /\
  -0.00000920176381 <= arcsec2rad (ry helmertParams) <= -0.00000920176351 /\
  0.00004041406776 <= arcsec2rad (rz helmertParams) <= 0.00004041406906.
Proof.
  cbn [rx ry rz helmertParams]. unfold arcsec2rad.
  pose proof PI_bounds. repeat split; lra.
Qed.

(** The datum conversions are the geodetic-to-Cartesian step, the Helmert
    form and the Cartesian-to-geodetic step, in this order. *)
Lemma wgs84ToPSD93_stages lat lon h :
  wgs84ToPSD93 lat lon h =
  let '(Xt, Yt, Zt) :=
    helmertForward (geodeticToECEF lat lon h 6378137.0 (1 / 298.257223563)) in
  ecefToGeodetic Xt Yt Zt 6378249.145 (1 / 293.465).
Proof.
  unfold wgs84ToPSD93, helmertForward, helmertLinear.
  destruct (geodeticToECEF _ _ _ _ _) as [[Xs Ys] Zs]. reflexivity.
Qed.

Lemma psd93ToWGS84_stages lat lon h :
  psd93ToWGS84 lat lon h =
  let '(Xs, Ys, Zs) :=
    helmertInverse (geodeticToECEF lat lon h 6378249.145 (1 / 293.465)) in
  ecefToGeodetic Xs Ys Zs 6378137.0 (1 / 298.257223563).
Proof.
  unfold psd93ToWGS84, helmertInverse, helmertLinear.
  destruct (geodeticToECEF _ _ _ _ _) as [[Xt Yt] Zt]. reflexivity.
Qed.

(** The round trip misses the original point by the rotation-and-scale part
    of the form applied to the displacement of the forward step. *)
Lemma helmert_round_trip_residual X Y Z :
  let s := scale helmertParams * 1e-6 in
  let rx := arcsec2rad (rx helmertParams) in
  let ry := arcsec2rad (ry helmertParams) in
  let rz := arcsec2rad (rz helmertParams) in
  let '(X', Y', Z') := helmertForward (X, Y, Z) in
  helmertInverse (X', Y', Z') =
  (X - (s * (X' - X) - rz * (Y' - Y) + ry * (Z' - Z)),
   Y - (rz * (X' - X) + s * (Y' - Y) - rx * (Z' - Z)),
   Z - (- ry * (X' - X) + rx * (Y' - Y) + s * (Z' - Z))).
Proof.
  unfold helmertForward, helmertInverse, helmertLinear.
  cbv zeta. f_equal; [f_equal|]; ring.
Qed.

Lemma Rabs_le_iff x b : Rabs x <= b <-> - b <= x <= b.
Proof. unfold Rabs. destruct (Rcase_abs x); split; intros; lra. Qed.

Lemma Rabs_const_le (c b : R) : - b <= c <= b -> Rabs c <= b.
Proof. apply Rabs_le_iff. Qed.

(** The residual of the round trip, with the displacement of the forward
    step named [u], [v], [w]. *)
Lemma helmert_round_trip_dist X Y Z :
  let s := scale helmertParams * 1e-6 in
  let rx := arcsec2rad (rx helmertParams) in
  let ry := arcsec2rad (ry helmertParams) in
  let rz := arcsec2rad (rz helmertParams) in
  let u := -180.624 + s * X - rz * Y + ry * Z in
  let v := -225.516 + rz * X + s * Y - rx * Z in
  let w := 173.919 - ry * X + rx * Y + s * Z in
  dist3 (helmertInverse (helmertForward (X, Y, Z))) (X, Y, Z) =
  Rmax (Rabs (s * u - rz * v + ry * w))
    (Rmax (Rabs (rz * u + s * v - rx * w))
          (Rabs (- ry * u + rx * v + s * w))).
Proof.
  intros s rx' ry' rz' u v w.
  pose proof (helmert_round_trip_residual X Y Z) as Hres. cbv zeta in Hres.
  fold s rx' ry' rz' in Hres.
  assert (Hf : helmertForward (X, Y, Z) = (X + u, Y + v, Z + w)).
  { unfold helmertForward, helmertLinear. fold s rx' ry' rz'.
    cbn [dx dy dz helmertParams]. unfold u, v, w.
    f_equal; [f_equal|]; ring. }
  rewrite Hf in Hres |- *. rewrite Hres. unfold dist3.
  replace (X + u - X) with u by ring.
  replace (Y + v - Y) with v by ring.
  replace (Z + w - Z) with w by ring.
  rewrite <- (Rabs_Ropp (s * u - rz' * v + ry' * w)).
  rewrite <- (Rabs_Ropp (rz' * u + s * v - rx' * w)).
  rewrite <- (Rabs_Ropp (- ry' * u + rx' * v + s * w)).
  f_equal; [|f_equal]; f_equal; ring.
Qed.

(** For a point whose coordinates do not exceed 6,400,000 m in absolute
    value, each coordinate of the residual is at most 3 cm. *)
Lemma helmert_round_trip_bound (X Y Z : R) :
  Rabs X <= 6400000 -> Rabs Y <= 6400000 -> Rabs Z <= 6400000 ->
  dist3 (helmertInverse (helmertForward (X, Y, Z))) (X, Y, Z) <= 0.03.
Proof.
  intros HX%Rabs_le_iff HY%Rabs_le_iff HZ%Rabs_le_iff.
  rewrite helmert_round_trip_dist. cbv zeta.
  destruct rotation_enclosures as (Hrx & Hry & Hrz).
  set (rx' := arcsec2rad (rx helmertParams)) in *.
  set (ry' := arcsec2rad (ry helmertParams)) in *.
  set (rz' := arcsec2rad (rz helmertParams)) in *.
  clearbody rx' ry' rz'.
  cbn [scale helmertParams].
  set (s := 16.71006 * 1e-6).
  assert (Hs : s = 0.00001671006) by (unfold s; lra).
  clearbody s.
  assert (Hxx : 0.0000000000154212 <= rx' * rx' <= 0.0000000000154213) by nra.
  assert (Hyy : 0.0000000000846724 <= ry' * ry' <= 0.0000000000846725) by nra.
  assert (Hzz : 0.0000000016332968 <= rz' * rz' <= 0.0000000016332970) by nra.
  assert (Hxy : 0.0000000000361352 <= rx' * ry' <= 0.0000000000361353) by nra.
  assert (Hxz : -0.0000000001587057 <= rx' * rz' <= -0.0000000001587056) by nra.
  assert (Hyz : -0.0000000003718808 <= ry' * rz' <= -0.0000000003718806) by nra.
  repeat apply Rmax_lub; apply Rabs_le_iff.
  - replace (s * (-180.624 + s * X - rz' * Y + ry' * Z) -
             rz' * (-225.516 + rz' * X + s * Y - rx' * Z) +
             ry' * (173.919 - ry' * X + rx' * Y + s * Z))
      with ((s * s - rz' * rz' - ry' * ry') * X
            + (rx' * ry' - 2 * s * rz') * Y
            + (rx' * rz' + 2 * s * ry') * Z
            + (-180.624 * s + 225.516 * rz' + 173.919 * ry')) by (unq; unfold Rdiv; ring).
    subst s. split; nra.
  - replace (rz' * (-180.624 + s * X - rz' * Y + ry' * Z) +
             s * (-225.516 + rz' * X + s * Y - rx' * Z) -
             rx' * (173.919 - ry' * X + rx' * Y + s * Z))
      with ((2 * s * rz' + rx' * ry') * X
            + (s * s - rz' * rz' - rx' * rx') * Y
            + (ry' * rz' - 2 * s * rx') * Z
            + (-180.624 * rz' - 225.516 * s - 173.919 * rx')) by (unq; unfold Rdiv; ring).
    subst s. split; nra.
  - replace (- ry' * (-180.624 + s * X - rz' * Y + ry' * Z) +
             rx' * (-225.516 + rz' * X + s * Y - rx' * Z) +
             s * (173.919 - ry' * X + rx' * Y + s * Z))
      with ((rx' * rz' - 2 * s * ry') * X
            + (ry' * rz' + 2 * s * rx') * Y
            + (s * s - ry' * ry' - rx' * rx') * Z
            + (180.624 * ry' - 225.516 * rx' + 173.919 * s)) by (unq; unfold Rdiv; ring).
    subst s. split; nra.
Qed.

(** C2, as amended: for every Cartesian point whose coordinates do not
    exceed 6,400,000 m in absolute value (which covers the surface of the
    Earth), the forward Helmert form followed by the form with the seven
    parameters negated returns a point whose coordinates are each within
    3 cm of the original ones.  The parameter-negated form is an inverse
    to first order only. *)
Theorem helmert_round_trip_within_3cm (X Y Z : R) :
  Rabs X <= 6400000 -> Rabs Y <= 6400000 -> Rabs Z <= 6400000 ->
  dist3 (helmertInverse (helmertForward (X, Y, Z))) (X, Y, Z) <= 0.03.
Proof.
  intros HX HY HZ. apply helmert_round_trip_bound; assumption.
Qed.

Lemma helmert_round_trip_within_3cm_witness :
  Rabs 6378137 <= 6400000 /\ Rabs 0 <= 6400000 /\
  dist3 (helmertInverse (helmertForward (6378137, 0, 0))) (6378137, 0, 0)
    <= 0.03.
Proof.
  assert (H1 : Rabs 6378137 <= 6400000) by (apply Rabs_const_le; lra).
  assert (H0 : Rabs 0 <= 6400000) by (apply Rabs_const_le; lra).
  split; [exact H1|]. split; [exact H0|].
  exact (helmert_round_trip_within_3cm 6378137 0 0 H1 H0 H0).
Defined.

(** The round trip of the WGS84 equator point of longitude 0 is off by more
    than 4 mm in X, so it is not the original point. *)
Lemma helmert_round_trip_not_exact :
  let P := (6378137, 0, 0) in
  helmertInverse (helmertForward P) <> P /\
  0.004 < dist3 (helmertInverse (helmertForward P)) P.
Proof.
  intros P.
  assert (H : 0.004 < dist3 (helmertInverse (helmertForward P)) P).
  { subst P. rewrite helmert_round_trip_dist. cbv zeta.
    destruct rotation_enclosures as (Hrx & Hry & Hrz).
    set (rx' := arcsec2rad (rx helmertParams)) in *.
    set (ry' := arcsec2rad (ry helmertParams)) in *.
    set (rz' := arcsec2rad (rz helmertParams)) in *.
    clearbody rx' ry' rz'.
    cbn [scale helmertParams].
    eapply Rlt_le_trans; [|apply Rmax_l].
    rewrite <- Rabs_Ropp.
    eapply Rlt_le_trans; [|apply Rle_abs].
    nra. }
  split; [|exact H].
  intros E. rewrite E in H. unfold dist3, P in H.
  replace (6378137 - 6378137) with 0 in H by ring.
  replace (0 - 0) with 0 in H by ring.
  rewrite Rabs_R0 in H. unfold Rmax in H.
  repeat destruct (Rle_dec _ _) in H; lra.
Qed.

(** ** Enclosures of the elementary functions *)

Local Abbreviation sinLo x :=
  (x - x ^ 3 / 6 + x ^ 5 / 120 - x ^ 7 / 5040 + x ^ 9 / 362880
   - x ^ 11 / 39916800).
Local Abbreviation sinHi x :=
  (x - x ^ 3 / 6 + x ^ 5 / 120 - x ^ 7 / 5040 + x ^ 9 / 362880
   - x ^ 11 / 39916800 + x ^ 13 / 6227020800).
Local Abbreviation cosLo x :=
  (1 - x ^ 2 / 2 + x ^ 4 / 24 - x ^ 6 / 720 + x ^ 8 / 40320
   - x ^ 10 / 3628800).
Local Abbreviation cosHi x :=
  (1 - x ^ 2 / 2 + x ^ 4 / 24 - x ^ 6 / 720 + x ^ 8 / 40320
   - x ^ 10 / 3628800 + x ^ 12 / 479001600).

Lemma INR_fact_S n : INR (fact (S n)) = INR (S n) * INR (fact n).
Proof. rewrite fact_simpl, mult_INR. reflexivity. Qed.

(** Six and seven terms of the alternating series of [sin] and [cos]. *)
Lemma sin_taylor x : 0 <= x <= 4 -> sinLo x <= sin x <= sinHi x.
Proof.
  intros [H0 H4].
  destruct (pre_sin_bound x 2 H0 H4) as [Hl Hu].
  change (2 * 2 + 1)%nat with 5%nat in Hl.
  change (2 * (2 + 1))%nat with 6%nat in Hu.
  unfold sin_approx, sin_term in Hl, Hu.
  cbn [sum_f_R0 Nat.mul Nat.add] in Hl, Hu.
  rewrite !INR_fact_S in Hl. rewrite !INR_fact_S in Hu.
  change (fact 0) with 1%nat in Hl, Hu.
  rewrite !INR_IZR_INZ in Hl. rewrite !INR_IZR_INZ in Hu.
  zconst Hl. zconst Hu.
  cbn [pow] in Hl, Hu |- *.
  split; lra.
Qed.

Lemma cos_taylor x : -2 <= x <= 2 -> cosLo x <= cos x <= cosHi x.
Proof.
  intros [H0 H4].
  destruct (pre_cos_bound x 2 H0 H4) as [Hl Hu].
  change (2 * 2 + 1)%nat with 5%nat in Hl.
  change (2 * (2 + 1))%nat with 6%nat in Hu.
  unfold cos_approx, cos_term in Hl, Hu.
  cbn [sum_f_R0 Nat.mul Nat.add] in Hl, Hu.
  rewrite !INR_fact_S in Hl. rewrite !INR_fact_S in Hu.
  change (fact 0) with 1%nat in Hl, Hu.
  rewrite !INR_IZR_INZ in Hl. rewrite !INR_IZR_INZ in Hu.
  zconst Hl. zconst Hu.
  cbn [pow] in Hl, Hu |- *.
  split; lra.
Qed.

Lemma pow_mono l x n : 0 <= l -> l <= x -> l ^ n <= x ^ n.
Proof. intros. apply pow_incr. split; assumption. Qed.

(** Enclosure of [sin] on a sub-interval [l, u] of [0, 4]. *)
Lemma sin_enclosure l u x :
  0 <= l -> l <= x -> x <= u -> u <= 4 ->
  l - u ^ 3 / 6 + l ^ 5 / 120 - u ^ 7 / 5040 + l ^ 9 / 362880
    - u ^ 11 / 39916800
  <= sin x <=
  u - l ^ 3 / 6 + u ^ 5 / 120 - l ^ 7 / 5040 + u ^ 9 / 362880
    - l ^ 11 / 39916800 + u ^ 13 / 6227020800.
Proof.
  intros Hl Hlx Hxu Hu.
  destruct (sin_taylor x) as [H1 H2]; [lra|].
  assert (Hx : 0 <= x) by lra.
  pose proof (pow_mono l x 3 Hl Hlx). pose proof (pow_mono x u 3 Hx Hxu).
  pose proof (pow_mono l x 5 Hl Hlx). pose proof (pow_mono x u 5 Hx Hxu).
  pose proof (pow_mono l x 7 Hl Hlx). pose proof (pow_mono x u 7 Hx Hxu).
  pose proof (pow_mono l x 9 Hl Hlx). pose proof (pow_mono x u 9 Hx Hxu).
  pose proof (pow_mono l x 11 Hl Hlx). pose proof (pow_mono x u 11 Hx Hxu).
  pose proof (pow_mono x u 13 Hx Hxu).
  split; lra.
Qed.

(** Enclosure of [cos] on a sub-interval [l, u] of [0, 2]. *)
Lemma cos_enclosure l u x :
  0 <= l -> l <= x -> x <= u -> u <= 2 ->
  1 - u ^ 2 / 2 + l ^ 4 / 24 - u ^ 6 / 720 + l ^ 8 / 40320
    - u ^ 10 / 3628800
  <= cos x <=
  1 - l ^ 2 / 2 + u ^ 4 / 24 - l ^ 6 / 720 + u ^ 8 / 40320
    - l ^ 10 / 3628800 + u ^ 12 / 479001600.
Proof.
  intros Hl Hlx Hxu Hu.
  destruct (cos_taylor x) as [H1 H2]; [lra|].
  assert (Hx : 0 <= x) by lra.
  pose proof (pow_mono l x 2 Hl Hlx). pose proof (pow_mono x u 2 Hx Hxu).
  pose proof (pow_mono l x 4 Hl Hlx). pose proof (pow_mono x u 4 Hx Hxu).
  pose proof (pow_mono l x 6 Hl Hlx). pose proof (pow_mono x u 6 Hx Hxu).
  pose proof (pow_mono l x 8 Hl Hlx). pose proof (pow_mono x u 8 Hx Hxu).
  pose proof (pow_mono l x 10 Hl Hlx). pose proof (pow_mono x u 10 Hx Hxu).
  pose proof (pow_mono x u 12 Hx Hxu).
  split; lra.
Qed.

Lemma half_pi_gt : 1.57 < PI / 2.
Proof. pose proof PI_bounds as H. unfold Math.PI in H. lra. Qed.

(** Enclosure of [atan r] between two angles of the first quadrant whose
    tangents are compared with [r] through the Taylor bounds. *)
Lemma atan_enclosure l u r :
  0 <= l -> l <= 1.57 -> 0 <= u -> u <= 1.57 ->
  0 < cosLo l -> sinHi l <= r * cosLo l ->
  0 <= sinLo u -> r * cosHi u <= sinLo u ->
  l <= atan r <= u.
Proof.
  intros Hl0 Hl1 Hu0 Hu1 Hcl Hsl Hsu Hru.
  pose proof half_pi_gt as Hpi.
  destruct (sin_taylor l) as [_ Hsl']; [lra|].
  destruct (cos_taylor l) as [Hcl' _]; [lra|].
  destruct (sin_taylor u) as [Hsu' _]; [lra|].
  destruct (cos_taylor u) as [_ Hcu']; [lra|].
  assert (Hcu : 0 < cos u) by (apply cos_gt_0; lra).
  split.
  - assert (Ht : tan l <= r).
    { unfold tan. apply Rmult_le_reg_r with (cos l); [lra|].
      unfold Rdiv. rewrite Rmult_assoc, Rinv_l by lra.
      assert (0 <= sin l) by (apply sin_ge_0; lra).
      destruct (Rle_dec 0 r); [nra|exfalso; nra]. }
    rewrite <- (atan_tan l) by lra.
    destruct Ht as [Ht|Ht]; [left; apply atan_increasing; exact Ht|].
    rewrite Ht; lra.
  - assert (Ht : r <= tan u).
    { unfold tan. apply Rmult_le_reg_r with (cos u); [lra|].
      unfold Rdiv. rewrite Rmult_assoc, Rinv_l by lra.
      assert (0 <= sin u) by (apply sin_ge_0; lra).
      destruct (Rle_dec 0 r); nra. }
    rewrite <- (atan_tan u) by lra.
    destruct Ht as [Ht|Ht]; [left; apply atan_increasing; exact Ht|].
    rewrite Ht; lra.
Qed.

Lemma sqrt_enclosure l u x :
  0 <= l -> 0 <= u -> l * l <= x -> x <= u * u -> l <= sqrt x <= u.
Proof.
  intros Hl Hu Hlx Hxu. split.
  - rewrite <- (sqrt_square l) by exact Hl. apply sqrt_le_1_alt. exact Hlx.
  - rewrite <- (sqrt_square u) by exact Hu. apply sqrt_le_1_alt. exact Hxu.
Qed.

Lemma div_enclosure x y a1 a2 b1 b2 :
  a1 <= x <= a2 -> b1 <= y <= b2 -> 0 <= a1 -> 0 < b1 ->
  a1 / b2 <= x / y <= a2 / b1.
Proof.
  intros [Hx1 Hx2] [Hy1 Hy2] Ha Hb.
  assert (0 < y) by lra. assert (0 < b2) by lra.
  split.
  - apply Rmult_le_reg_r with (y * b2); [nra|].
    replace (a1 / b2 * (y * b2)) with (a1 * y) by (field; lra).
    replace (x / y * (y * b2)) with (x * b2) by (field; lra). nra.
  - apply Rmult_le_reg_r with (y * b1); [nra|].
    replace (a2 / b1 * (y * b1)) with (a2 * y) by (field; lra).
    replace (x / y * (y * b1)) with (x * b1) by (field; lra). nra.
Qed.

Lemma mul_enclosure x y a1 a2 b1 b2 :
  a1 <= x <= a2 -> b1 <= y <= b2 -> 0 <= a1 -> 0 <= b1 ->
  a1 * b1 <= x * y <= a2 * b2.
Proof. intros [? ?] [? ?] ? ?. split; nra. Qed.

Lemma mul_abs_enclosure x y a b :
  - a <= x <= a -> - b <= y <= b -> - (a * b) <= x * y <= a * b.
Proof. intros [? ?] [? ?]. split; nra. Qed.

Ltac imul H1 H2 H :=
  pose proof (mul_enclosure _ _ _ _ _ _ H1 H2 ltac:(lra) ltac:(lra)) as H.
Ltac idiv H1 H2 H :=
  pose proof (div_enclosure _ _ _ _ _ _ H1 H2 ltac:(lra) ltac:(lra)) as H.

Lemma cube_enclosure x a1 a2 :
  a1 <= x <= a2 -> 0 <= a1 -> a1 ^ 3 <= x ^ 3 <= a2 ^ 3.
Proof.
  intros [H1 H2] H0. split; apply pow_incr; lra.
Qed.

Lemma atan_enclosure_in l u r1 r2 r :
  r1 <= r <= r2 ->
  0 <= l -> l <= 1.57 -> 0 <= u -> u <= 1.57 ->
  0 < cosLo l -> sinHi l <= r1 * cosLo l ->
  0 <= sinLo u -> 0 <= r2 -> r2 * cosHi u <= sinLo u ->
  l <= atan r <= u.
Proof.
  intros [Hr1 Hr2] Hl0 Hl1 Hu0 Hu1 Hcl Hsl Hsu Hr20 Hru.
  assert (Hcu : 0 < cosHi u).
  { destruct (cos_taylor u) as [_ H]; [lra|].
    pose proof half_pi_gt. assert (0 < cos u) by (apply cos_gt_0; lra). lra. }
  apply atan_enclosure; try assumption; nra.
Qed.

Lemma rad2deg_enclosure x l u :
  l <= x <= u -> 0 <= l ->
  l * 180 / 3.1415927 <= rad2deg x <= u * 180 / 3.1415926.
Proof.
  intros Hx Hl. unfold rad2deg.
  assert (H1 : l * 180 <= x * 180 <= u * 180) by lra.
  pose proof PI_bounds as Hpi.
  assert (Hpi' : 3.1415926 <= Math.PI <= 3.1415927) by lra.
  idiv H1 Hpi' H. exact H.
Qed.

Lemma pow_enclosure n x a1 a2 :
  a1 <= x <= a2 -> 0 <= a1 -> a1 ^ n <= x ^ n <= a2 ^ n.
Proof. intros [H1 H2] H0. split; apply pow_incr; lra. Qed.

(** ** The reference point, stage by stage *)

(** Muscat on the WGS84 ellipsoid, in Cartesian coordinates. *)
Lemma muscat_ecef :
  let '(Xs, Ys, Zs) :=
    geodeticToECEF muscatLat muscatLon 0 6378137.0 (1 / 298.257223563) in
  3065943.066 <= Xs <= 3065943.332 /\
  4980288.275 <= Ys <= 4980288.608 /\
  2536530.859 <= Zs <= 2536530.952.
Proof.
  unfold geodeticToECEF, muscatLat, muscatLon. cbv zeta.
  unfold Math.sin, Math.cos, Math.sqrt.
  set (phi := deg2rad 23.588). set (lam := deg2rad 58.3829).
  pose proof PI_bounds as Hpi.
  assert (Hphi : 0.4116882569 <= phi <= 0.4116882701)
    by (unfold phi, deg2rad; lra).
  assert (Hlam : 1.0189738144 <= lam <= 1.0189738470)
    by (unfold lam, deg2rad; lra).
  assert (Hsphi : 0.4001570936 <= sin phi <= 0.4001571080).
  { pose proof (sin_enclosure 0.4116882569 0.4116882701 phi) as H.
    lra. }
  assert (Hcphi : 0.9164465557 <= cos phi <= 0.9164465614).
  { pose proof (cos_enclosure 0.4116882569 0.4116882701 phi) as H. lra. }
  assert (Hslam : 0.8515704856 <= sin lam <= 0.8515705369).
  { pose proof (sin_enclosure 1.0189738144 1.0189738470 lam) as H. lra. }
  assert (Hclam : 0.5242400603 <= cos lam <= 0.5242401023).
  { pose proof (cos_enclosure 1.0189738144 1.0189738470 lam) as H. lra. }
  clearbody phi lam. clear Hpi Hphi Hlam.
  set (e2 := 2 * (1 / 298.257223563) - 1 / 298.257223563 * (1 / 298.257223563)).
  assert (He2 : 0.00669437999014 <= e2 <= 0.00669437999015) by (unfold e2; lra).
  clearbody e2.
  set (cp := cos phi) in *. set (sp := sin phi) in *.
  set (cl := cos lam) in *. set (sl := sin lam) in *.
  clearbody cp sp cl sl.
  imul He2 Hsphi H1. imul H1 Hsphi H2.
  set (w := 1 - e2 * sp * sp) in *.
  assert (Hw : 0.998928057643 <= w <= 0.998928057721) by (unfold w; lra).
  clearbody w. clear H1 H2.
  assert (Hsq : 0.99946388511 <= sqrt w <= 0.99946388516)
    by (apply sqrt_enclosure; lra).
  assert (Ha : 6378137.0 <= 6378137.0 <= 6378137.0) by lra.
  idiv Ha Hsq HN'.
  set (N := 6378137.0 / sqrt w) in *.
  assert (HN : 6381558.248 <= N <= 6381558.249) by lra.
  clearbody N. clear Hsq Hw HN' Ha.
  replace (N + 0) with N by ring.
  replace (N * (1 - e2) + 0) with (N * (1 - e2)) by ring.
  imul HN Hcphi H1. imul H1 Hclam HX. imul H1 Hslam HY.
  assert (H1e : 1 - 0.00669437999015 <= 1 - e2 <= 1 - 0.00669437999014) by lra.
  imul HN H1e H2. imul H2 Hsphi HZ.
  repeat split; lra.
Qed.

(** The Helmert form moves it by some hundreds of meters. *)
Lemma muscat_helmert Xs Ys Zs :
  3065943.066 <= Xs <= 3065943.332 ->
  4980288.275 <= Ys <= 4980288.608 ->
  2536530.859 <= Zs <= 2536530.952 ->
  let '(Xt, Yt, Zt) := helmertForward (Xs, Ys, Zs) in
  3065589.059 <= Xt <= 3065589.326 /\
  4980279.848 <= Yt <= 4980280.182 /\
  2536755.818 <= Zt <= 2536755.912.
Proof.
  intros HX HY HZ.
  unfold helmertForward, helmertLinear.
  destruct rotation_enclosures as (Hrx & Hry & Hrz).
  set (rx' := arcsec2rad (rx helmertParams)) in *.
  set (ry' := arcsec2rad (ry helmertParams)) in *.
  set (rz' := arcsec2rad (rz helmertParams)) in *.
  clearbody rx' ry' rz'.
  cbn [dx dy dz scale helmertParams].
  assert (Hnrx : 0.00000392699075 <= - rx' <= 0.00000392699088) by lra.
  assert (Hnry : 0.00000920176351 <= - ry' <= 0.00000920176381) by lra.
  imul Hrz HX Hzx. imul Hrz HY Hzy.
  imul Hnry HX Hyx. imul Hnry HZ Hyz.
  imul Hnrx HY Hxy. imul Hnrx HZ Hxz.
  repeat split; lra.
Qed.

(** Bowring's formula on Clarke 1880 gives the PSD93 latitude and longitude. *)
Lemma muscat_geodetic Xt Yt Zt :
  3065589.059 <= Xt <= 3065589.326 ->
  4980279.848 <= Yt <= 4980280.182 ->
  2536755.818 <= Zt <= 2536755.912 ->
  let '(lat, lon, _) := ecefToGeodetic Xt Yt Zt 6378249.145 (1 / 293.465) in
  23.5928665 <= lat <= 23.5928698 /\ 58.3858071 <= lon <= 58.3858133.
Proof.
  intros HX HY HZ. unfold ecefToGeodetic. cbv zeta.
  unfold Math.sqrt, Math.sin, Math.cos.
  imul HX HX HXX. imul HY HY HYY.
  set (p2 := Xt * Xt + Yt * Yt) in *.
  assert (Hp2 : 34201023643055 <= p2 <= 34201028606908) by (unfold p2; lra).
  clearbody p2. clear HXX HYY.
  assert (Hp : 5848164.125 <= sqrt p2 <= 5848164.551)
    by (apply sqrt_enclosure; lra).
  set (p := sqrt p2) in *. clearbody p. clear Hp2.
  assert (Htd : 37173942220130.054
                <= p * (1 - 1 / 293.465) * 6378249.145
                <= 37173944928005.39) by lra.
  assert (Htn : 16180060627232.275 <= Zt * 6378249.145
                <= 16180061226787.696) by lra.
  rewrite (atan2_pos (Zt * 6378249.145)) by lra.
  idiv Htn Htd Ht0.
  set (t := Zt * 6378249.145 / (p * (1 - 1 / 293.465) * 6378249.145)) in *.
  assert (Ht : 0.43525271957 <= t <= 0.43525276741) by lra.
  clearbody t. clear Ht0 Htn Htd.
  rewrite sin_atan, cos_atan, !pow_3. unfold Rsqr.
  imul Ht Ht Htt.
  assert (Hh : 1.0906167658 <= sqrt (1 + t * t) <= 1.090616785)
    by (apply sqrt_enclosure; lra).
  set (hyp := sqrt (1 + t * t)) in *. clearbody hyp. clear Htt.
  idiv Ht Hh Hs0.
  assert (H1 : 1 <= 1 <= 1) by lra.
  idiv H1 Hh Hc0.
  set (sth := t / hyp) in *. set (cth := 1 / hyp) in *.
  assert (Hsth : 0.3990885942 <= sth <= 0.3990886452) by lra.
  assert (Hcth : 0.9169123506 <= cth <= 0.9169123668) by lra.
  clearbody sth cth. clear Hs0 Hc0 Hh Ht.
  pose proof (cube_enclosure _ _ _ Hsth ltac:(lra)) as Hs3.
  pose proof (cube_enclosure _ _ _ Hcth ltac:(lra)) as Hc3.
  set (s3 := sth ^ 3) in *. set (c3 := cth ^ 3) in *.
  assert (Hs3' : 0.063563521251 <= s3 <= 0.063563545621) by lra.
  assert (Hc3' : 0.770874123884 <= c3 <= 0.770874164745) by lra.
  clearbody s3 c3. clear Hs3 Hc3.
  set (e2 := 2 * (1 / 293.465) - 1 / 293.465 * (1 / 293.465)).
  set (K1 := e2 / (1 - e2) * (1 - 1 / 293.465) * 6378249.145).
  set (K2 := e2 * 6378249.145).
  assert (HK1 : 43542.865007 <= K1 <= 43542.865008) by (unfold K1, e2; lra).
  assert (HK2 : 43394.490022 <= K2 <= 43394.490023) by (unfold K2, e2; lra).
  clearbody K1 K2.
  imul HK1 Hs3' Hn1. imul HK2 Hc3' Hd1.
  set (num := Zt + K1 * s3) in *. set (den := p - K2 * c3) in *.
  assert (Hnum : 2539523.555 <= num <= 2539523.651) by (unfold num; lra).
  assert (Hden : 5814712.433 <= den <= 5814712.862) by (unfold den; lra).
  clearbody num den. clear Hn1 Hd1.
  rewrite (atan2_pos num) by lra.
  rewrite (atan2_pos Yt) by lra.
  idiv Hnum Hden Hr0. idiv HY HX Hq0.
  set (r := num / den) in *. set (q := Yt / Xt) in *.
  assert (Hr : 0.43674100772 <= r <= 0.43674105647) by lra.
  assert (Hq : 1.62457502241 <= q <= 1.62457527286) by lra.
  clearbody r q. clear Hr0 Hq0.
  assert (Hlat : 0.411773208 <= atan r <= 0.41177325)
    by (apply (atan_enclosure_in _ _ _ _ _ Hr); lra).
  assert (Hlon : 1.019024587 <= atan q <= 1.01902466)
    by (apply (atan_enclosure_in _ _ _ _ _ Hq); lra).
  pose proof (rad2deg_enclosure _ _ _ Hlat ltac:(lra)).
  pose proof (rad2deg_enclosure _ _ _ Hlon ltac:(lra)).
  split; lra.
Qed.

(** Snyder's series in zone 40, whose central meridian is 57 degrees. *)
Lemma muscat_utm lat lon :
  23.5928665 <= lat <= 23.5928698 ->
  58.3858071 <= lon <= 58.3858133 ->
  641404.9 <= UTM.easting (psd93ToUTM lat lon 40) <= 641405.7 /\
  2609619.4 <= UTM.northing (psd93ToUTM lat lon 40) <= 2609620.
Proof.
  intros Hlat Hlon.
  rewrite psd93ToUTM_snyder. cbv zeta. cbn [UTM.easting UTM.northing].
  unfold eastingSeries, northingSeries, meridionalArc, primeVertical.
  cbn [semiMajor flattening Clarke1880]. cbv zeta.
  pose proof PI_bounds as Hpi0.
  assert (Hpi : 3.1415926 <= Math.PI <= 3.1415927) by lra. clear Hpi0.
  assert (Hl57 : 58.3858071 - 57 <= lon - (6 * 40 - 183) <= 58.3858133 - 57)
    by lra.
  imul Hlat Hpi Hphi0. imul Hl57 Hpi Hdl0.
  unfold deg2rad.
  set (phi := lat * Math.PI / 180) in *.
  set (dlam := (lon - (6 * 40 - 183)) * Math.PI / 180) in *.
  assert (Hphi : 0.4117731933 <= phi <= 0.4117732641) by (unfold phi; lra).
  assert (Hdl : 0.0241868962 <= dlam <= 0.0241870053) by (unfold dlam; lra).
  clearbody phi dlam. clear Hphi0 Hdl0 Hl57 Hpi Hlat Hlon.
  (* trigonometric lines *)
  assert (Hsn : 0.4002349269 <= sin phi <= 0.4002350039).
  { pose proof (sin_enclosure 0.4117731933 0.4117732641 phi). lra. }
  assert (Hcs : 0.9164125408 <= cos phi <= 0.9164125709).
  { pose proof (cos_enclosure 0.4117731933 0.4117732641 phi). lra. }
  assert (Hs2 : 0.7335605989 <= sin (2 * phi) <= 0.7335607914).
  { pose proof (sin_enclosure (2 * 0.4117731933) (2 * 0.4117732641)
                  (2 * phi)). lra. }
  assert (Hs4 : 0.997090341 <= sin (4 * phi) <= 0.99709121).
  { pose proof (sin_enclosure (4 * 0.4117731933) (4 * 0.4117732641)
                  (4 * phi)). lra. }
  pose proof (SIN_bound (6 * phi)) as Hs6.
  unfold tan.
  idiv Hsn Hcs Htn0.
  set (sn := sin phi) in *. set (cs := cos phi) in *.
  set (s2 := sin (2 * phi)) in *. set (s4 := sin (4 * phi)) in *.
  set (s6 := sin (6 * phi)) in *.
  set (tn := sn / cs) in *.
  assert (Htn : 0.4367409828 <= tn <= 0.4367410813) by lra.
  clearbody sn cs s2 s4 s6 tn. clear Htn0.
  set (e2 := 2 * (1 / 293.465) - 1 / 293.465 * (1 / 293.465)).
  assert (He2 : 0.00680351128284 <= e2 <= 0.00680351128285)
    by (unfold e2; lra).
  set (ep2 := e2 / (1 - e2)).
  assert (Hep2 : 0.00685011612519 <= ep2 <= 0.0068501161252)
    by (unfold ep2, e2; lra).
  set (c0 := 1 - e2 / 4 - 3 * e2 ^ 2 / 64 - 5 * e2 ^ 3 / 256).
  set (c1 := 3 * e2 / 8 + 3 * e2 ^ 2 / 32 + 45 * e2 ^ 3 / 1024).
  set (c2 := 15 * e2 ^ 2 / 256 + 45 * e2 ^ 3 / 1024).
  set (c3 := 35 * e2 ^ 3 / 3072).
  assert (Hc0 : 0.9982969462894 <= c0 <= 0.9982969462896)
    by (unfold c0, e2; lra).
  assert (Hc1 : 0.0025556700483 <= c1 <= 0.0025556700484)
    by (unfold c1, e2; lra).
  assert (Hc2 : 0.000002726013 <= c2 <= 0.0000027260131)
    by (unfold c2, e2; lra).
  assert (Hc3 : 0.0000000035879 <= c3 <= 0.000000003588)
    by (unfold c3, e2; lra).
  clearbody c0 c1 c2 c3 ep2. clearbody e2.
  (* radius of curvature *)
  pose proof (pow_enclosure 2 _ _ _ Hsn ltac:(lra)) as Hss0.
  set (ss := sn ^ 2) in *.
  assert (Hss : 0.16018799671 <= ss <= 0.160188058347) by lra.
  clearbody ss. clear Hss0.
  imul He2 Hss Hes.
  set (w := 1 - e2 * ss) in *.
  assert (Hw : 0.998910158737 <= w <= 0.998910159158) by (unfold w; lra).
  clearbody w. clear Hes.
  assert (Hsq : 0.99945493081 <= sqrt w <= 0.99945493103)
    by (apply sqrt_enclosure; lra).
  assert (Ha : 6378249.145 <= 6378249.145 <= 6378249.145) by lra.
  idiv Ha Hsq HN0.
  set (N := 6378249.145 / sqrt w) in *.
  assert (HN : 6381727.626 <= N <= 6381727.629) by lra.
  clearbody N. clear HN0 Hsq Ha Hw.
  (* series variables *)
  pose proof (pow_enclosure 2 _ _ _ Htn ltac:(lra)) as HT0.
  pose proof (pow_enclosure 2 _ _ _ Hcs ltac:(lra)) as Hcc0.
  set (T := tn ^ 2) in *. set (cc := cs ^ 2) in *.
  assert (HT : 0.190742686 <= T <= 0.1907427721) by lra.
  assert (Hcc : 0.8398119449 <= cc <= 0.8398120002) by lra.
  clearbody T cc. clear HT0 Hcc0.
  imul Hep2 Hcc HC0. imul Hcs Hdl HA0.
  set (C := ep2 * cc) in *. set (A := cs * dlam) in *.
  assert (HC : 0.005752809345 <= C <= 0.005752809725) by lra.
  assert (HA : 0.022165175 <= A <= 0.02216527571) by lra.
  clearbody C A. clear HC0 HA0.
  pose proof (pow_enclosure 2 _ _ _ HA ltac:(lra)) as HA2.
  pose proof (pow_enclosure 3 _ _ _ HA ltac:(lra)) as HA3.
  pose proof (pow_enclosure 4 _ _ _ HA ltac:(lra)) as HA4.
  pose proof (pow_enclosure 5 _ _ _ HA ltac:(lra)) as HA5.
  pose proof (pow_enclosure 6 _ _ _ HA ltac:(lra)) as HA6.
  pose proof (pow_enclosure 2 _ _ _ HT ltac:(lra)) as HT2.
  pose proof (pow_enclosure 2 _ _ _ HC ltac:(lra)) as HC2.
  set (A2 := A ^ 2) in *. set (A3 := A ^ 3) in *. set (A4 := A ^ 4) in *.
  set (A5 := A ^ 5) in *. set (A6 := A ^ 6) in *.
  set (T2 := T ^ 2) in *. set (C2 := C ^ 2) in *.
  assert (HA2' : 0.0004912949827 <= A2 <= 0.0004912994474) by lra.
  assert (HA3' : 0.00001088963926 <= A3 <= 0.00001088978771) by lra.
  assert (HA4' : 0.00000024137076 <= A4 <= 0.000000241375148) by lra.
  assert (HA5' : 0.0000000053500251 <= A5 <= 0.0000000053501468) by lra.
  assert (HA6' : 0.00000000011858424 <= A6 <= 0.00000000011858748) by lra.
  assert (HT2' : 0.0363827722 <= T2 <= 0.0363828052) by lra.
  assert (HC2' : 0.000033094815 <= C2 <= 0.00003309482) by lra.
  clearbody A2 A3 A4 A5 A6 T2 C2. clear HA2 HA3 HA4 HA5 HA6 HT2 HC2.
  (* easting *)
  set (k3 := 1 - T + C). set (k5 := 5 - 18 * T + T2 + 72 * C - 58 * ep2).
  assert (Hk3 : 0.815010037 <= k3 <= 0.815010124) by (unfold k3; lra).
  assert (Hk5 : 1.61990841 <= k5 <= 1.61991003) by (unfold k5; lra).
  clearbody k3 k5.
  imul Hk3 HA3' H3. imul Hk5 HA5' H5.
  set (es := A + k3 * A3 / 6 + k5 * A5 / 120).
  assert (Hes : 0.02216665426 <= es <= 0.022166755) by (unfold es; lra).
  clearbody es. clear H3 H5.
  imul HN Hes HNes.
  split; [lra|].
  (* northing *)
  imul Hc0 Hphi Hm0. imul Hc1 Hs2 Hm1. imul Hc2 Hs4 Hm2.
  assert (Hm3 : -0.000000003588 <= c3 * s6 <= 0.000000003588).
  { pose proof (mul_abs_enclosure c3 s6 0.000000003588 1
                  ltac:(lra) ltac:(lra)). lra. }
  set (m := c0 * phi - c1 * s2 + c2 * s4 - c3 * s6).
  assert (Hm : 0.4091998965 <= m <= 0.409199975) by (unfold m; lra).
  clearbody m. clear Hm0 Hm1 Hm2 Hm3.
  set (k4 := 5 - T + 9 * C + 4 * C2).
  set (k6 := 61 - 58 * T + T2 + 600 * C - 330 * ep2).
  assert (Hk4 : 4.86116489 <= k4 <= 4.86116499) by (unfold k4; lra).
  assert (Hk6 : 51.1644492 <= k6 <= 51.1644546) by (unfold k6; lra).
  clearbody k4 k6.
  imul Hk4 HA4' H4. imul Hk6 HA6' H6.
  set (br := A2 / 2 + k4 * A4 / 24 + k6 * A6 / 720).
  assert (Hbr : 0.000245696389 <= br <= 0.0002456986224) by (unfold br; lra).
  clearbody br. clear H4 H6.
  imul HN Htn HNt0.
  set (Nt := N * tn) in *.
  assert (HNt : 2787161.995 <= Nt <= 2787162.626) by lra.
  clearbody Nt. clear HNt0.
  imul HNt Hbr Hns.
  split; lra.
Qed.

(** The whole chain at the reference point. *)
Lemma muscat_utm40_enclosure :
  let u := wgs84ToUTM muscatLat muscatLon 40 in
  641404.9 <= UTM.easting u <= 641405.7 /\
  2609619.4 <= UTM.northing u <= 2609620.
Proof.
  unfold wgs84ToUTM. rewrite wgs84ToPSD93_stages.
  pose proof muscat_ecef as H1.
  destruct (geodeticToECEF muscatLat muscatLon 0 6378137.0
              (1 / 298.257223563)) as [[Xs Ys] Zs].
  destruct H1 as (HX & HY & HZ).
  pose proof (muscat_helmert Xs Ys Zs HX HY HZ) as H2.
  destruct (helmertForward (Xs, Ys, Zs)) as [[Xt Yt] Zt].
  destruct H2 as (HXt & HYt & HZt).
  pose proof (muscat_geodetic Xt Yt Zt HXt HYt HZt) as H3.
  destruct (ecefToGeodetic Xt Yt Zt 6378249.145 (1 / 293.465))
    as [[psdLat psdLon] h].
  destruct H3 as (Hlat & Hlon).
  apply muscat_utm; assumption.
Qed.

(** C1, as amended: Muscat, WGS84 (23.588, 58.3829), converted by
    [wgs84ToPSD93] and then by [psd93ToUTM] in zone 40, has an easting
    between 641,404 and 641,406 meters, some 141 km east of the central
    line, and a northing between 2,609,619 and 2,609,621 meters, hence
    within 10 km of 2,600,000. *)
Theorem muscat_utm40 :
  let u := wgs84ToUTM muscatLat muscatLon 40 in
  641404 <= UTM.easting u <= 641406 /\
  2609619 <= UTM.northing u <= 2609621 /\
  Rabs (UTM.northing u - 2600000) <= 10000 /\
  UTM.zone u = 40.
Proof.
  pose proof muscat_utm40_enclosure as H. cbv zeta in H |- *.
  destruct H as ((E1 & E2) & (N1 & N2)).
  split; [lra|]. split; [lra|]. split; [apply Rabs_le_iff; lra|].
  unfold wgs84ToUTM.
  destruct (wgs84ToPSD93 muscatLat muscatLon 0) as [[psdLat psdLon] h].
  reflexivity.
Qed.

(** The easting of the reference point is not within 490,000-510,000. *)
Lemma muscat_easting_outside_490_510 :
  ~ (490000 <= UTM.easting (wgs84ToUTM muscatLat muscatLon 40) <= 510000).
Proof.
  pose proof muscat_utm40_enclosure as H. cbv zeta in H.
  destruct H as ((E1 & E2) & _). lra.
Qed.

(** ** Bowring's latitude: the angle of a ratio *)

Lemma sqrt_eq_of_sq x y : 0 <= y -> y * y = x -> sqrt x = y.
Proof. intros Hy E. subst x. apply sqrt_square. exact Hy. Qed.

(** Sine and cosine of [atan (n / d)] for a positive denominator. *)
Lemma sin_cos_atan_ratio n d :
  0 < d ->
  let r := sqrt (n * n + d * d) in
  0 < r /\ sin (atan (n / d)) = n / r /\ cos (atan (n / d)) = d / r.
Proof.
  intros Hd r.
  assert (Hr : 0 < r) by (apply sqrt_lt_R0; nra).
  assert (Hrr : r * r = n * n + d * d) by (apply sqrt_sqrt; nra).
  assert (Hs : sqrt (1 + (n / d)²) = r / d).
  { apply sqrt_eq_of_sq.
    - apply Rlt_le, Rdiv_lt_0_compat; assumption.
    - unfold Rsqr.
      replace (r / d * (r / d)) with (r * r / (d * d)) by (field; lra).
      rewrite Hrr. field. lra. }
  split; [exact Hr|].
  rewrite sin_atan, cos_atan, Hs. split; field; lra.
Qed.

(** [Math.atan2 y x] is the angle of the point (x, y). *)
Lemma atan2_cos_sin y x :
  0 < sqrt (x * x + y * y) ->
  cos (Math.atan2 y x) = x / sqrt (x * x + y * y) /\
  sin (Math.atan2 y x) = y / sqrt (x * x + y * y).
Proof.
  intros Hr. set (r := sqrt (x * x + y * y)) in *.
  unfold Math.atan2, Math.PI.
  destruct (Rlt_dec 0 x) as [Hx|Hx].
  - destruct (sin_cos_atan_ratio y x Hx) as (_ & Hs & Hc).
    replace (y * y + x * x) with (x * x + y * y) in Hs, Hc by ring.
    fold r in Hs, Hc. split; assumption.
  - destruct (Rlt_dec x 0) as [Hx'|Hx'].
    + assert (Hnx : 0 < - x) by lra.
      destruct (sin_cos_atan_ratio (- y) (- x) Hnx) as (_ & Hs & Hc).
      replace (- y * - y + - x * - x) with (x * x + y * y) in Hs, Hc by ring.
      fold r in Hs, Hc.
      replace (- y / - x) with (y / x) in Hs, Hc by (field; lra).
      destruct (Rle_dec 0 y).
      * rewrite cos_plus, sin_plus, cos_PI, sin_PI, Hs, Hc.
        split; field; lra.
      * rewrite cos_minus, sin_minus, cos_PI, sin_PI, Hs, Hc.
        split; field; lra.
    + assert (Hx0 : x = 0) by lra. subst x.
      assert (Hyy : r = Rabs y).
      { unfold r. replace (0 * 0 + y * y) with (y²) by (unfold Rsqr; ring).
        apply sqrt_Rsqr_abs. }
      destruct (Rlt_dec 0 y) as [Hy|Hy].
      * rewrite cos_PI2, sin_PI2, Hyy, Rabs_right by lra.
        split; field; lra.
      * destruct (Rlt_dec y 0) as [Hy'|Hy'].
        -- replace (- PI / 2) with (- (PI / 2)) by field.
           rewrite cos_neg, sin_neg, cos_PI2, sin_PI2, Hyy, Rabs_left by lra.
           split; field; lra.
        -- assert (y = 0) by lra. subst y.
           rewrite Hyy, Rabs_R0 in Hr. lra.
Qed.

(** ** Bowring's latitude in normal form *)

Section BowringNormal.
Variables a f X Y Z rho s c : R.
Hypothesis Ha : 0 < a.
Hypothesis Hf : 0 < f < 1.
Hypothesis Hrho : 0 < rho.
Hypothesis Hc : 0 < c.
Hypothesis Hsc : s * s + c * c = 1.
Hypothesis Hp : sqrt (X * X + Y * Y) = rho * a * c.
Hypothesis HZ : Z = rho * ((1 - f) * a) * s.

Let e2 := 2 * f - f * f.
Let u := (1 - e2) * rho + e2 * (s * s).
Let v := rho - e2 * (c * c).
Let w := (1 - e2) + e2 * (s * s).
Let q := c * c * (v * v) + s * s * (u * u).

Hypothesis Hv : 0 < v.

Lemma bowring_e2 : 1 - e2 = (1 - f) * (1 - f) /\ 0 < e2 < 1.
Proof. unfold e2. split; [ring|]. split; nra. Qed.

Lemma bowring_u_pos : 0 < u.
Proof.
  destruct bowring_e2 as (_ & He1 & He2). unfold u.
  assert (0 <= s * s) by nra.
  assert (0 < (1 - e2) * rho) by (apply Rmult_lt_0_compat; lra).
  nra.
Qed.

Lemma bowring_q_pos : 0 < q.
Proof.
  unfold q. assert (0 < c * c * (v * v)) by (repeat apply Rmult_lt_0_compat; lra).
  assert (0 <= s * s * (u * u)) by (apply Rmult_le_pos; nra). lra.
Qed.

Lemma bowring_theta :
  let theta := Math.atan2 (Z * a) (rho * a * c * (1 - f) * a) in
  sin theta = s /\ cos theta = c.
Proof.
  intros theta. unfold theta.
  assert (Hd : 0 < rho * a * c * (1 - f) * a)
    by (repeat apply Rmult_lt_0_compat; lra).
  rewrite atan2_pos by exact Hd.
  destruct (sin_cos_atan_ratio (Z * a) _ Hd) as (Hr & Hs & Hco).
  set (r := sqrt (Z * a * (Z * a) +
                  rho * a * c * (1 - f) * a * (rho * a * c * (1 - f) * a))) in *.
  assert (Er : r = rho * (1 - f) * a * a).
  { unfold r. apply sqrt_eq_of_sq.
    - repeat apply Rmult_le_pos; lra.
    - rewrite HZ.
      replace (rho * ((1 - f) * a) * s * a * (rho * ((1 - f) * a) * s * a) +
               rho * a * c * (1 - f) * a * (rho * a * c * (1 - f) * a))
        with (rho * (1 - f) * a * a * (rho * (1 - f) * a * a) * (s * s + c * c))
        by ring.
      rewrite Hsc. ring. }
  rewrite Hs, Hco, Er, HZ. split; field; repeat split; lra.
Qed.

Lemma bowring_num :
  Z + e2 / (1 - e2) * (1 - f) * a * s ^ 3 = a * s / (1 - f) * u.
Proof.
  destruct bowring_e2 as (Hk & _). rewrite Hk, HZ. unfold u. rewrite Hk.
  field. lra.
Qed.

Lemma bowring_den : rho * a * c - e2 * a * c ^ 3 = a * c * v.
Proof. unfold v. ring. Qed.

Lemma bowring_den_pos : 0 < a * c * v.
Proof. repeat apply Rmult_lt_0_compat; lra. Qed.

(** The geodetic coordinates that [ecefToGeodetic] returns, sent back to
    Cartesian coordinates with their height and with height 0. *)
Lemma bowring_back :
  let '(lat, lon, h) := ecefToGeodetic X Y Z a f in
  geodeticToECEF lat lon h a f
    = (X, Y, Z + a * s * e2 / (1 - f) * (rho * w / v - u / sqrt q)) /\
  geodeticToECEF lat lon 0 a f
    = (X * (v / (rho * sqrt q)), Y * (v / (rho * sqrt q)),
       Z * (u / (rho * sqrt q))).
Proof.
  destruct bowring_e2 as (Hk & He1 & He2).
  pose proof bowring_u_pos as Hu. pose proof bowring_q_pos as Hq.
  pose proof bowring_den_pos as Hd.
  assert (Hsq : 0 < sqrt q) by (apply sqrt_lt_R0; exact Hq).
  assert (Hqq : sqrt q * sqrt q = q) by (apply sqrt_sqrt; lra).
  unfold ecefToGeodetic, geodeticToECEF. cbv zeta.
  rewrite !deg2rad_rad2deg.
  unfold Math.sqrt, Math.sin, Math.cos. rewrite !pow_3.
  fold e2.
  assert (Hpp : 0 < sqrt (X * X + Y * Y))
    by (rewrite Hp; repeat apply Rmult_lt_0_compat; lra).
  destruct (atan2_cos_sin Y X Hpp) as (Hcl & Hsl).
  rewrite Hcl, Hsl. clear Hcl Hsl.
  rewrite Hp.
  destruct bowring_theta as (Hts & Htc). cbv zeta in Hts, Htc.
  rewrite Hts, Htc, bowring_num, bowring_den.
  rewrite atan2_pos by exact Hd.
  destruct (sin_cos_atan_ratio (a * s / (1 - f) * u) _ Hd) as (Hr & Hs & Hco).
  cbv zeta in Hr, Hs, Hco.
  set (r := sqrt (a * s / (1 - f) * u * (a * s / (1 - f) * u) +
                  a * c * v * (a * c * v))) in *.
  assert (Hrr : r * r = a * s / (1 - f) * u * (a * s / (1 - f) * u) +
                        a * c * v * (a * c * v))
    by (apply sqrt_sqrt; nra).
  rewrite Hs, Hco.
  assert (HN : sqrt (1 - e2 * (a * s / (1 - f) * u / r)
                       * (a * s / (1 - f) * u / r)) = a * sqrt q / r).
  { apply sqrt_eq_of_sq.
    - apply Rlt_le, Rdiv_lt_0_compat; [apply Rmult_lt_0_compat|]; lra.
    - replace (a * sqrt q / r * (a * sqrt q / r))
        with (a * a * (sqrt q * sqrt q) / (r * r)) by (field; lra).
      rewrite Hqq.
      replace (1 - e2 * (a * s / (1 - f) * u / r) * (a * s / (1 - f) * u / r))
        with ((r * r - e2 * (a * s / (1 - f) * u * (a * s / (1 - f) * u)))
              / (r * r)) by (field; lra).
      f_equal. rewrite Hrr. unfold q.
      replace e2 with (1 - (1 - f) * (1 - f)) by lra.
      field. lra. }
  rewrite HN. clear HN Hs Hco.
  rewrite HZ.
  assert (Huv : u = (1 - f) * (1 - f) * v + (1 - (1 - f) * (1 - f)) * w).
  { unfold u, v, w, e2. replace (c * c) with (1 - s * s) by lra. ring. }
  split; (f_equal; [f_equal|]);
    try (field; repeat split; lra).
  - rewrite Hk. replace e2 with (1 - (1 - f) * (1 - f)) by lra.
    rewrite Huv. field. repeat split; lra.
  - rewrite Hk. field. repeat split; lra.
Qed.

End BowringNormal.

(** ** Bounds on the normal form *)

Ltac iabs x y a b H :=
  pose proof (mul_abs_enclosure x y a b ltac:(lra) ltac:(lra)) as H.

Lemma ratio_bound x d tq B d0 :
  x * d = tq -> d0 <= d -> 0 < d0 -> Rabs tq <= B -> Rabs x <= B / d0.
Proof.
  intros E Hd Hd0 HB.
  assert (Hdpos : 0 < d) by lra.
  assert (Hx : x = tq / d) by (rewrite <- E; field; lra).
  rewrite Hx. unfold Rdiv at 1. rewrite Rabs_mult.
  rewrite (Rabs_right (/ d)) by (left; apply Rinv_0_lt_compat; lra).
  assert (0 <= Rabs tq) by apply Rabs_pos.
  assert (Hi : / d <= / d0) by (apply Rinv_le_contravar; lra).
  assert (0 < / d) by (apply Rinv_0_lt_compat; lra).
  unfold Rdiv. nra.
Qed.

Lemma scale_enclosure t x l u :
  0 <= t -> l <= x <= u -> t * l <= t * x <= t * u.
Proof. intros Ht [H1 H2]. split; apply Rmult_le_compat_l; assumption. Qed.

Lemma Rabs_scaled t x B : 0 <= t -> Rabs x <= B -> Rabs (t * x) <= B * t.
Proof.
  intros Ht Hx. rewrite Rabs_mult, (Rabs_right t) by lra.
  rewrite (Rmult_comm B). apply Rmult_le_compat_l; assumption.
Qed.

Section BowringBounds.
Variables e2 sg eta : R.
Hypothesis He2 : 0 < e2 <= 0.007.
Hypothesis Hsg : 0 <= sg <= 1.
Hypothesis Heta : -0.001 <= eta <= 0.001.

Let k := 1 - e2.
Let rho := 1 + eta.
Let w := k + e2 * sg.
Let u := k * rho + e2 * sg.
Let v := rho - e2 * (1 - sg).
Let q := (1 - sg) * (v * v) + sg * (u * u).
Let m := 1 - e2 * sg.
Let n := 1 - sg + sg * (k * k).

Lemma bb_ranges :
  0.993 <= k <= 1 /\ 0.993 <= w <= 1 /\ 0.993 <= m <= 1 /\ 0.986 <= n <= 1 /\
  0.992 <= u <= 1.001 /\ 0.992 <= v <= 1.001 /\ 0.999 <= rho <= 1.001.
Proof.
  assert (He2' : 0 <= e2 <= 0.007) by lra.
  assert (Hcs : 0 <= 1 - sg <= 1) by lra.
  imul He2' Hsg Hes. imul He2' Hcs Hec.
  assert (Hk : 0.993 <= k <= 1) by (unfold k; lra).
  imul Hk Hk Hkk.
  pose proof (scale_enclosure sg (k * k) _ _ ltac:(lra) Hkk) as Hskk.
  iabs k eta 1 0.001 Hke.
  assert (Hw : 0.993 <= w <= 1) by (unfold w, k in *; lra).
  assert (Hm : 0.993 <= m <= 1) by (unfold m; lra).
  assert (Hn : 0.986 <= n <= 1) by (unfold n; lra).
  assert (Huw : u = w + k * eta) by (unfold u, w, rho; ring).
  assert (Hvw : v = w + eta) by (unfold v, w, rho, k; ring).
  assert (Hu : 0.992 <= u <= 1.001) by lra.
  assert (Hv : 0.992 <= v <= 1.001) by lra.
  assert (Hr : 0.999 <= rho <= 1.001) by (unfold rho; lra).
  tauto.
Qed.

Lemma bb_sqrt_q : 0.992 <= sqrt q <= 1.001 /\ sqrt q * sqrt q = q.
Proof.
  destruct bb_ranges as (_ & _ & _ & _ & Hu & Hv & _).
  imul Hu Hu Huu. imul Hv Hv Hvv.
  assert (Hcs : 0 <= 1 - sg <= 1) by lra.
  assert (Hq : 0.992 * 0.992 <= q <= 1.001 * 1.001).
  { unfold q.
    pose proof (scale_enclosure (1 - sg) (v * v) _ _ ltac:(lra) Hvv).
    pose proof (scale_enclosure sg (u * u) _ _ ltac:(lra) Huu).
    lra. }
  split.
  - apply sqrt_enclosure; lra.
  - apply sqrt_sqrt. lra.
Qed.

Lemma bb_second_order :
  rho * rho * (w * w) * q - u * u * (v * v) =
  eta * eta *
  (3 * (w * w) * (e2 * e2) * sg * (1 - sg)
   + 2 * w * (w * n + w * w * m - k - k * k) * eta
   + (w * w * n - k * k) * (eta * eta)).
Proof. unfold q, u, v, w, m, n, rho, k. ring. Qed.

Lemma bb_first_order_v :
  v * v - rho * rho * q =
  - eta * (2 * w * k + eta * (n + 4 * w * m + w * w - 1)
           + eta * eta * (2 * n + 2 * w * m) + eta * eta * eta * n).
Proof. unfold q, u, v, w, m, n, rho, k. ring. Qed.

Lemma bb_first_order_u :
  u * u - rho * rho * q =
  - eta * (2 * w + eta * (n + 4 * w * m + w * w - k * k)
           + eta * eta * (2 * n + 2 * w * m) + eta * eta * eta * n).
Proof. unfold q, u, v, w, m, n, rho, k. ring. Qed.

Lemma bb_eta_powers :
  0 <= eta * eta <= 0.000001 /\
  -0.000000001 <= eta * eta * eta <= 0.000000001.
Proof.
  iabs eta eta 0.001 0.001 H2.
  pose proof (Rle_0_sqr eta) as H0. unfold Rsqr in H0.
  iabs (eta * eta) eta 0.000001 0.001 H3. lra.
Qed.

Lemma bb_eps :
  Rabs (rho * w / v - u / sqrt q) <= 0.00012 * (eta * eta).
Proof.
  destruct bb_ranges as (Hk & Hw & Hm & Hn & Hu & Hv & Hrho).
  destruct bb_sqrt_q as (Hsq & Hqq).
  destruct bb_eta_powers as (He2p & _).
  set (sq := sqrt q) in *.
  set (Q := 3 * (w * w) * (e2 * e2) * sg * (1 - sg)
            + 2 * w * (w * n + w * w * m - k - k * k) * eta
            + (w * w * n - k * k) * (eta * eta)).
  assert (He2' : 0 <= e2 <= 0.007) by lra.
  assert (Hcs : 0 <= 1 - sg <= 1) by lra.
  imul Hw Hw Hww. imul He2' He2' Hee. imul Hsg Hcs Hss. imul Hk Hk Hkk.
  imul Hw Hn Hwn. imul Hww Hm Hwwm. imul Hww Hn Hwwn.
  assert (Hww' : 0 <= w * w <= 1) by lra.
  imul Hww' Hee Hwe. imul Hwe Hss Hwes.
  assert (Ht1 : 0 <= 3 * (w * w) * (e2 * e2) * sg * (1 - sg) <= 0.000147).
  { replace (3 * (w * w) * (e2 * e2) * sg * (1 - sg))
      with (3 * ((w * w) * (e2 * e2) * (sg * (1 - sg)))) by ring. lra. }
  iabs w (w * n + w * w * m - k - k * k) 1 0.042 Hd2.
  iabs (w * (w * n + w * w * m - k - k * k)) eta (1 * 0.042) 0.001 Hd3.
  assert (Ht2 : -0.000084 <= 2 * w * (w * n + w * w * m - k - k * k) * eta
                <= 0.000084).
  { replace (2 * w * (w * n + w * w * m - k - k * k) * eta)
      with (2 * (w * (w * n + w * w * m - k - k * k) * eta)) by ring. lra. }
  iabs (w * w * n - k * k) (eta * eta) 1 0.000001 Ht3.
  assert (HQ : Rabs Q <= 0.000232).
  { apply Rabs_le_iff. unfold Q. clear - Ht1 Ht2 Ht3. lra. }
  imul Hrho Hw Hrw. imul Hrw Hsq Hrws. imul Hu Hv Huv. imul Hv Hsq Hvs.
  assert (HD1 : 1.968 <= rho * w * sq + u * v <= 3) by (clear - Hrws Huv; lra).
  assert (HD2 : 0.984 <= v * sq <= 2) by (clear - Hvs; lra).
  imul HD1 HD2 HD0.
  assert (HD : 1.936 <= (rho * w * sq + u * v) * (v * sq)) by lra.
  assert (E : (rho * w / v - u / sq) * ((rho * w * sq + u * v) * (v * sq))
              = eta * eta * Q).
  { unfold Q. rewrite <- bb_second_order. rewrite <- Hqq. fold sq.
    field. split; lra. }
  pose proof (ratio_bound _ _ _ (0.000232 * (eta * eta)) 1.936 E HD
                ltac:(lra) (Rabs_scaled (eta * eta) Q 0.000232 ltac:(lra) HQ)) as H.
  eapply Rle_trans; [apply H|]. lra.
Qed.

Lemma bb_scale_v : Rabs (v / (rho * sqrt q) - 1) <= 1.04 * Rabs eta.
Proof.
  destruct bb_ranges as (Hk & Hw & Hm & Hn & Hu & Hv & Hrho).
  destruct bb_sqrt_q as (Hsq & Hqq).
  destruct bb_eta_powers as (He2p & He3p).
  set (sq := sqrt q) in *.
  set (R := 2 * w * k + eta * (n + 4 * w * m + w * w - 1)
            + eta * eta * (2 * n + 2 * w * m) + eta * eta * eta * n).
  imul Hw Hk Hwk. imul Hw Hm Hwm. imul Hw Hw Hww.
  iabs eta (n + 4 * w * m + w * w - 1) 0.001 5 H1.
  iabs (eta * eta) (2 * n + 2 * w * m) 0.000001 4 H2.
  iabs (eta * eta * eta) n 0.000000001 1 H3.
  assert (HR : Rabs R <= 2.0061).
  { apply Rabs_le_iff. unfold R. clear - Hwk H1 H2 H3. lra. }
  imul Hrho Hsq Hrs0.
  assert (Hrs : 0.991 <= rho * sq <= 2) by lra.
  assert (Hvr : 1.983 <= v + rho * sq <= 4) by lra.
  imul Hrs Hvr HD0.
  assert (HD : 1.965 <= rho * sq * (v + rho * sq)) by lra.
  assert (E : (v / (rho * sq) - 1) * (rho * sq * (v + rho * sq))
              = - eta * R).
  { unfold R. rewrite <- bb_first_order_v. rewrite <- Hqq. fold sq.
    field. split; lra. }
  assert (HB : Rabs (- eta * R) <= 2.0061 * Rabs eta).
  { rewrite Rabs_mult, Rabs_Ropp, Rmult_comm.
    apply Rmult_le_compat_r; [apply Rabs_pos|exact HR]. }
  pose proof (ratio_bound _ _ _ _ 1.965 E HD ltac:(lra) HB) as H.
  eapply Rle_trans; [apply H|]. pose proof (Rabs_pos eta). lra.
Qed.

Lemma bb_scale_u : Rabs (u / (rho * sqrt q) - 1) <= 1.04 * Rabs eta.
Proof.
  destruct bb_ranges as (Hk & Hw & Hm & Hn & Hu & Hv & Hrho).
  destruct bb_sqrt_q as (Hsq & Hqq).
  destruct bb_eta_powers as (He2p & He3p).
  set (sq := sqrt q) in *.
  set (R := 2 * w + eta * (n + 4 * w * m + w * w - k * k)
            + eta * eta * (2 * n + 2 * w * m) + eta * eta * eta * n).
  imul Hk Hk Hkk. imul Hw Hm Hwm. imul Hw Hw Hww.
  iabs eta (n + 4 * w * m + w * w - k * k) 0.001 5.1 H1.
  iabs (eta * eta) (2 * n + 2 * w * m) 0.000001 4 H2.
  iabs (eta * eta * eta) n 0.000000001 1 H3.
  assert (HR : Rabs R <= 2.0061).
  { apply Rabs_le_iff. unfold R. clear - Hw H1 H2 H3. lra. }
  imul Hrho Hsq Hrs0.
  assert (Hrs : 0.991 <= rho * sq <= 2) by lra.
  assert (Hur : 1.983 <= u + rho * sq <= 4) by lra.
  imul Hrs Hur HD0.
  assert (HD : 1.965 <= rho * sq * (u + rho * sq)) by lra.
  assert (E : (u / (rho * sq) - 1) * (rho * sq * (u + rho * sq))
              = - eta * R).
  { unfold R. rewrite <- bb_first_order_u. rewrite <- Hqq. fold sq.
    field. split; lra. }
  assert (HB : Rabs (- eta * R) <= 2.0061 * Rabs eta).
  { rewrite Rabs_mult, Rabs_Ropp, Rmult_comm.
    apply Rmult_le_compat_r; [apply Rabs_pos|exact HR]. }
  pose proof (ratio_bound _ _ _ _ 1.965 E HD ltac:(lra) HB) as H.
  eapply Rle_trans; [apply H|]. pose proof (Rabs_pos eta). lra.
Qed.

End BowringBounds.

(** ** The error of [ecefToGeodetic] near the ellipsoid *)

Section BowringError.
Variables a f X Y Z d : R.
Hypothesis Ha : 0 < a.
Hypothesis Hf : 0 < f <= 0.0035.
Hypothesis Hp : 0 < X * X + Y * Y.
Hypothesis Hd : d <= 0.001.
Hypothesis HD :
  Rabs ((X * X + Y * Y) / (a * a) + Z * Z / ((1 - f) * a * ((1 - f) * a)) - 1)
  <= d.

Lemma bowring_error :
  let e2 := 2 * f - f * f in
  let '(lat, lon, h) := ecefToGeodetic X Y Z a f in
  (exists eps,
      geodeticToECEF lat lon h a f = (X, Y, Z + eps) /\
      Rabs eps <= a * e2 / (1 - f) * (0.00012 * (d * d))) /\
  (exists gx gz,
      geodeticToECEF lat lon 0 a f = (X * gx, Y * gx, Z * gz) /\
      Rabs (gx - 1) <= 0.521 * d /\ Rabs (gz - 1) <= 0.521 * d).
Proof.
  intros e2.
  assert (Hd0 : 0 <= d) by (eapply Rle_trans; [apply Rabs_pos|apply HD]).
  set (p := sqrt (X * X + Y * Y)).
  assert (Hpp : 0 < p) by (apply sqrt_lt_R0; exact Hp).
  assert (Hp2 : p * p = X * X + Y * Y) by (apply sqrt_sqrt; lra).
  set (b := (1 - f) * a).
  assert (Hb : 0 < b) by (apply Rmult_lt_0_compat; lra).
  set (R1 := sqrt (p * (1 - f) * (p * (1 - f)) + Z * Z)).
  assert (HR1 : 0 < R1).
  { apply sqrt_lt_R0. assert (0 < p * (1 - f)) by (apply Rmult_lt_0_compat; lra).
    nra. }
  assert (HR2 : R1 * R1 = p * (1 - f) * (p * (1 - f)) + Z * Z).
  { apply sqrt_sqrt. nra. }
  set (rho := R1 / b). set (c := p * (1 - f) / R1). set (s := Z / R1).
  assert (Hrho : 0 < rho) by (apply Rdiv_lt_0_compat; lra).
  assert (Hc : 0 < c).
  { apply Rdiv_lt_0_compat; [apply Rmult_lt_0_compat|]; lra. }
  assert (Hsc : s * s + c * c = 1).
  { unfold s, c.
    replace (Z / R1 * (Z / R1) + p * (1 - f) / R1 * (p * (1 - f) / R1))
      with ((p * (1 - f) * (p * (1 - f)) + Z * Z) / (R1 * R1))
      by (field; lra).
    rewrite HR2. field. rewrite <- HR2. nra. }
  assert (Hpc : sqrt (X * X + Y * Y) = rho * a * c).
  { fold p. unfold rho, c, b. field. repeat split; lra. }
  assert (HZs : Z = rho * ((1 - f) * a) * s).
  { unfold rho, s, b. field. repeat split; lra. }
  (* the scale of the ellipse through the point *)
  assert (Hrr : rho * rho - 1 =
                (X * X + Y * Y) / (a * a)
                + Z * Z / ((1 - f) * a * ((1 - f) * a)) - 1).
  { unfold rho.
    replace (R1 / b * (R1 / b)) with (R1 * R1 / (b * b)) by (field; lra).
    rewrite HR2, <- Hp2. unfold b. field. split; lra. }
  rewrite <- Hrr in HD. apply Rabs_le_iff in HD.
  assert (Hrho1 : 0.999 <= rho).
  { destruct (Rle_dec 0.999 rho) as [H|H]; [exact H|]. exfalso.
    assert (rho * rho < 0.999 * 0.999) by nra. lra. }
  set (eta := rho - 1).
  assert (Heta : Rabs eta <= d / 1.999).
  { apply (ratio_bound eta (rho + 1) (rho * rho - 1)).
    - unfold eta. ring.
    - lra.
    - lra.
    - apply Rabs_le_iff. lra. }
  assert (Heta' : -0.001 <= eta <= 0.001).
  { apply Rabs_le_iff in Heta. lra. }
  assert (He2 : 0 < e2 <= 0.007) by (unfold e2; split; nra).
  assert (Hsg : 0 <= s * s <= 1) by (split; nra).
  (* the normal form of Bowring's step *)
  pose proof (bb_ranges e2 (s * s) eta He2 Hsg Heta') as Hrg.
  cbv zeta in Hrg. destruct Hrg as (_ & _ & _ & _ & _ & Hvr & _).
  assert (Ecc : c * c = 1 - s * s) by lra.
  assert (Erho : rho = 1 + eta) by (unfold eta; ring).
  assert (Hv : 0 < rho - (2 * f - f * f) * (c * c)).
  { fold e2. rewrite Ecc, Erho. lra. }
  pose proof (bowring_back a f X Y Z rho s c Ha ltac:(lra) Hrho Hc Hsc Hpc
                HZs Hv) as Hback.
  destruct (ecefToGeodetic X Y Z a f) as [[lat lon] h].
  destruct Hback as (Hh & H0). fold e2 in Hh, H0.
  rewrite Ecc, Erho in Hh, H0.
  pose proof (bb_eps e2 (s * s) eta He2 Hsg Heta') as Heps.
  pose proof (bb_scale_v e2 (s * s) eta He2 Hsg Heta') as Hsv.
  pose proof (bb_scale_u e2 (s * s) eta He2 Hsg Heta') as Hsu.
  cbv zeta in Heps, Hsv, Hsu.
  assert (Hee : 0 <= eta * eta <= d * d).
  { apply Rabs_le_iff in Heta. split; nra. }
  split.
  - eexists. split; [exact Hh|].
    rewrite Rabs_mult.
    assert (Hs1 : Rabs s <= 1).
    { apply Rabs_le_iff. split; nra. }
    assert (Hk : 0 < a * e2 / (1 - f)).
    { apply Rdiv_lt_0_compat; [apply Rmult_lt_0_compat|]; lra. }
    replace (a * s * e2 / (1 - f)) with (a * e2 / (1 - f) * s)
      by (field; lra).
    rewrite Rabs_mult, (Rabs_right (a * e2 / (1 - f))) by lra.
    rewrite Rmult_assoc. apply Rmult_le_compat_l; [lra|].
    pose proof (Rabs_pos s).
    match goal with |- Rabs s * ?t <= _ =>
      assert (0 <= t <= 0.00012 * (d * d)) by
        (split; [apply Rabs_pos|eapply Rle_trans; [apply Heps|lra]]) end.
    nra.
  - eexists. eexists. split; [exact H0|].
    split; (eapply Rle_trans; [first [apply Hsv|apply Hsu]|lra]).
Qed.

End BowringError.

(** ** Points of an ellipsoid *)

Lemma triple_eq (x y z x' y' z' : R) :
  x = x' -> y = y' -> z = z' -> (x, y, z) = (x', y', z').
Proof. intros -> -> ->. reflexivity. Qed.

Lemma sin_cos_sq x : sin x * sin x + cos x * cos x = 1.
Proof. pose proof (sin2_cos2 x) as H. unfold Rsqr in H. exact H. Qed.

(** The points that [geodeticToECEF] returns at height 0 lie on the
    ellipsoid, at least [a * cos lat] away from its axis. *)
Lemma geodeticToECEF_on_ellipsoid lat lon a f :
  0 < a -> 0 < f < 1 ->
  let '(X, Y, Z) := geodeticToECEF lat lon 0 a f in
  (X * X + Y * Y) / (a * a) + Z * Z / ((1 - f) * a * ((1 - f) * a)) = 1 /\
  a * a * (cos (deg2rad lat) * cos (deg2rad lat)) <= X * X + Y * Y.
Proof.
  intros Ha Hf. unfold geodeticToECEF. cbv zeta.
  unfold Math.sqrt, Math.sin, Math.cos.
  set (phi := deg2rad lat). set (lam := deg2rad lon).
  set (e2 := 2 * f - f * f).
  assert (He2 : 0 < e2 < 1) by (unfold e2; split; nra).
  assert (Hk : 1 - e2 = (1 - f) * (1 - f)) by (unfold e2; ring).
  pose proof (sin_cos_sq phi) as Hphi. pose proof (sin_cos_sq lam) as Hlam.
  set (sp := sin phi) in *. set (cp := cos phi) in *.
  set (sl := sin lam) in *. set (cl := cos lam) in *.
  assert (Hsp : 0 <= sp * sp <= 1) by (split; nra).
  set (W := 1 - e2 * sp * sp).
  assert (HW : 1 - e2 <= W <= 1) by (unfold W; split; nra).
  assert (HsW : 0 < sqrt W) by (apply sqrt_lt_R0; lra).
  assert (HWW : sqrt W * sqrt W = W) by (apply sqrt_sqrt; lra).
  set (N := a / sqrt W).
  assert (HNN : N * N = a * a / W).
  { unfold N. rewrite <- HWW at 3. field. lra. }
  assert (HXY : (N + 0) * cp * cl * ((N + 0) * cp * cl)
                + (N + 0) * cp * sl * ((N + 0) * cp * sl)
                = a * a / W * (cp * cp)).
  { replace ((N + 0) * cp * cl * ((N + 0) * cp * cl)
             + (N + 0) * cp * sl * ((N + 0) * cp * sl))
      with (N * N * (cp * cp) * (sl * sl + cl * cl)) by ring.
    rewrite Hlam, HNN. ring. }
  rewrite HXY. split.
  - replace ((N * (1 - e2) + 0) * sp * ((N * (1 - e2) + 0) * sp))
      with (N * N * ((1 - e2) * (1 - e2)) * (sp * sp)) by ring.
    rewrite HNN, Hk.
    replace (cp * cp) with (1 - sp * sp) by lra.
    assert (HWk : W = 1 - (1 - (1 - f) * (1 - f)) * (sp * sp)).
    { unfold W. rewrite <- Hk. ring. }
    rewrite HWk. field. rewrite <- HWk. repeat split; lra.
  - assert (0 <= cp * cp) by nra.
    assert (H1 : 1 <= / W).
    { rewrite <- Rinv_1. apply Rinv_le_contravar; lra. }
    unfold Rdiv. nra.
Qed.

Lemma cos_lat80 lat : -80 <= lat <= 80 -> 0.17 <= cos (deg2rad lat).
Proof.
  intros Hl. pose proof PI_bounds as Hpi.
  assert (Hb : - 1.3963 <= deg2rad lat <= 1.3963) by (unfold deg2rad; split; nra).
  assert (Hc : 0.17 <= cos 1.3963).
  { assert (Hr : -2 <= 1.3963 <= 2) by lra.
    destruct (cos_taylor 1.3963 Hr) as [H _]. cbn [pow] in H. lra. }
  unfold Math.PI in Hpi.
  destruct (Rle_dec 0 (deg2rad lat)) as [H0|H0].
  - eapply Rle_trans; [exact Hc|]. apply cos_decr_1; lra.
  - rewrite <- cos_neg. eapply Rle_trans; [exact Hc|].
    apply cos_decr_1; lra.
Qed.

(** [geodeticToECEF] in terms of the radius of curvature in the prime
    vertical [N] and of the unit normal of the ellipsoid, which depend on
    the latitude and longitude only. *)
Lemma geodeticToECEF_normal lat lon a f :
  0 < a -> 0 < f < 1 ->
  exists N n1 n2 n3,
    n1 * n1 + n2 * n2 + n3 * n3 = 1 /\
    a <= N <= a / (1 - f) /\
    forall h, geodeticToECEF lat lon h a f =
              ((N + h) * n1, (N + h) * n2,
               (N * (1 - (2 * f - f * f)) + h) * n3).
Proof.
  intros Ha Hf. unfold geodeticToECEF. cbv zeta.
  unfold Math.sqrt, Math.sin, Math.cos.
  set (phi := deg2rad lat). set (lam := deg2rad lon).
  set (e2 := 2 * f - f * f).
  assert (He2 : 0 < e2 < 1) by (unfold e2; split; nra).
  assert (Hk : 1 - e2 = (1 - f) * (1 - f)) by (unfold e2; ring).
  pose proof (sin_cos_sq phi) as Hphi. pose proof (sin_cos_sq lam) as Hlam.
  set (W := 1 - e2 * sin phi * sin phi).
  assert (HW : (1 - f) * (1 - f) <= W <= 1).
  { assert (0 <= sin phi * sin phi <= 1) by (split; nra).
    unfold W. rewrite <- Hk. split; nra. }
  assert (HsW : 1 - f <= sqrt W <= 1).
  { split.
    - rewrite <- (sqrt_square (1 - f)) by lra. apply sqrt_le_1_alt. lra.
    - rewrite <- sqrt_1. apply sqrt_le_1_alt. lra. }
  exists (a / sqrt W), (cos phi * cos lam), (cos phi * sin lam), (sin phi).
  split; [|split].
  - replace (cos phi * cos lam * (cos phi * cos lam)
             + cos phi * sin lam * (cos phi * sin lam) + sin phi * sin phi)
      with (cos phi * cos phi * (sin lam * sin lam + cos lam * cos lam)
            + sin phi * sin phi) by ring.
    rewrite Hlam. lra.
  - split.
    + apply (Rmult_le_reg_r (sqrt W)); [lra|].
      replace (a / sqrt W * sqrt W) with a by (field; lra). nra.
    + apply (Rmult_le_reg_r (sqrt W)); [lra|].
      replace (a / sqrt W * sqrt W) with a by (field; lra).
      assert (0 < a / (1 - f)) by (apply Rdiv_lt_0_compat; lra).
      replace a with (a / (1 - f) * (1 - f)) at 1 by (field; lra).
      apply Rmult_le_compat_l; lra.
  - intros h. apply triple_eq; ring.
Qed.

(** ** The Helmert stage near the surface *)

Lemma sq_bound x c : 0 <= c -> x * x <= c * c -> - c <= x <= c.
Proof. intros Hc H. split; nra. Qed.

Lemma sq_le_of_abs x c : - c <= x <= c -> x * x <= c * c.
Proof. intros [H1 H2]. nra. Qed.

(** Coordinates of a point of the WGS84 ellipsoid. *)
Lemma wgs84_point_bounds X Y Z :
  (X * X + Y * Y) / (6378137.0 * 6378137.0)
  + Z * Z / ((1 - 1 / 298.257223563) * 6378137.0
             * ((1 - 1 / 298.257223563) * 6378137.0)) = 1 ->
  (- 6378137 <= X <= 6378137) /\ (- 6378137 <= Y <= 6378137) /\
  (- 6356753 <= Z <= 6356753).
Proof.
  intros Hell.
  assert (HX : 0 <= X * X) by nra. assert (HY : 0 <= Y * Y) by nra.
  assert (HZ : 0 <= Z * Z) by nra.
  set (A := X * X) in *. set (B := Y * Y) in *. set (C := Z * Z) in *.
  assert (HA : A <= 6378137 * 6378137) by (clearbody A B C; lra).
  assert (HB : B <= 6378137 * 6378137) by (clearbody A B C; lra).
  assert (HC : C <= 6356753 * 6356753) by (clearbody A B C; lra).
  subst A B C. split; [|split]; apply sq_bound; lra.
Qed.

(** The forward Helmert form moves a point of the Earth's surface by a few
    hundred metres. *)
Lemma helmertForward_displacement X Y Z :
  - 6378137 <= X <= 6378137 -> - 6378137 <= Y <= 6378137 ->
  - 6356753 <= Z <= 6356753 ->
  exists u v w,
    helmertForward (X, Y, Z) = (X + u, Y + v, Z + w) /\
    - 606 <= u <= 606 /\ - 658 <= v <= 658 /\ - 366 <= w <= 366.
Proof.
  intros HX HY HZ.
  destruct rotation_enclosures as (Hrx & Hry & Hrz).
  unfold helmertForward, helmertLinear.
  set (rx' := arcsec2rad (rx helmertParams)) in *.
  set (ry' := arcsec2rad (ry helmertParams)) in *.
  set (rz' := arcsec2rad (rz helmertParams)) in *.
  clearbody rx' ry' rz'.
  cbn [scale dx dy dz helmertParams].
  exists (-180.624 + 16.71006 * 1e-6 * X - rz' * Y + ry' * Z),
         (-225.516 + rz' * X + 16.71006 * 1e-6 * Y - rx' * Z),
         (173.919 - ry' * X + rx' * Y + 16.71006 * 1e-6 * Z).
  split; [apply triple_eq; ring|].
  iabs rx' Y 0.000004 6378137 HrxY. iabs rx' Z 0.000004 6356753 HrxZ.
  iabs ry' X 0.0000093 6378137 HryX. iabs ry' Z 0.0000093 6356753 HryZ.
  iabs rz' X 0.0000405 6378137 HrzX. iabs rz' Y 0.0000405 6378137 HrzY.
  repeat split; lra.
Qed.

(** The parameter-negated form applied to the forward image of a surface
    point that has been moved by [(- t1, - t2, e - t3)]: up to a decimetre,
    the original point moved by [(- t1, - t2, - t3)]. *)
Lemma helmert_round_trip_shifted X Y Z e t1 t2 t3 :
  - 6378137 <= X <= 6378137 -> - 6378137 <= Y <= 6378137 ->
  - 6356753 <= Z <= 6356753 -> - 0.0001 <= e <= 0.0001 ->
  - 965 <= t1 <= 965 -> - 965 <= t2 <= 965 -> - 965 <= t3 <= 965 ->
  forall u v w, helmertForward (X, Y, Z) = (X + u, Y + v, Z + w) ->
  exists a1 a2 a3,
    helmertInverse (X + u - t1, Y + v - t2, Z + w + e - t3)
    = (X + (a1 - t1), Y + (a2 - t2), Z + (a3 - t3)) /\
    - 0.095 <= a1 <= 0.095 /\ - 0.095 <= a2 <= 0.095 /\
    - 0.095 <= a3 <= 0.095.
Proof.
  intros HX HY HZ He Ht1 Ht2 Ht3 u v w Hf.
  assert (Hd : dist3 (helmertInverse (helmertForward (X, Y, Z))) (X, Y, Z)
               <= 0.03).
  { apply helmert_round_trip_bound; apply Rabs_le_iff; lra. }
  rewrite Hf in Hd.
  destruct rotation_enclosures as (Hrx & Hry & Hrz).
  unfold helmertInverse, helmertLinear in *.
  set (rx' := arcsec2rad (rx helmertParams)) in *.
  set (ry' := arcsec2rad (ry helmertParams)) in *.
  set (rz' := arcsec2rad (rz helmertParams)) in *.
  clearbody rx' ry' rz'.
  cbn [scale dx dy dz helmertParams] in *.
  unfold dist3 in Hd.
  match type of Hd with Rmax (Rabs ?p) (Rmax (Rabs ?q) (Rabs ?r)) <= _ =>
    set (dx0 := p) in *; set (dy0 := q) in *; set (dz0 := r) in * end.
  assert (H1 : Rabs dx0 <= 0.03).
  { eapply Rle_trans; [apply Rmax_l|exact Hd]. }
  assert (H2 : Rabs dy0 <= 0.03).
  { eapply Rle_trans; [|exact Hd].
    eapply Rle_trans; [apply Rmax_l|apply Rmax_r]. }
  assert (H3 : Rabs dz0 <= 0.03).
  { eapply Rle_trans; [|exact Hd].
    eapply Rle_trans; [apply Rmax_r|apply Rmax_r]. }
  apply Rabs_le_iff in H1, H2, H3.
  exists (dx0 + 16.71006 * 1e-6 * t1 - rz' * t2 + ry' * t3 - ry' * e),
         (dy0 + 16.71006 * 1e-6 * t2 + rz' * t1 - rx' * t3 + rx' * e),
         (dz0 + 16.71006 * 1e-6 * t3 - ry' * t1 + rx' * t2
          + (1 - 16.71006 * 1e-6) * e).
  split; [unfold dx0, dy0, dz0; apply triple_eq; unq; unfold Rdiv; ring|].
  iabs ry' e 0.0000093 0.0001 Hrye. iabs rx' e 0.000004 0.0001 Hrxe.
  iabs rx' t2 0.000004 965 Hx2. iabs rx' t3 0.000004 965 Hx3.
  iabs ry' t1 0.0000093 965 Hy1. iabs ry' t3 0.0000093 965 Hy3.
  iabs rz' t1 0.0000405 965 Hz1. iabs rz' t2 0.0000405 965 Hz2.
  repeat split; lra.
Qed.

(** ** Chords of an ellipsoid of revolution *)

(** For two points of the ellipsoid, the component of the chord along the
    normal at the first point is of second order in the chord. *)
Lemma ellipsoid_chord a f N n1 n2 n3 X Y Z X' Y' Z' :
  0 < a -> 0 < f < 1 ->
  X = N * n1 -> Y = N * n2 -> Z = N * (1 - (2 * f - f * f)) * n3 ->
  (X * X + Y * Y) / (a * a) + Z * Z / ((1 - f) * a * ((1 - f) * a)) = 1 ->
  (X' * X' + Y' * Y') / (a * a)
  + Z' * Z' / ((1 - f) * a * ((1 - f) * a)) = 1 ->
  2 * N * (n1 * (X' - X) + n2 * (Y' - Y) + n3 * (Z' - Z))
  = - ((X' - X) * (X' - X) + (Y' - Y) * (Y' - Y)
       + (Z' - Z) * (Z' - Z) / ((1 - f) * (1 - f))).
Proof.
  intros Ha Hf EX EY EZ H1 H2.
  assert (E : (2 * N * (n1 * (X' - X) + n2 * (Y' - Y) + n3 * (Z' - Z))
               + ((X' - X) * (X' - X) + (Y' - Y) * (Y' - Y)
                  + (Z' - Z) * (Z' - Z) / ((1 - f) * (1 - f)))) / (a * a)
              = ((X' * X' + Y' * Y') / (a * a)
                 + Z' * Z' / ((1 - f) * a * ((1 - f) * a)))
                - ((X * X + Y * Y) / (a * a)
                   + Z * Z / ((1 - f) * a * ((1 - f) * a)))).
  { rewrite EX, EY, EZ. field. split; lra. }
  rewrite H1, H2 in E.
  assert (Haa : 0 < a * a) by (apply Rmult_lt_0_compat; lra).
  apply (Rmult_eq_compat_r (a * a)) in E.
  unfold Rdiv at 1 in E. rewrite Rmult_assoc, Rinv_l in E by lra. lra.
Qed.

(** Two unit vectors scaled by [al] and [be]. *)
Lemma unit_vectors_gap al be m1 m2 m3 n1 n2 n3 :
  m1 * m1 + m2 * m2 + m3 * m3 = 1 -> n1 * n1 + n2 * n2 + n3 * n3 = 1 ->
  al * be * ((m1 - n1) * (m1 - n1) + (m2 - n2) * (m2 - n2)
             + (m3 - n3) * (m3 - n3))
  = (al * m1 - be * n1) * (al * m1 - be * n1)
    + (al * m2 - be * n2) * (al * m2 - be * n2)
    + (al * m3 - be * n3) * (al * m3 - be * n3)
    - (al - be) * (al - be).
Proof.
  intros Hm Hn.
  assert (E : al * be * ((m1 - n1) * (m1 - n1) + (m2 - n2) * (m2 - n2)
                         + (m3 - n3) * (m3 - n3))
              - ((al * m1 - be * n1) * (al * m1 - be * n1)
                 + (al * m2 - be * n2) * (al * m2 - be * n2)
                 + (al * m3 - be * n3) * (al * m3 - be * n3)
                 - (al - be) * (al - be))
              = (al * be - al * al) * (m1 * m1 + m2 * m2 + m3 * m3 - 1)
                + (al * be - be * be) * (n1 * n1 + n2 * n2 + n3 * n3 - 1))
    by ring.
  rewrite Hm, Hn in E. lra.
Qed.

Lemma unit_vector_components n1 n2 n3 :
  n1 * n1 + n2 * n2 + n3 * n3 = 1 ->
  -1 <= n1 <= 1 /\ -1 <= n2 <= 1 /\ -1 <= n3 <= 1.
Proof. intros H. repeat split; nra. Qed.

(** The height [h] from the three components of [h] times a unit vector. *)
Lemma height_bound h m1 m2 m3 P1 P2 P3 g1 g3 e gam M2 Zb eb :
  m1 * m1 + m2 * m2 + m3 * m3 = 1 ->
  h * m1 = P1 * (1 - g1) -> h * m2 = P2 * (1 - g1) ->
  h * m3 = P3 * (1 - g3) + e ->
  Rabs (g1 - 1) <= gam -> Rabs (g3 - 1) <= gam ->
  P1 * P1 + P2 * P2 + P3 * P3 <= M2 ->
  - Zb <= P3 <= Zb -> - eb <= e <= eb ->
  h * h <= gam * gam * M2 + 2 * (Zb * gam * eb) + eb * eb.
Proof.
  intros Hm E1 E2 E3 Hg1%Rabs_le_iff Hg3%Rabs_le_iff HM HZ He.
  assert (Hgam : 0 <= gam) by lra.
  assert (Hh : h * h = h * m1 * (h * m1) + h * m2 * (h * m2)
                       + h * m3 * (h * m3)).
  { replace (h * m1 * (h * m1) + h * m2 * (h * m2) + h * m3 * (h * m3))
      with (h * h * (m1 * m1 + m2 * m2 + m3 * m3)) by ring.
    rewrite Hm. ring. }
  rewrite Hh, E1, E2, E3.
  set (c1 := 1 - g1) in *. set (c3 := 1 - g3) in *.
  assert (Hc1 : - gam <= c1 <= gam) by (unfold c1; lra).
  assert (Hc3 : - gam <= c3 <= gam) by (unfold c3; lra).
  pose proof (sq_le_of_abs c1 gam Hc1) as Hcc1.
  pose proof (sq_le_of_abs c3 gam Hc3) as Hcc3.
  assert (H0c1 : 0 <= c1 * c1) by nra. assert (H0c3 : 0 <= c3 * c3) by nra.
  assert (HP1 : 0 <= P1 * P1) by nra. assert (HP2 : 0 <= P2 * P2) by nra.
  assert (HP3 : 0 <= P3 * P3) by nra.
  pose proof (scale_enclosure (P1 * P1) (c1 * c1) 0 (gam * gam) HP1
                (conj H0c1 Hcc1)) as S1.
  pose proof (scale_enclosure (P2 * P2) (c1 * c1) 0 (gam * gam) HP2
                (conj H0c1 Hcc1)) as S2.
  pose proof (scale_enclosure (P3 * P3) (c3 * c3) 0 (gam * gam) HP3
                (conj H0c3 Hcc3)) as S3.
  assert (HZb : 0 <= Zb) by lra. assert (Heb : 0 <= eb) by lra.
  pose proof (mul_abs_enclosure P3 c3 Zb gam HZ Hc3) as Hpc.
  assert (Hzg : 0 <= Zb * gam) by (apply Rmult_le_pos; assumption).
  pose proof (mul_abs_enclosure (P3 * c3) e (Zb * gam) eb Hpc He) as Hpce.
  pose proof (sq_le_of_abs e eb He) as Hee.
  replace (P1 * c1 * (P1 * c1)) with (P1 * P1 * (c1 * c1)) by ring.
  replace (P2 * c1 * (P2 * c1)) with (P2 * P2 * (c1 * c1)) by ring.
  replace ((P3 * c3 + e) * (P3 * c3 + e))
    with (P3 * P3 * (c3 * c3) + 2 * (P3 * c3 * e) + e * e) by ring.
  assert (HgM : gam * gam * (P1 * P1 + P2 * P2 + P3 * P3) <= gam * gam * M2).
  { apply Rmult_le_compat_l; [nra|exact HM]. }
  lra.
Qed.

Lemma second_order_component N S Q c :
  0 < c -> c <= N -> 0 <= Q -> 2 * N * S = - Q -> - (Q / (2 * c)) <= S <= 0.
Proof.
  intros Hc HN HQ E.
  assert (HS : S <= 0).
  { destruct (Rle_dec S 0) as [H|H]; [exact H|]. exfalso.
    assert (0 < N * S) by (apply Rmult_lt_0_compat; lra). lra. }
  split; [|exact HS].
  assert (H1 : (N - c) * S <= 0).
  { rewrite <- (Rmult_0_r (N - c)). apply Rmult_le_compat_l; lra. }
  apply (Rmult_le_reg_l (2 * c)); [lra|].
  replace (2 * c * - (Q / (2 * c))) with (- Q) by (field; lra). lra.
Qed.

Lemma sq_nonneg x : 0 <= x * x.
Proof. nra. Qed.

Lemma product_le_squares x y : x * y <= (x * x + y * y) / 2.
Proof. pose proof (Rle_0_sqr (x - y)) as H. unfold Rsqr in H. lra. Qed.

Section ChordEstimate.
(** Two points [(X, Y, Z)] and [(R1, R2, R3)] of the WGS84 ellipsoid with
    unit normals [n] and [p]; the second is the first one moved by a small
    vector [a], by [tau] against a direction [m] close to [n] and by [h2]
    against [p]. *)
Variables X Y Z Nx n1 n2 n3 R1 R2 R3 N2 p1 p2 p3 : R.
Variables tau h2 m1 m2 m3 a1 a2 a3 : R.
Hypothesis HNx : 6378137 <= Nx.
Hypothesis HN2 : 6378137 <= N2.
Hypothesis HXn : X = Nx * n1.
Hypothesis HYn : Y = Nx * n2.
Hypothesis HZn :
  Z = Nx * (1 - (2 * (1 / 298.257223563)
                 - 1 / 298.257223563 * (1 / 298.257223563))) * n3.
Hypothesis HR1 : R1 = N2 * p1.
Hypothesis HR2 : R2 = N2 * p2.
Hypothesis HR3 :
  R3 = N2 * (1 - (2 * (1 / 298.257223563)
                  - 1 / 298.257223563 * (1 / 298.257223563))) * p3.
Hypothesis Hell :
  (X * X + Y * Y) / (6378137.0 * 6378137.0)
  + Z * Z / ((1 - 1 / 298.257223563) * 6378137.0
             * ((1 - 1 / 298.257223563) * 6378137.0)) = 1.
Hypothesis Hell2 :
  (R1 * R1 + R2 * R2) / (6378137.0 * 6378137.0)
  + R3 * R3 / ((1 - 1 / 298.257223563) * 6378137.0
               * ((1 - 1 / 298.257223563) * 6378137.0)) = 1.
Hypothesis Htau : - 965 <= tau <= 965.
Hypothesis Hh2 : - 3026 <= h2 <= 3026.
Hypothesis Ha1 : - 0.0951 <= a1 <= 0.0951.
Hypothesis Ha2 : - 0.0951 <= a2 <= 0.0951.
Hypothesis Ha3 : - 0.0951 <= a3 <= 0.0951.
Hypothesis Hth :
  (m1 - n1) * (m1 - n1) + (m2 - n2) * (m2 - n2) + (m3 - n3) * (m3 - n3)
  <= 0.0000000483.
Hypothesis HD1 : R1 = X + (a1 - tau * m1) - h2 * p1.
Hypothesis HD2 : R2 = Y + (a2 - tau * m2) - h2 * p2.
Hypothesis HD3 : R3 = Z + (a3 - tau * m3) - h2 * p3.

Lemma chord_estimate :
  (X - R1) * (X - R1) + (Y - R2) * (Y - R2) + (Z - R3) * (Z - R3) <= 1.
Proof.
  pose proof (ellipsoid_chord 6378137.0 (1 / 298.257223563) Nx n1 n2 n3
                X Y Z R1 R2 R3 ltac:(lra) ltac:(lra) HXn HYn HZn Hell Hell2)
    as C1.
  pose proof (ellipsoid_chord 6378137.0 (1 / 298.257223563) N2 p1 p2 p3
                R1 R2 R3 X Y Z ltac:(lra) ltac:(lra) HR1 HR2 HR3 Hell2 Hell)
    as C2.
  set (D1 := R1 - X) in *. set (D2 := R2 - Y) in *. set (D3 := R3 - Z) in *.
  replace (X - R1) with (- D1) in * by (unfold D1; ring).
  replace (Y - R2) with (- D2) in * by (unfold D2; ring).
  replace (Z - R3) with (- D3) in * by (unfold D3; ring).
  replace (- D1 * - D1) with (D1 * D1) in * by ring.
  replace (- D2 * - D2) with (D2 * D2) in * by ring.
  replace (- D3 * - D3) with (D3 * D3) in * by ring.
  set (S1 := n1 * D1 + n2 * D2 + n3 * D3) in *.
  set (S2 := p1 * D1 + p2 * D2 + p3 * D3).
  replace (p1 * - D1 + p2 * - D2 + p3 * - D3) with (- S2) in C2
    by (unfold S2; ring).
  set (Q := D1 * D1 + D2 * D2
            + D3 * D3 / ((1 - 1 / 298.257223563) * (1 - 1 / 298.257223563)))
    in *.
  assert (Hd1 : 0 <= D1 * D1) by apply sq_nonneg. assert (Hd2 : 0 <= D2 * D2) by apply sq_nonneg.
  assert (Hd3 : 0 <= D3 * D3) by apply sq_nonneg.
  assert (HQ : 0 <= Q <= 1.00675 * (D1 * D1 + D2 * D2 + D3 * D3)).
  { unfold Q. split; lra. }
  assert (C2' : 2 * N2 * S2 = - - Q) by lra.
  pose proof (second_order_component Nx S1 Q 6378137 ltac:(lra) HNx
                ltac:(lra) C1) as B1.
  assert (B2 : 0 <= S2 <= Q / (2 * 6378137)).
  { pose proof (second_order_component N2 (- S2) Q 6378137 ltac:(lra) HN2
                  ltac:(lra) ltac:(lra)). lra. }
  pose proof (mul_abs_enclosure tau S1 965 (Q / (2 * 6378137))
                Htau ltac:(lra)) as T1.
  pose proof (mul_abs_enclosure h2 S2 3026 (Q / (2 * 6378137))
                Hh2 ltac:(lra)) as T2.
  set (b1 := - tau * (m1 - n1)). set (b2 := - tau * (m2 - n2)).
  set (b3 := - tau * (m3 - n3)).
  set (W1 := a1 + b1). set (W2 := a2 + b2). set (W3 := a3 + b3).
  assert (E : D1 * D1 + D2 * D2 + D3 * D3
              = D1 * W1 + D2 * W2 + D3 * W3 - tau * S1 - h2 * S2).
  { assert (E1 : D1 = W1 - tau * n1 - h2 * p1)
      by (unfold D1, W1, b1; rewrite HD1; ring).
    assert (E2 : D2 = W2 - tau * n2 - h2 * p2)
      by (unfold D2, W2, b2; rewrite HD2; ring).
    assert (E3 : D3 = W3 - tau * n3 - h2 * p3)
      by (unfold D3, W3, b3; rewrite HD3; ring).
    unfold S1, S2.
    rewrite E1 at 1. rewrite E2 at 1. rewrite E3 at 1. ring. }
  pose proof (product_le_squares D1 W1) as P1.
  pose proof (product_le_squares D2 W2) as P2.
  pose proof (product_le_squares D3 W3) as P3.
  (* the tangential part *)
  pose proof (sq_le_of_abs tau 965 Htau) as Htt.
  assert (Htt0 : 0 <= tau * tau) by apply sq_nonneg.
  assert (Hg1 : 0 <= (m1 - n1) * (m1 - n1)) by apply sq_nonneg.
  assert (Hg2 : 0 <= (m2 - n2) * (m2 - n2)) by apply sq_nonneg.
  assert (Hg3 : 0 <= (m3 - n3) * (m3 - n3)) by apply sq_nonneg.
  set (th := (m1 - n1) * (m1 - n1) + (m2 - n2) * (m2 - n2)
             + (m3 - n3) * (m3 - n3)) in *.
  assert (Hth0 : 0 <= th) by (unfold th; lra).
  pose proof (mul_enclosure (tau * tau) th 0 (965 * 965) 0 0.0000000483
                (conj Htt0 Htt) (conj Hth0 Hth) ltac:(lra) ltac:(lra)) as Hb.
  assert (Hbb : b1 * b1 + b2 * b2 + b3 * b3 = tau * tau * th)
    by (unfold b1, b2, b3, th; ring).
  assert (Hb1 : 0 <= b1 * b1) by apply sq_nonneg. assert (Hb2 : 0 <= b2 * b2) by apply sq_nonneg.
  assert (Hb3 : 0 <= b3 * b3) by apply sq_nonneg.
  pose proof (sq_bound b1 0.2121 ltac:(lra) ltac:(lra)) as Hb1'.
  pose proof (sq_bound b2 0.2121 ltac:(lra) ltac:(lra)) as Hb2'.
  pose proof (sq_bound b3 0.2121 ltac:(lra) ltac:(lra)) as Hb3'.
  iabs a1 b1 0.0951 0.2121 Hab1. iabs a2 b2 0.0951 0.2121 Hab2.
  iabs a3 b3 0.0951 0.2121 Hab3.
  pose proof (sq_le_of_abs a1 0.0951 ltac:(lra)) as Haa1.
  pose proof (sq_le_of_abs a2 0.0951 ltac:(lra)) as Haa2.
  pose proof (sq_le_of_abs a3 0.0951 ltac:(lra)) as Haa3.
  assert (HW1 : W1 * W1 = a1 * a1 + 2 * (a1 * b1) + b1 * b1)
    by (unfold W1; ring).
  assert (HW2 : W2 * W2 = a2 * a2 + 2 * (a2 * b2) + b2 * b2)
    by (unfold W2; ring).
  assert (HW3 : W3 * W3 = a3 * a3 + 2 * (a3 * b3) + b3 * b3)
    by (unfold W3; ring).
  clearbody Q S1 S2 W1 W2 W3 b1 b2 b3 th D1 D2 D3.
  clear - E P1 P2 P3 T1 T2 HQ Hd1 Hd2 Hd3 HW1 HW2 HW3 Hab1 Hab2 Hab3
          Haa1 Haa2 Haa3 Hb Hbb.
  lra.
Qed.

End ChordEstimate.

(** ** The datum round trip *)

(** A point of the WGS84 ellipsoid away from the poles, moved by the forward
    Helmert form, is close to the Clarke 1880 ellipsoid. *)
Lemma clarke_defect X Y Z u v w :
  (X * X + Y * Y) / (6378137.0 * 6378137.0)
  + Z * Z / ((1 - 1 / 298.257223563) * 6378137.0
             * ((1 - 1 / 298.257223563) * 6378137.0)) = 1 ->
  0.0289 * (6378137 * 6378137) <= X * X + Y * Y ->
  helmertForward (X, Y, Z) = (X + u, Y + v, Z + w) ->
  - 606 <= u <= 606 -> - 658 <= v <= 658 -> - 366 <= w <= 366 ->
  0 < (X + u) * (X + u) + (Y + v) * (Y + v) /\
  Rabs (((X + u) * (X + u) + (Y + v) * (Y + v)) / (6378249.145 * 6378249.145)
        + (Z + w) * (Z + w)
          / ((1 - 1 / 293.465) * 6378249.145
             * ((1 - 1 / 293.465) * 6378249.145)) - 1) <= 0.00029.
Proof.
  intros Hell HP Hfwd Hu Hv Hw.
  destruct (wgs84_point_bounds X Y Z Hell) as (HX & HY & HZ).
  destruct rotation_enclosures as (Hrx & Hry & Hrz).
  unfold helmertForward, helmertLinear in Hfwd.
  set (rx' := arcsec2rad (rx helmertParams)) in *.
  set (ry' := arcsec2rad (ry helmertParams)) in *.
  set (rz' := arcsec2rad (rz helmertParams)) in *.
  clearbody rx' ry' rz'.
  cbn [scale dx dy dz helmertParams] in Hfwd.
  set (s := 16.71006 * 1e-6) in *.
  assert (Hs : s = 0.00001671006) by (unfold s; lra).
  clearbody s.
  injection Hfwd as E1 E2 E3.
  assert (Eu : u = -180.624 + s * X - rz' * Y + ry' * Z) by lra.
  assert (Ev : v = -225.516 + rz' * X + s * Y - rx' * Z) by lra.
  assert (Ew : w = 173.919 - ry' * X + rx' * Y + s * Z) by lra.
  assert (HXu : X * u + Y * v
                = -180.624 * X - 225.516 * Y + s * (X * X + Y * Y)
                  + ry' * (X * Z) - rx' * (Y * Z))
    by (rewrite Eu, Ev; unq; unfold Rdiv; ring).
  assert (HZw : Z * w = 173.919 * Z - ry' * (X * Z) + rx' * (Y * Z)
                        + s * (Z * Z))
    by (rewrite Ew; unq; unfold Rdiv; ring).
  clear E1 E2 E3 Eu Ev Ew.
  replace ((X + u) * (X + u) + (Y + v) * (Y + v))
    with ((X * X + Y * Y) + 2 * (X * u + Y * v) + u * u + v * v) by ring.
  replace ((Z + w) * (Z + w)) with (Z * Z + 2 * (Z * w) + w * w) by ring.
  rewrite HXu, HZw. clear HXu HZw.
  iabs X Z 6378137 6356753 HXZ. iabs Y Z 6378137 6356753 HYZ.
  iabs ry' (X * Z) 0.0000093 (6378137 * 6356753) Hp.
  iabs rx' (Y * Z) 0.000004 (6378137 * 6356753) Hq.
  iabs u u 606 606 Huu. iabs v v 658 658 Hvv. iabs w w 366 366 Hww.
  pose proof (sq_nonneg u) as Hu0. pose proof (sq_nonneg v) as Hv0.
  pose proof (sq_nonneg w) as Hw0. pose proof (sq_nonneg Z) as HZ0.
  subst s.
  set (A := X * X + Y * Y) in *. set (B := Z * Z) in *.
  set (p := ry' * (X * Z)) in *. set (q := rx' * (Y * Z)) in *.
  set (uu := u * u) in *. set (vv := v * v) in *. set (ww := w * w) in *.
  clearbody A B p q uu vv ww.
  clear HXZ HYZ. 
  split; [lra|]. apply Rabs_le_iff. lra.
Qed.

(** A point within a kilometre of a point of the WGS84 ellipsoid. *)
Lemma wgs84_defect X Y Z dX dY dZ :
  (X * X + Y * Y) / (6378137.0 * 6378137.0)
  + Z * Z / ((1 - 1 / 298.257223563) * 6378137.0
             * ((1 - 1 / 298.257223563) * 6378137.0)) = 1 ->
  0.0289 * (6378137 * 6378137) <= X * X + Y * Y ->
  - 965.1 <= dX <= 965.1 -> - 965.1 <= dY <= 965.1 ->
  - 965.1 <= dZ <= 965.1 ->
  0 < (X + dX) * (X + dX) + (Y + dY) * (Y + dY) /\
  Rabs (((X + dX) * (X + dX) + (Y + dY) * (Y + dY))
        / (6378137.0 * 6378137.0)
        + (Z + dZ) * (Z + dZ)
          / ((1 - 1 / 298.257223563) * 6378137.0
             * ((1 - 1 / 298.257223563) * 6378137.0)) - 1) <= 0.00091.
Proof.
  intros Hell HP Hu Hv Hw.
  destruct (wgs84_point_bounds X Y Z Hell) as (HX & HY & HZ).
  iabs X dX 6378137 965.1 HXu. iabs Y dY 6378137 965.1 HYv.
  iabs Z dZ 6356753 965.1 HZw.
  iabs dX dX 965.1 965.1 Huu. iabs dY dY 965.1 965.1 Hvv.
  iabs dZ dZ 965.1 965.1 Hww.
  pose proof (sq_nonneg dX) as Hu0. pose proof (sq_nonneg dY) as Hv0.
  pose proof (sq_nonneg dZ) as Hw0. pose proof (sq_nonneg Z) as HZ0.
  replace ((X + dX) * (X + dX) + (Y + dY) * (Y + dY))
    with ((X * X + Y * Y) + (2 * (X * dX) + 2 * (Y * dY) + dX * dX + dY * dY))
    by ring.
  replace ((Z + dZ) * (Z + dZ)) with (Z * Z + (2 * (Z * dZ) + dZ * dZ))
    by ring.
  set (A := X * X + Y * Y) in *. set (B := Z * Z) in *.
  set (xu := X * dX) in *. set (yv := Y * dY) in *. set (zw := Z * dZ) in *.
  set (uu := dX * dX) in *. set (vv := dY * dY) in *.
  set (ww := dZ * dZ) in *.
  clearbody A B xu yv zw uu vv ww.
  split; [lra|]. apply Rabs_le_iff. lra.
Qed.

(** The sum of the squares of the coordinates of a point near an
    ellipsoid. *)
Lemma near_ellipsoid_norm a b X Y Z d :
  0 < b <= a ->
  Rabs ((X * X + Y * Y) / (a * a) + Z * Z / (b * b) - 1) <= d ->
  X * X + Y * Y + Z * Z <= (1 + d) * (a * a).
Proof.
  intros Hab HD%Rabs_le_iff.
  assert (Haa : 0 < a * a) by (apply Rmult_lt_0_compat; lra).
  assert (Hbb : 0 < b * b) by (apply Rmult_lt_0_compat; lra).
  assert (Hba : b * b <= a * a) by (apply Rmult_le_compat; lra).
  pose proof (sq_nonneg Z) as HZ.
  assert (HZ' : Z * Z / (a * a) <= Z * Z / (b * b)).
  { apply Rmult_le_compat_l; [exact HZ|].
    apply Rinv_le_contravar; assumption. }
  assert (E : X * X + Y * Y + Z * Z
              = ((X * X + Y * Y) / (a * a) + Z * Z / (a * a)) * (a * a))
    by (field; lra).
  rewrite E. apply Rmult_le_compat_r; lra.
Qed.

(** The round trip through PSD93, with any height within 965 m of the one
    that [wgs84ToPSD93] returns passed to [psd93ToWGS84]. *)
Lemma datum_round_trip_core (lat lon : R) :
  -80 <= lat <= 80 ->
  let '(lat1, lon1, h1) := wgs84ToPSD93 lat lon 0 in
  Rabs h1 <= 965 /\
  forall h', Rabs (h1 - h') <= 965 ->
  let '(lat2, lon2, _) := psd93ToWGS84 lat1 lon1 h' in
  let '(X1, Y1, Z1) :=
    geodeticToECEF lat lon 0 6378137.0 (1 / 298.257223563) in
  let '(X2, Y2, Z2) :=
    geodeticToECEF lat2 lon2 0 6378137.0 (1 / 298.257223563) in
  sqrt ((X1 - X2) * (X1 - X2) + (Y1 - Y2) * (Y1 - Y2)
        + (Z1 - Z2) * (Z1 - Z2)) <= 1.
Proof.
  intros Hlat.
  rewrite wgs84ToPSD93_stages.
  (* the original point, on the WGS84 ellipsoid *)
  destruct (geodeticToECEF_normal lat lon 6378137.0 (1 / 298.257223563)
              ltac:(lra) ltac:(lra)) as (Nx & n1 & n2 & n3 & Hn & HNx & HGx).
  pose proof (geodeticToECEF_on_ellipsoid lat lon 6378137.0
                (1 / 298.257223563) ltac:(lra) ltac:(lra)) as HG.
  pose proof (HGx 0) as HG0x.
  destruct (geodeticToECEF lat lon 0 6378137.0 (1 / 298.257223563))
    as [[X Y] Z].
  injection HG0x as HXn HYn HZn.
  rewrite Rplus_0_r in HXn. rewrite Rplus_0_r in HYn.
  rewrite Rplus_0_r in HZn.
  destruct HG as [Hell HP].
  pose proof (cos_lat80 lat Hlat) as Hcos.
  assert (HP' : 0.0289 * (6378137 * 6378137) <= X * X + Y * Y).
  { eapply Rle_trans; [|exact HP].
    assert (0.0289 <= cos (deg2rad lat) * cos (deg2rad lat)) by nra.
    nra. }
  clear HP Hcos HGx.
  destruct (wgs84_point_bounds X Y Z Hell) as (HX & HY & HZ).
  (* the forward Helmert form and the Clarke 1880 coordinates *)
  destruct (helmertForward_displacement X Y Z HX HY HZ)
    as (u & v & w & Hfwd & Hu & Hv & Hw).
  rewrite Hfwd.
  destruct (clarke_defect X Y Z u v w Hell HP' Hfwd Hu Hv Hw) as [Hpc HDc].
  pose proof (bowring_error 6378249.145 (1 / 293.465) (X + u) (Y + v) (Z + w)
                0.00029 ltac:(lra) ltac:(lra) Hpc ltac:(lra) HDc) as HBc.
  cbv zeta in HBc.
  pose proof (near_ellipsoid_norm 6378249.145 ((1 - 1 / 293.465) * 6378249.145)
                (X + u) (Y + v) (Z + w) 0.00029 ltac:(lra) HDc) as HMc.
  destruct (ecefToGeodetic (X + u) (Y + v) (Z + w) 6378249.145 (1 / 293.465))
    as [[lat1 lon1] h1].
  destruct HBc as [(eps & HGc & Heps) (gx & gz & HGc0 & Hgx & Hgz)].
  destruct (geodeticToECEF_normal lat1 lon1 6378249.145 (1 / 293.465)
              ltac:(lra) ltac:(lra)) as (N1 & m1 & m2 & m3 & Hm & HN1 & HGm).
  rewrite (HGm h1) in HGc. rewrite (HGm 0) in HGc0.
  injection HGc as E1 E2 E3. injection HGc0 as F1 F2 F3.
  rewrite Rplus_0_r in F1. rewrite Rplus_0_r in F2. rewrite Rplus_0_r in F3.
  assert (Heps' : -0.0001 <= eps <= 0.0001)
    by (apply Rabs_le_iff in Heps; lra).
  clear Heps.
  destruct (unit_vector_components m1 m2 m3 Hm) as (Hm1 & Hm2 & Hm3).
  assert (Hh1 : - 965 <= h1 <= 965).
  { pose proof (height_bound h1 m1 m2 m3 (X + u) (Y + v) (Z + w) gx gz eps
                  (0.521 * 0.00029)
                  ((1 + 0.00029) * (6378249.145 * 6378249.145))
                  6357119 0.0001 Hm ltac:(lra) ltac:(lra) ltac:(lra)
                  Hgx Hgz HMc ltac:(lra) ltac:(lra)) as Hhh.
    apply sq_bound; lra. }
  split; [apply Rabs_le_iff; lra|].
  intros h' Htau%Rabs_le_iff.
  set (tau := h1 - h') in *.
  rewrite psd93ToWGS84_stages, (HGm h').
  replace ((N1 + h') * m1) with (X + u - tau * m1) by (unfold tau; lra).
  replace ((N1 + h') * m2) with (Y + v - tau * m2) by (unfold tau; lra).
  replace ((N1 * (1 - (2 * (1 / 293.465) - 1 / 293.465 * (1 / 293.465))) + h')
           * m3)
    with (Z + w + eps - tau * m3) by (unfold tau; lra).
  iabs tau m1 965 1 Ht1. iabs tau m2 965 1 Ht2. iabs tau m3 965 1 Ht3.
  destruct (helmert_round_trip_shifted X Y Z eps (tau * m1) (tau * m2)
              (tau * m3) HX HY HZ ltac:(lra) ltac:(lra) ltac:(lra) ltac:(lra)
              u v w Hfwd)
    as (a1 & a2 & a3 & Hinv & Ha1 & Ha2 & Ha3).
  rewrite Hinv.
  (* the WGS84 coordinates of the result *)
  destruct (wgs84_defect X Y Z (a1 - tau * m1) (a2 - tau * m2) (a3 - tau * m3)
              Hell HP' ltac:(lra) ltac:(lra) ltac:(lra)) as [Hpw HDw].
  pose proof (bowring_error 6378137.0 (1 / 298.257223563)
                (X + (a1 - tau * m1)) (Y + (a2 - tau * m2))
                (Z + (a3 - tau * m3))
                0.00091 ltac:(lra) ltac:(lra) Hpw ltac:(lra) HDw) as HBw.
  cbv zeta in HBw.
  pose proof (near_ellipsoid_norm 6378137.0
                ((1 - 1 / 298.257223563) * 6378137.0)
                (X + (a1 - tau * m1)) (Y + (a2 - tau * m2))
                (Z + (a3 - tau * m3)) 0.00091 ltac:(lra) HDw) as HMw.
  destruct (ecefToGeodetic (X + (a1 - tau * m1)) (Y + (a2 - tau * m2))
              (Z + (a3 - tau * m3)) 6378137.0 (1 / 298.257223563))
    as [[lat2 lon2] h2].
  destruct HBw as [(eps2 & HGw & Heps2) (gx2 & gz2 & HGw0 & Hgx2 & Hgz2)].
  destruct (geodeticToECEF_normal lat2 lon2 6378137.0 (1 / 298.257223563)
              ltac:(lra) ltac:(lra)) as (N2 & p1 & p2 & p3 & Hp & HN2 & HGp).
  pose proof (geodeticToECEF_on_ellipsoid lat2 lon2 6378137.0
                (1 / 298.257223563) ltac:(lra) ltac:(lra)) as HG2.
  rewrite (HGp h2) in HGw. pose proof (HGp 0) as HR.
  destruct (geodeticToECEF lat2 lon2 0 6378137.0 (1 / 298.257223563))
    as [[R1 R2] R3].
  destruct HG2 as [Hell2 _].
  injection HGw as G1 G2 G3. injection HGw0 as K1 K2 K3.
  injection HR as HR1 HR2 HR3.
  rewrite Rplus_0_r in HR1. rewrite Rplus_0_r in HR2.
  rewrite Rplus_0_r in HR3.
  assert (Heps2' : -0.0001 <= eps2 <= 0.0001)
    by (apply Rabs_le_iff in Heps2; lra).
  clear Heps2.
  assert (Hh2 : - 3026 <= h2 <= 3026).
  { pose proof (height_bound h2 p1 p2 p3 (X + (a1 - tau * m1))
                  (Y + (a2 - tau * m2)) (Z + (a3 - tau * m3)) gx2 gz2 eps2
                  (0.521 * 0.00091)
                  ((1 + 0.00091) * (6378137.0 * 6378137.0))
                  6357719 0.0001 Hp ltac:(lra) ltac:(lra) ltac:(lra)
                  Hgx2 Hgz2 HMw ltac:(lra) ltac:(lra)) as Hhh.
    apply sq_bound; lra. }
  (* the normals at the original point and at the Clarke 1880 point *)
  assert (Hth : (m1 - n1) * (m1 - n1) + (m2 - n2) * (m2 - n2)
                + (m3 - n3) * (m3 - n3) <= 0.0000000483).
  { pose proof (unit_vectors_gap (N1 + h1) Nx m1 m2 m3 n1 n2 n3 Hm Hn) as Hgap.
    iabs h1 m3 965 1 Hhm3.
    assert (Hd1 : (N1 + h1) * m1 - Nx * n1 = u) by lra.
    assert (Hd2 : (N1 + h1) * m2 - Nx * n2 = v) by lra.
    assert (Hd3 : - 1078.5 <= (N1 + h1) * m3 - Nx * n3 <= 1078.5) by lra.
    rewrite Hd1, Hd2 in Hgap.
    set (d3 := (N1 + h1) * m3 - Nx * n3) in *.
    set (th := (m1 - n1) * (m1 - n1) + (m2 - n2) * (m2 - n2)
               + (m3 - n3) * (m3 - n3)) in *.
    assert (Hth0 : 0 <= th).
    { unfold th. pose proof (sq_nonneg (m1 - n1)).
      pose proof (sq_nonneg (m2 - n2)). pose proof (sq_nonneg (m3 - n3)).
      lra. }
    iabs u u 606 606 Huu. iabs v v 658 658 Hvv.
    iabs d3 d3 1078.5 1078.5 Hdd.
    pose proof (sq_nonneg (N1 + h1 - Nx)) as Hab.
    assert (Hal : 6377284 <= N1 + h1 <= 6500000) by lra.
    assert (Hbe : 6378137 <= Nx <= 6500000) by lra.
    imul Hal Hbe Hprod.
    assert (Hsc : 6377284 * 6378137 * th <= (N1 + h1) * Nx * th).
    { apply Rmult_le_compat_r; lra. }
    clearbody th d3. lra. }
  rewrite <- sqrt_1. apply sqrt_le_1_alt.
  apply (chord_estimate X Y Z Nx n1 n2 n3 R1 R2 R3 N2 p1 p2 p3 tau h2
           m1 m2 m3 a1 a2 (a3 + eps2)); first [assumption | lra].
Qed.

(** The code's [geodeticToECEF] at height 0 on the WGS84 constants computes
    the point of the ellipsoid that the formula of geodesy gives. *)
Lemma wgs84SurfacePoint_code lat lon :
  wgs84SurfacePoint lat lon
  = geodeticToECEF lat lon 0 6378137.0 (1 / 298.257223563).
Proof.
  unfold wgs84SurfacePoint, geodeticToECEF. cbv zeta.
  unfold deg2rad, Math.sin, Math.cos, Math.sqrt, Math.PI.
  replace (1 - 1 / 298.257223563 * (2 - 1 / 298.257223563)
               * sin (lat * PI / 180) ^ 2)
    with (1 - (2 * (1 / 298.257223563)
               - 1 / 298.257223563 * (1 / 298.257223563))
              * sin (lat * PI / 180) * sin (lat * PI / 180))
    by ring.
  replace 6378137.0 with 6378137 by lra.
  apply triple_eq; unfold Rdiv; ring.
Qed.

Lemma groundDistance_code lat1 lon1 lat2 lon2 :
  groundDistance lat1 lon1 lat2 lon2
  = let '(X1, Y1, Z1) :=
      geodeticToECEF lat1 lon1 0 6378137.0 (1 / 298.257223563) in
    let '(X2, Y2, Z2) :=
      geodeticToECEF lat2 lon2 0 6378137.0 (1 / 298.257223563) in
    sqrt ((X1 - X2) * (X1 - X2) + (Y1 - Y2) * (Y1 - Y2)
          + (Z1 - Z2) * (Z1 - Z2)).
Proof.
  unfold groundDistance. rewrite !wgs84SurfacePoint_code.
  destruct (geodeticToECEF lat1 lon1 0 6378137.0 (1 / 298.257223563))
    as [[X1 Y1] Z1].
  destruct (geodeticToECEF lat2 lon2 0 6378137.0 (1 / 298.257223563))
    as [[X2 Y2] Z2].
  f_equal. ring.
Qed.

(** C3: for every latitude in [-80, 80] and every longitude, converting a
    WGS84 position (at height 0, the default) to PSD93 with [wgs84ToPSD93]
    and back with [psd93ToWGS84] returns a latitude and longitude whose
    point on the ground is within 1 meter of the original one.  The two
    points on the ground are those of [wgs84SurfacePoint], the formula of
    geodesy written out independently of the code, and the distance is
    the straight line between them.  This holds both when the height
    returned by [wgs84ToPSD93] is passed on to [psd93ToWGS84] and when it
    is dropped, so that [psd93ToWGS84] uses its default height 0.
    Equality is not claimed. *)
Theorem datum_round_trip_within_1m (lat lon : R) :
  -80 <= lat <= 80 ->
  let '(lat1, lon1, h1) := wgs84ToPSD93 lat lon 0 in
  (let '(lat2, lon2, _) := psd93ToWGS84 lat1 lon1 h1 in
   groundDistance lat lon lat2 lon2 <= 1) /\
  (let '(lat2, lon2, _) := psd93ToWGS84 lat1 lon1 0 in
   groundDistance lat lon lat2 lon2 <= 1).
Proof.
  intros Hlat. pose proof (datum_round_trip_core lat lon Hlat) as H.
  destruct (wgs84ToPSD93 lat lon 0) as [[lat1 lon1] h1].
  destruct H as [Hh H]. split.
  - assert (Hd : Rabs (h1 - h1) <= 965)
      by (replace (h1 - h1) with 0 by ring; rewrite Rabs_R0; lra).
    specialize (H h1 Hd).
    destruct (psd93ToWGS84 lat1 lon1 h1) as [[lat2 lon2] h2].
    rewrite groundDistance_code. exact H.
  - assert (Hd : Rabs (h1 - 0) <= 965)
      by (replace (h1 - 0) with h1 by ring; exact Hh).
    specialize (H 0 Hd).
    destruct (psd93ToWGS84 lat1 lon1 0) as [[lat2 lon2] h2].
    rewrite groundDistance_code. exact H.
Qed.

Lemma datum_round_trip_within_1m_witness :
  -80 <= muscatLat <= 80 /\
  let '(lat1, lon1, h1) := wgs84ToPSD93 muscatLat muscatLon 0 in
  (let '(lat2, lon2, _) := psd93ToWGS84 lat1 lon1 h1 in
   groundDistance muscatLat muscatLon lat2 lon2 <= 1) /\
  (let '(lat2, lon2, _) := psd93ToWGS84 lat1 lon1 0 in
   groundDistance muscatLat muscatLon lat2 lon2 <= 1).
Proof.
  assert (H : -80 <= muscatLat <= 80) by (unfold muscatLat; lra).
  split; [exact H|]. exact (datum_round_trip_within_1m muscatLat muscatLon H).
Defined.

(** * Further properties of the code *)

(** ** More on [geodeticToECEF] *)

Lemma deg2rad_plus x y : deg2rad (x + y) = deg2rad x + deg2rad y.
Proof. unfold deg2rad. field. Qed.

Lemma deg2rad_180 : deg2rad 180 = PI.
Proof. unfold deg2rad, Math.PI. field. Qed.

Lemma deg2rad_360 : deg2rad 360 = 2 * PI.
Proof. unfold deg2rad, Math.PI. field. Qed.

Lemma sin_plus_2PI x : sin (x + 2 * PI) = sin x.
Proof. rewrite sin_plus, sin_2PI, cos_2PI. ring. Qed.

Lemma cos_plus_2PI x : cos (x + 2 * PI) = cos x.
Proof. rewrite cos_plus, sin_2PI, cos_2PI. ring. Qed.

(** X1: at height 0, [geodeticToECEF] returns a point of the ellipsoid with
    semi-axes [a] and [(1 - f) * a]; its coordinates are bounded by them. *)
Theorem geodeticToECEF_surface_point (lat lon a f : R) :
  0 < a -> 0 < f < 1 ->
  let '(X, Y, Z) := geodeticToECEF lat lon 0 a f in
  (X * X + Y * Y) / (a * a) + Z * Z / ((1 - f) * a * ((1 - f) * a)) = 1 /\
  Rabs X <= a /\ Rabs Y <= a /\ Rabs Z <= (1 - f) * a.
Proof.
  intros Ha Hf.
  pose proof (geodeticToECEF_on_ellipsoid lat lon a f Ha Hf) as H.
  destruct (geodeticToECEF lat lon 0 a f) as [[X Y] Z].
  destruct H as [Hell _]. split; [exact Hell|].
  set (b := (1 - f) * a) in *.
  assert (Hb : 0 < b) by (apply Rmult_lt_0_compat; lra).
  assert (Haa : 0 < a * a) by (apply Rmult_lt_0_compat; lra).
  assert (Hbb : 0 < b * b) by (apply Rmult_lt_0_compat; lra).
  pose proof (sq_nonneg X) as HX. pose proof (sq_nonneg Y) as HY.
  pose proof (sq_nonneg Z) as HZ.
  assert (H1 : 0 <= (X * X + Y * Y) / (a * a))
    by (apply Rmult_le_pos; [lra|left; apply Rinv_0_lt_compat; lra]).
  assert (H2 : 0 <= Z * Z / (b * b))
    by (apply Rmult_le_pos; [lra|left; apply Rinv_0_lt_compat; lra]).
  assert (HXY : X * X + Y * Y <= a * a).
  { replace (X * X + Y * Y) with ((X * X + Y * Y) / (a * a) * (a * a))
      by (field; lra).
    apply Rle_trans with (1 * (a * a)); [|lra].
    apply Rmult_le_compat_r; lra. }
  assert (HZZ : Z * Z <= b * b).
  { replace (Z * Z) with (Z * Z / (b * b) * (b * b)) by (field; lra).
    apply Rle_trans with (1 * (b * b)); [|lra].
    apply Rmult_le_compat_r; lra. }
  repeat split; apply Rabs_le_iff; apply sq_bound; lra.
Qed.

Lemma geodeticToECEF_surface_point_witness :
  0 < 6378137 /\
  let '(X, Y, Z) := geodeticToECEF 0 0 0 6378137 (1 / 298.257223563) in
  (X * X + Y * Y) / (6378137 * 6378137)
  + Z * Z / ((1 - 1 / 298.257223563) * 6378137
             * ((1 - 1 / 298.257223563) * 6378137)) = 1 /\
  Rabs X <= 6378137 /\ Rabs Y <= 6378137 /\
  Rabs Z <= (1 - 1 / 298.257223563) * 6378137.
Proof.
  assert (Ha : 0 < 6378137) by lra.
  assert (Hf : 0 < 1 / 298.257223563 < 1) by lra.
  split; [exact Ha|].
  exact (geodeticToECEF_surface_point 0 0 6378137 (1 / 298.257223563) Ha Hf).
Defined.

(** X2: the height moves the point by exactly [|h|] metres: the point at
    height [h] and the point at height 0 below it are [|h|] apart, for every
    latitude and longitude and every flattening between 0 and 1. *)
Theorem geodeticToECEF_height_offset (lat lon h a f : R) :
  0 < f < 1 ->
  let '(X, Y, Z) := geodeticToECEF lat lon h a f in
  let '(Xg, Yg, Zg) := geodeticToECEF lat lon 0 a f in
  sqrt ((X - Xg) * (X - Xg) + (Y - Yg) * (Y - Yg) + (Z - Zg) * (Z - Zg))
  = Rabs h.
Proof.
  intros _. unfold geodeticToECEF. cbv zeta. unfold Math.sin, Math.cos.
  set (phi := deg2rad lat). set (lam := deg2rad lon).
  set (N := a / Math.sqrt (1 - (2 * f - f * f) * sin phi * sin phi)).
  pose proof (sin_cos_sq phi) as Hphi. pose proof (sin_cos_sq lam) as Hlam.
  rewrite <- sqrt_Rsqr_abs. f_equal. unfold Rsqr.
  replace ((N + h) * cos phi * cos lam - (N + 0) * cos phi * cos lam)
    with (h * (cos phi * cos lam)) by ring.
  replace ((N + h) * cos phi * sin lam - (N + 0) * cos phi * sin lam)
    with (h * (cos phi * sin lam)) by ring.
  replace ((N * (1 - (2 * f - f * f)) + h) * sin phi
           - (N * (1 - (2 * f - f * f)) + 0) * sin phi)
    with (h * sin phi) by ring.
  replace (h * (cos phi * cos lam) * (h * (cos phi * cos lam))
           + h * (cos phi * sin lam) * (h * (cos phi * sin lam))
           + h * sin phi * (h * sin phi))
    with (h * h * (cos phi * cos phi * (sin lam * sin lam + cos lam * cos lam)
                   + sin phi * sin phi)) by ring.
  rewrite Hlam. replace (cos phi * cos phi * 1 + sin phi * sin phi)
    with (sin phi * sin phi + cos phi * cos phi) by ring.
  rewrite Hphi. ring.
Qed.

Lemma geodeticToECEF_height_offset_witness :
  0 < 1 / 298.257223563 < 1 /\
  let '(X, Y, Z) := geodeticToECEF 23.5 58.5 100 6378137 (1 / 298.257223563) in
  let '(Xg, Yg, Zg) :=
    geodeticToECEF 23.5 58.5 0 6378137 (1 / 298.257223563) in
  sqrt ((X - Xg) * (X - Xg) + (Y - Yg) * (Y - Yg) + (Z - Zg) * (Z - Zg))
  = Rabs 100.
Proof.
  assert (Hf : 0 < 1 / 298.257223563 < 1) by lra.
  split; [exact Hf|].
  exact (geodeticToECEF_height_offset
           23.5 58.5 100 6378137 (1 / 298.257223563) Hf).
Defined.

(** X3: angles out of range are not rejected, they wrap: a longitude or a
    latitude 360 degrees further gives the same point, and a latitude
    carried over the pole ([180 - lat]) gives the point of latitude [lat] on
    the opposite meridian. *)
Theorem geodeticToECEF_wraps (lat lon h a f : R) :
  0 < f < 1 ->
  geodeticToECEF lat (lon + 360) h a f = geodeticToECEF lat lon h a f /\
  geodeticToECEF (lat + 360) lon h a f = geodeticToECEF lat lon h a f /\
  geodeticToECEF (180 - lat) (lon + 180) h a f
  = geodeticToECEF lat lon h a f.
Proof.
  intros _. unfold geodeticToECEF. cbv zeta. unfold Math.sin, Math.cos.
  replace (deg2rad (180 - lat)) with (PI - deg2rad lat)
    by (rewrite <- deg2rad_180; unfold deg2rad; field).
  rewrite !deg2rad_plus, deg2rad_360, deg2rad_180.
  rewrite !sin_plus_2PI, !cos_plus_2PI, neg_sin, neg_cos.
  rewrite sin_PI_x, Rtrigo_facts.cos_pi_minus.
  split; [reflexivity|]. split; [reflexivity|].
  apply triple_eq; ring.
Qed.

Lemma geodeticToECEF_wraps_witness :
  0 < 1 / 293.465 < 1 /\
  geodeticToECEF 100 (-122) 0 6378249.145 (1 / 293.465)
  = geodeticToECEF 80 58 0 6378249.145 (1 / 293.465).
Proof.
  assert (Hf : 0 < 1 / 293.465 < 1) by lra.
  split; [exact Hf|].
  replace 100 with (180 - 80) by lra.
  replace (-122) with (58 + 180 - 360) by lra.
  rewrite <- (proj1 (geodeticToECEF_wraps
                       (180 - 80) (58 + 180 - 360) 0 6378249.145
                       (1 / 293.465) Hf)).
  replace (58 + 180 - 360 + 360) with (58 + 180) by lra.
  exact (proj2 (proj2 (geodeticToECEF_wraps
                         80 58 0 6378249.145 (1 / 293.465) Hf))).
Defined.



(** ** More on [ecefToGeodetic] *)

Lemma atan2_neg_nonneg y x :
  x < 0 -> 0 <= y -> Math.atan2 y x = atan (y / x) + PI.
Proof.
  intros Hx Hy. unfold Math.atan2, Math.PI.
  destruct (Rlt_dec 0 x); [lra|]. destruct (Rlt_dec x 0); [|lra].
  destruct (Rle_dec 0 y); [reflexivity|lra].
Qed.

Lemma atan2_neg_neg y x :
  x < 0 -> y < 0 -> Math.atan2 y x = atan (y / x) - PI.
Proof.
  intros Hx Hy. unfold Math.atan2, Math.PI.
  destruct (Rlt_dec 0 x); [lra|]. destruct (Rlt_dec x 0); [|lra].
  destruct (Rle_dec 0 y); [lra|reflexivity].
Qed.

Lemma atan2_zero_pos y : 0 < y -> Math.atan2 y 0 = PI / 2.
Proof.
  intros Hy. unfold Math.atan2, Math.PI.
  destruct (Rlt_dec 0 0); [lra|]. destruct (Rlt_dec 0 0); [lra|].
  destruct (Rlt_dec 0 y); [reflexivity|lra].
Qed.

Lemma atan2_zero_neg y : y < 0 -> Math.atan2 y 0 = - PI / 2.
Proof.
  intros Hy. unfold Math.atan2, Math.PI.
  destruct (Rlt_dec 0 0); [lra|]. destruct (Rlt_dec 0 0); [lra|].
  destruct (Rlt_dec 0 y); [lra|]. destruct (Rlt_dec y 0); [reflexivity|lra].
Qed.

(** [Math.atan2] recovers the angle of a point given in polar form. *)
Lemma atan2_polar r lam :
  0 < r -> - PI < lam <= PI ->
  Math.atan2 (r * sin lam) (r * cos lam) = lam.
Proof.
  intros Hr [Hl Hu]. pose proof PI_RGT_0 as Hpi.
  destruct (Rlt_dec lam (- (PI / 2))) as [H1|H1].
  - (* third quadrant *)
    assert (Hc : cos lam < 0).
    { rewrite <- cos_neg. apply cos_lt_0; lra. }
    assert (Hs : sin lam < 0) by (apply sin_lt_0_var; lra).
    rewrite atan2_neg_neg by nra.
    replace (r * sin lam / (r * cos lam)) with (tan (lam + PI)).
    + rewrite atan_tan by lra. ring.
    + unfold tan. rewrite neg_sin, neg_cos. field. lra.
  - destruct (Rlt_dec lam (PI / 2)) as [H2|H2].
    + destruct (Req_dec lam (- (PI / 2))) as [E|E].
      * subst lam. rewrite sin_neg, cos_neg, sin_PI2, cos_PI2.
        rewrite Rmult_0_r. rewrite atan2_zero_neg by lra. field.
      * assert (Hc : 0 < cos lam) by (apply cos_gt_0; lra).
        rewrite atan2_pos by nra.
        replace (r * sin lam / (r * cos lam)) with (tan lam)
          by (unfold tan; field; lra).
        apply atan_tan. lra.
    + destruct (Req_dec lam (PI / 2)) as [E|E].
      * subst lam. rewrite sin_PI2, cos_PI2, Rmult_0_r.
        apply atan2_zero_pos. lra.
      * assert (Hc : cos lam < 0) by (apply cos_lt_0; lra).
        assert (Hs : 0 <= sin lam) by (apply sin_ge_0; lra).
        rewrite atan2_neg_nonneg by nra.
        replace (r * sin lam / (r * cos lam)) with (tan (lam - PI)).
        -- rewrite atan_tan by lra. ring.
        -- unfold tan. rewrite sin_minus, cos_minus, sin_PI, cos_PI.
           field. lra.
Qed.

Lemma rad2deg_opp x : rad2deg (- x) = - rad2deg x.
Proof. unfold rad2deg. field. apply Math_PI_neq0. Qed.

(** X5: on the surface the inverse is exact.  For a latitude strictly
    between -90 and 90 and a longitude in (-180, 180], [ecefToGeodetic]
    applied to the point that [geodeticToECEF] gives at height 0 returns
    the latitude, the longitude and the height 0 unchanged. *)
Theorem ecefToGeodetic_of_surface_point (lat lon a f : R) :
  0 < a -> 0 < f < 1 -> -90 < lat < 90 -> -180 < lon <= 180 ->
  let '(X, Y, Z) := geodeticToECEF lat lon 0 a f in
  ecefToGeodetic X Y Z a f = (lat, lon, 0).
Proof.
  intros Ha Hf Hlat Hlon.
  pose proof PI_RGT_0 as Hpi.
  unfold geodeticToECEF. cbv zeta. unfold Math.sqrt, Math.sin, Math.cos.
  set (phi := deg2rad lat). set (lam := deg2rad lon).
  assert (Hphi : - (PI / 2) < phi < PI / 2).
  { unfold phi, deg2rad, Math.PI. split.
    - apply (Rmult_lt_reg_r (180 / PI)).
      + apply Rdiv_lt_0_compat; lra.
      + replace (lat * PI / 180 * (180 / PI)) with lat by (field; lra).
        replace (- (PI / 2) * (180 / PI)) with (-90) by (field; lra). lra.
    - apply (Rmult_lt_reg_r (180 / PI)).
      + apply Rdiv_lt_0_compat; lra.
      + replace (lat * PI / 180 * (180 / PI)) with lat by (field; lra).
        replace (PI / 2 * (180 / PI)) with 90 by (field; lra). lra. }
  assert (Hlam : - PI < lam <= PI).
  { unfold lam, deg2rad, Math.PI. split.
    - apply (Rmult_lt_reg_r (180 / PI)).
      + apply Rdiv_lt_0_compat; lra.
      + replace (lon * PI / 180 * (180 / PI)) with lon by (field; lra).
        replace (- PI * (180 / PI)) with (-180) by (field; lra). lra.
    - apply (Rmult_le_reg_r (180 / PI)).
      + apply Rdiv_lt_0_compat; lra.
      + replace (lon * PI / 180 * (180 / PI)) with lon by (field; lra).
        replace (PI * (180 / PI)) with 180 by (field; lra). lra. }
  set (e2 := 2 * f - f * f).
  assert (He2 : 0 < e2 < 1) by (unfold e2; split; nra).
  assert (Hk : 1 - e2 = (1 - f) * (1 - f)) by (unfold e2; ring).
  pose proof (sin_cos_sq phi) as Hsc. pose proof (sin_cos_sq lam) as Hscl.
  assert (Hcphi : 0 < cos phi) by (apply cos_gt_0; lra).
  set (W := 1 - e2 * sin phi * sin phi).
  assert (HW : 1 - e2 <= W <= 1).
  { assert (0 <= sin phi * sin phi <= 1) by (split; nra).
    unfold W. split; nra. }
  assert (HsW : 0 < sqrt W) by (apply sqrt_lt_R0; lra).
  assert (HWW : sqrt W * sqrt W = W) by (apply sqrt_sqrt; lra).
  set (N := a / sqrt W).
  assert (HN : 0 < N) by (apply Rdiv_lt_0_compat; lra).
  rewrite !Rplus_0_r.
  set (r := N * cos phi).
  assert (Hr : 0 < r) by (apply Rmult_lt_0_compat; assumption).
  (* the quantities of [ecefToGeodetic] *)
  unfold ecefToGeodetic. cbv zeta.
  unfold Math.sqrt, Math.sin, Math.cos. fold e2.
  assert (Hp : sqrt (r * cos lam * (r * cos lam) + r * sin lam * (r * sin lam))
               = r).
  { apply sqrt_eq_of_sq; [lra|].
    replace (r * cos lam * (r * cos lam) + r * sin lam * (r * sin lam))
      with (r * r * (sin lam * sin lam + cos lam * cos lam)) by ring.
    rewrite Hscl. ring. }
  rewrite Hp.
  rewrite (atan2_polar r lam Hr Hlam).
  (* the reduced latitude *)
  set (c := N / a * cos phi). set (s := N / a * (1 - f) * sin phi).
  assert (HNa : N / a * (N / a) * W = 1).
  { unfold N. rewrite <- HWW at 3. field. lra. }
  assert (Hc : 0 < c).
  { unfold c. apply Rmult_lt_0_compat; [apply Rdiv_lt_0_compat|]; lra. }
  assert (Hs2 : s * s + c * c = 1).
  { unfold s, c.
    replace (N / a * (1 - f) * sin phi * (N / a * (1 - f) * sin phi)
             + N / a * cos phi * (N / a * cos phi))
      with (N / a * (N / a)
            * ((1 - f) * (1 - f) * (sin phi * sin phi) + cos phi * cos phi))
      by ring.
    rewrite <- Hk.
    replace ((1 - e2) * (sin phi * sin phi) + cos phi * cos phi) with W
      by (unfold W; lra).
    exact HNa. }
  assert (HZ : N * (1 - e2) * sin phi = 1 * ((1 - f) * a) * s).
  { unfold s. rewrite Hk. field. lra. }
  assert (Hrc : r = 1 * a * c) by (unfold r, c; field; lra).
  set (theta := Math.atan2 (N * (1 - e2) * sin phi * a) (r * (1 - f) * a)).
  assert (Hth : sin theta = s /\ cos theta = c).
  { unfold theta. rewrite Hrc.
    exact (bowring_theta a f (N * (1 - e2) * sin phi) 1 s c Ha Hf
             ltac:(lra) Hc Hs2 HZ). }
  destruct Hth as [Hts Htc]. rewrite Hts, Htc, !pow_3.
  assert (Huv : (1 - e2) * 1 + e2 * (s * s) = 1 - e2 * (c * c)) by nra.
  set (v := 1 - e2 * (c * c)) in *.
  assert (Hv : 0 < v).
  { unfold v. assert (0 <= c * c <= 1) by (split; nra). nra. }
  assert (Hnum : N * (1 - e2) * sin phi + e2 / (1 - e2) * (1 - f) * a * s ^ 3
                 = a * s / (1 - f) * v).
  { pose proof (bowring_num a f (N * (1 - e2) * sin phi) 1 s Hf HZ) as Hn.
    fold e2 in Hn. rewrite Huv in Hn. exact Hn. }
  assert (Hden : r - e2 * a * c ^ 3 = a * c * v).
  { rewrite Hrc. unfold v. ring. }
  rewrite Hnum, Hden.
  assert (Hdpos : 0 < a * c * v)
    by (apply Rmult_lt_0_compat; [apply Rmult_lt_0_compat|]; assumption).
  rewrite atan2_pos by exact Hdpos.
  replace (a * s / (1 - f) * v / (a * c * v)) with (tan phi).
  2:{ unfold tan, s, c. field. repeat split; lra. }
  rewrite atan_tan by exact Hphi.
  fold W. fold N.
  apply triple_eq.
  - apply rad2deg_deg2rad.
  - apply rad2deg_deg2rad.
  - unfold r. field. lra.
Qed.

Lemma ecefToGeodetic_of_surface_point_witness :
  -90 < 45 < 90 /\
  let '(X, Y, Z) := geodeticToECEF 45 180 0 6378137 (1 / 298.257223563) in
  ecefToGeodetic X Y Z 6378137 (1 / 298.257223563) = (45, 180, 0).
Proof.
  assert (Ha : 0 < 6378137) by lra.
  assert (Hf : 0 < 1 / 298.257223563 < 1) by lra.
  assert (Hlat : -90 < 45 < 90) by lra.
  assert (Hlon : -180 < 180 <= 180) by lra.
  split; [exact Hlat|].
  exact (ecefToGeodetic_of_surface_point 45 180 6378137 (1 / 298.257223563)
           Ha Hf Hlat Hlon).
Defined.

(** X6: the other composition, near the ellipsoid.  For an ellipsoid with a
    flattening of at most 0.0035 and a point at least [0.17 * a] from the
    axis (latitudes up to about 80 degrees) whose ellipsoid equation is off
    by at most [d <= 0.001], [ecefToGeodetic] followed by [geodeticToECEF]
    gives X and Y back exactly and Z to within
    [a * e2 / (1 - f) * 0.00012 * d * d]: Bowring's single pass is exact on
    the ellipsoid and its error grows with the square of the height. *)
Theorem geodeticToECEF_of_ecefToGeodetic (a f X Y Z d : R) :
  0 < a -> 0 < f <= 0.0035 -> 0.0289 * (a * a) <= X * X + Y * Y ->
  d <= 0.001 ->
  Rabs ((X * X + Y * Y) / (a * a) + Z * Z / ((1 - f) * a * ((1 - f) * a)) - 1)
    <= d ->
  let '(lat, lon, h) := ecefToGeodetic X Y Z a f in
  let '(X', Y', Z') := geodeticToECEF lat lon h a f in
  X' = X /\ Y' = Y /\
  Rabs (Z' - Z) <= a * (2 * f - f * f) / (1 - f) * (0.00012 * (d * d)).
Proof.
  intros Ha Hf Hp' Hd HD.
  assert (Hp : 0 < X * X + Y * Y).
  { apply Rlt_le_trans with (0.0289 * (a * a)); [|exact Hp'].
    apply Rmult_lt_0_compat; [lra|]. apply Rmult_lt_0_compat; exact Ha. }
  pose proof (bowring_error a f X Y Z d Ha Hf Hp Hd HD) as H.
  cbv zeta in H.
  destruct (ecefToGeodetic X Y Z a f) as [[lat lon] h].
  destruct H as [(eps & HG & Heps) _].
  rewrite HG. split; [reflexivity|]. split; [reflexivity|].
  replace (Z + eps - Z) with eps by ring. exact Heps.
Qed.

Lemma geodeticToECEF_of_ecefToGeodetic_witness :
  0.0289 * (6378137 * 6378137) <= 4000000 * 4000000 + 3000000 * 3000000 /\
  Rabs ((4000000 * 4000000 + 3000000 * 3000000) / (6378137 * 6378137)
        + 3945000 * 3945000
          / ((1 - 1 / 298.257223563) * 6378137
             * ((1 - 1 / 298.257223563) * 6378137)) - 1) <= 0.00032 /\
  let '(lat, lon, h) :=
    ecefToGeodetic 4000000 3000000 3945000 6378137 (1 / 298.257223563) in
  let '(X', Y', Z') := geodeticToECEF lat lon h 6378137 (1 / 298.257223563) in
  X' = 4000000 /\ Y' = 3000000 /\
  Rabs (Z' - 3945000)
  <= 6378137 * (2 * (1 / 298.257223563)
                - 1 / 298.257223563 * (1 / 298.257223563))
     / (1 - 1 / 298.257223563) * (0.00012 * (0.00032 * 0.00032)).
Proof.
  assert (Ha : 0 < 6378137) by lra.
  assert (Hf : 0 < 1 / 298.257223563 <= 0.0035) by lra.
  assert (Hp : 0.0289 * (6378137 * 6378137)
               <= 4000000 * 4000000 + 3000000 * 3000000) by lra.
  assert (Hd : 0.00032 <= 0.001) by lra.
  assert (HD : Rabs ((4000000 * 4000000 + 3000000 * 3000000)
                     / (6378137 * 6378137)
                     + 3945000 * 3945000
                       / ((1 - 1 / 298.257223563) * 6378137
                          * ((1 - 1 / 298.257223563) * 6378137)) - 1)
               <= 0.00032).
  { apply Rabs_le_iff. split; lra. }
  split; [exact Hp|]. split; [exact HD|].
  exact (geodeticToECEF_of_ecefToGeodetic 6378137 (1 / 298.257223563)
           4000000 3000000 3945000 0.00032 Ha Hf Hp Hd HD).
Defined.

(** The denominator of Bowring's latitude is positive for every point off
    the axis and farther than [e2 * a] from the centre. *)
Lemma bowring_denominator_pos (X Y Z a f : R) :
  0 < a -> 0 < f < 1 -> 0 < X * X + Y * Y ->
  ((2 * f - f * f) * a) * ((2 * f - f * f) * a) < X * X + Y * Y + Z * Z ->
  let p := sqrt (X * X + Y * Y) in
  let theta := Math.atan2 (Z * a) (p * (1 - f) * a) in
  0 < p /\ theta = atan (Z * a / (p * (1 - f) * a)) /\
  0 < p - (2 * f - f * f) * a * cos theta ^ 3.
Proof.
  intros Ha Hf Hp Hfar p theta.
  set (e2 := 2 * f - f * f) in *.
  assert (He2 : 0 < e2 < 1) by (unfold e2; split; nra).
  assert (Hpp : 0 < p) by (apply sqrt_lt_R0; exact Hp).
  assert (Hp2 : p * p = X * X + Y * Y) by (apply sqrt_sqrt; lra).
  assert (Hd : 0 < p * (1 - f) * a)
    by (apply Rmult_lt_0_compat; [apply Rmult_lt_0_compat|]; lra).
  split; [exact Hpp|].
  assert (Eth : theta = atan (Z * a / (p * (1 - f) * a)))
    by (unfold theta; apply atan2_pos; exact Hd).
  split; [exact Eth|].
  destruct (sin_cos_atan_ratio (Z * a) (p * (1 - f) * a) Hd) as (Hr & _ & Hc).
  cbv zeta in Hr, Hc. rewrite <- Eth in Hc.
  set (r := sqrt (Z * a * (Z * a) + p * (1 - f) * a * (p * (1 - f) * a))) in *.
  assert (Hrr : r * r = Z * a * (Z * a) + p * (1 - f) * a * (p * (1 - f) * a)).
  { apply sqrt_sqrt. pose proof (sq_nonneg (Z * a)).
    pose proof (sq_nonneg (p * (1 - f) * a)). lra. }
  (* r exceeds a (1 - f) e2 a *)
  set (m := a * (1 - f) * (e2 * a)).
  assert (Hm : 0 < m).
  { unfold m. repeat apply Rmult_lt_0_compat; lra. }
  assert (Hmr : m * m < r * r).
  { rewrite Hrr.
    assert (H1 : m * m = a * a * ((1 - f) * (1 - f)) * (e2 * a * (e2 * a)))
      by (unfold m; ring).
    assert (H2 : a * a * ((1 - f) * (1 - f)) * (X * X + Y * Y + Z * Z)
                 <= Z * a * (Z * a) + p * (1 - f) * a * (p * (1 - f) * a)).
    { replace (p * (1 - f) * a * (p * (1 - f) * a))
        with (a * a * ((1 - f) * (1 - f)) * (p * p)) by ring.
      rewrite Hp2.
      assert (0 <= a * a * (Z * Z) * (1 - (1 - f) * (1 - f))).
      { apply Rmult_le_pos; [|nra].
        apply Rmult_le_pos; [nra|apply sq_nonneg]. }
      nra. }
    assert (H3 : 0 < a * a * ((1 - f) * (1 - f)))
      by (repeat apply Rmult_lt_0_compat; lra).
    rewrite H1. eapply Rlt_le_trans; [|exact H2].
    apply Rmult_lt_compat_l; assumption. }
  assert (Hmr' : m < r) by nra.
  (* the cosine of the reduced latitude *)
  set (c := cos theta) in *.
  assert (Hc0 : 0 < c) by (rewrite Hc; apply Rdiv_lt_0_compat; lra).
  assert (Hc1 : c <= 1) by (unfold c; apply COS_bound).
  assert (Hc3 : c ^ 3 <= c).
  { simpl. assert (c * c <= 1) by nra. nra. }
  assert (Hcr : c * r = p * (1 - f) * a) by (rewrite Hc; field; lra).
  assert (Hcm : c * m < p * (1 - f) * a).
  { rewrite <- Hcr. apply Rmult_lt_compat_l; assumption. }
  assert (Hea : e2 * a * c < p).
  { apply (Rmult_lt_reg_r (a * (1 - f)));
      [apply Rmult_lt_0_compat; lra|].
    unfold m in Hcm. nra. }
  assert (0 < e2 * a) by (apply Rmult_lt_0_compat; lra).
  assert (e2 * a * c ^ 3 <= e2 * a * c)
    by (apply Rmult_le_compat_l; lra).
  lra.
Qed.

(** X7: for every point off the axis and farther than [e2 * a] (about
    43 km) from the centre of the ellipsoid, the latitude that
    [ecefToGeodetic] returns lies strictly between -90 and 90 degrees. *)
Theorem ecefToGeodetic_latitude_range (X Y Z a f : R) :
  0 < a -> 0 < f < 1 -> 0 < X * X + Y * Y ->
  ((2 * f - f * f) * a) * ((2 * f - f * f) * a) < X * X + Y * Y + Z * Z ->
  let '(lat, _, _) := ecefToGeodetic X Y Z a f in -90 < lat < 90.
Proof.
  intros Ha Hf Hp Hfar.
  destruct (bowring_denominator_pos X Y Z a f Ha Hf Hp Hfar)
    as (Hpp & _ & Hden).
  unfold ecefToGeodetic. cbv zeta.
  unfold Math.sqrt, Math.sin, Math.cos. rewrite !pow_3.
  rewrite atan2_pos with (x := _ - _) by exact Hden.
  match goal with |- _ < rad2deg (atan ?t) < _ =>
    pose proof (atan_bound t) as [Hl Hu]; set (x := atan t) in * end.
  pose proof PI_RGT_0 as Hpi.
  unfold rad2deg, Math.PI. split.
  - apply (Rmult_lt_reg_r (PI / 180)); [apply Rdiv_lt_0_compat; lra|].
    replace (x * 180 / PI * (PI / 180)) with x by (field; lra). lra.
  - apply (Rmult_lt_reg_r (PI / 180)); [apply Rdiv_lt_0_compat; lra|].
    replace (x * 180 / PI * (PI / 180)) with x by (field; lra). lra.
Qed.

Lemma ecefToGeodetic_latitude_range_witness :
  0 < 6378137 /\
  let '(lat, _, _) := ecefToGeodetic 6378137 0 0 6378137 (1 / 298.257223563)
  in -90 < lat < 90.
Proof.
  assert (Ha : 0 < 6378137) by lra.
  assert (Hf : 0 < 1 / 298.257223563 < 1) by lra.
  assert (Hp : 0 < 6378137 * 6378137 + 0 * 0) by lra.
  assert (Hfar : (2 * (1 / 298.257223563)
                  - 1 / 298.257223563 * (1 / 298.257223563)) * 6378137
                 * ((2 * (1 / 298.257223563)
                     - 1 / 298.257223563 * (1 / 298.257223563)) * 6378137)
                 < 6378137 * 6378137 + 0 * 0 + 0 * 0) by lra.
  split; [exact Ha|].
  exact (ecefToGeodetic_latitude_range 6378137 0 0 6378137
           (1 / 298.257223563) Ha Hf Hp Hfar).
Defined.

(** X8: mirror symmetry of [ecefToGeodetic] in the equatorial plane: for a
    point off the axis and farther than [e2 * a] from the centre, changing
    the sign of Z changes the sign of the latitude and leaves the longitude
    and the height as they are. *)
Theorem ecefToGeodetic_mirror (X Y Z a f : R) :
  0 < a -> 0 < f < 1 -> 0 < X * X + Y * Y ->
  ((2 * f - f * f) * a) * ((2 * f - f * f) * a) < X * X + Y * Y + Z * Z ->
  let '(lat, lon, h) := ecefToGeodetic X Y Z a f in
  ecefToGeodetic X Y (- Z) a f = (- lat, lon, h).
Proof.
  intros Ha Hf Hp Hfar.
  destruct (bowring_denominator_pos X Y Z a f Ha Hf Hp Hfar)
    as (Hpp & Eth & Hden).
  assert (Hfar' : (2 * f - f * f) * a * ((2 * f - f * f) * a)
                  < X * X + Y * Y + - Z * - Z).
  { replace (- Z * - Z) with (Z * Z) by ring. exact Hfar. }
  destruct (bowring_denominator_pos X Y (- Z) a f Ha Hf Hp Hfar')
    as (_ & Eth' & Hden').
  cbv zeta in Eth, Eth', Hden, Hden'.
  unfold ecefToGeodetic. cbv zeta.
  unfold Math.sqrt, Math.sin, Math.cos. rewrite !pow_3.
  set (p := sqrt (X * X + Y * Y)) in *.
  set (theta := Math.atan2 (Z * a) (p * (1 - f) * a)) in *.
  set (theta' := Math.atan2 (- Z * a) (p * (1 - f) * a)) in *.
  assert (Ett : theta' = - theta).
  { rewrite Eth, Eth'.
    replace (- Z * a / (p * (1 - f) * a)) with (- (Z * a / (p * (1 - f) * a)))
      by (field; repeat split; lra).
    apply atan_opp. }
  rewrite Ett in *. rewrite cos_neg in *. rewrite sin_neg.
  set (e2 := 2 * f - f * f) in *.
  assert (He2 : 0 < e2 < 1) by (unfold e2; split; nra).
  rewrite atan2_pos with (x := p - e2 * a * cos theta ^ 3) by exact Hden.
  rewrite atan2_pos with (x := p - e2 * a * cos theta ^ 3) by exact Hden.
  set (num := Z + e2 / (1 - e2) * (1 - f) * a * sin theta ^ 3).
  set (den := p - e2 * a * cos theta ^ 3) in *.
  replace ((- Z + e2 / (1 - e2) * (1 - f) * a * (- sin theta) ^ 3) / den)
    with (- (num / den)) by (unfold num; field; repeat split; lra).
  rewrite atan_opp, sin_neg, cos_neg, rad2deg_opp.
  apply triple_eq; [reflexivity|reflexivity|].
  replace (e2 * - sin (atan (num / den)) * - sin (atan (num / den)))
    with (e2 * sin (atan (num / den)) * sin (atan (num / den))) by ring.
  reflexivity.
Qed.

Lemma ecefToGeodetic_mirror_witness :
  0 < 6378137 /\
  let '(lat, lon, h) :=
    ecefToGeodetic 6378137 0 1 6378137 (1 / 298.257223563) in
  ecefToGeodetic 6378137 0 (- 1) 6378137 (1 / 298.257223563)
  = (- lat, lon, h).
Proof.
  assert (Ha : 0 < 6378137) by lra.
  assert (Hf : 0 < 1 / 298.257223563 < 1) by lra.
  assert (Hp : 0 < 6378137 * 6378137 + 0 * 0) by lra.
  assert (Hfar : (2 * (1 / 298.257223563)
                  - 1 / 298.257223563 * (1 / 298.257223563)) * 6378137
                 * ((2 * (1 / 298.257223563)
                     - 1 / 298.257223563 * (1 / 298.257223563)) * 6378137)
                 < 6378137 * 6378137 + 0 * 0 + 1 * 1) by lra.
  split; [exact Ha|].
  exact (ecefToGeodetic_mirror 6378137 0 1 6378137 (1 / 298.257223563)
           Ha Hf Hp Hfar).
Defined.

(** ** What [wgs84ToPSD93] returns for a point of the ground *)

(** X9: for a WGS84 position at height 0 with a latitude in [-80, 80],
    [wgs84ToPSD93] returns a latitude strictly between -90 and 90 and a
    height that is not 0 in general but stays within 965 m of it: the two
    ellipsoids and the datum shift never put the point further away from
    the Clarke 1880 ellipsoid. *)
Theorem wgs84ToPSD93_ground_point (lat lon : R) :
  -80 <= lat <= 80 ->
  let '(lat1, _, h1) := wgs84ToPSD93 lat lon 0 in
  -90 < lat1 < 90 /\ Rabs h1 <= 965.
Proof.
  intros Hlat.
  pose proof (datum_round_trip_core lat lon Hlat) as Hcore.
  rewrite wgs84ToPSD93_stages in *.
  pose proof (geodeticToECEF_on_ellipsoid lat lon 6378137.0
                (1 / 298.257223563) ltac:(lra) ltac:(lra)) as HG.
  destruct (geodeticToECEF lat lon 0 6378137.0 (1 / 298.257223563))
    as [[X Y] Z].
  destruct HG as [Hell HP].
  pose proof (cos_lat80 lat Hlat) as Hcos.
  assert (HP' : 0.0289 * (6378137 * 6378137) <= X * X + Y * Y).
  { eapply Rle_trans; [|exact HP].
    assert (0.0289 <= cos (deg2rad lat) * cos (deg2rad lat)) by nra.
    nra. }
  clear HP Hcos.
  destruct (wgs84_point_bounds X Y Z Hell) as (HX & HY & HZ).
  destruct (helmertForward_displacement X Y Z HX HY HZ)
    as (u & v & w & Hfwd & Hu & Hv & Hw).
  rewrite Hfwd in *.
  destruct (clarke_defect X Y Z u v w Hell HP' Hfwd Hu Hv Hw) as [Hpc HDc].
  assert (Hfar : (2 * (1 / 293.465) - 1 / 293.465 * (1 / 293.465))
                 * 6378249.145
                 * ((2 * (1 / 293.465) - 1 / 293.465 * (1 / 293.465))
                    * 6378249.145)
                 < (X + u) * (X + u) + (Y + v) * (Y + v)
                   + (Z + w) * (Z + w)).
  { apply Rabs_le_iff in HDc.
    pose proof (sq_nonneg (Z + w)) as Hz.
    set (P2 := (X + u) * (X + u) + (Y + v) * (Y + v)) in *.
    set (Zs := (Z + w) * (Z + w)) in *. clearbody P2 Zs.
    lra. }
  destruct (bowring_denominator_pos (X + u) (Y + v) (Z + w) 6378249.145
              (1 / 293.465) ltac:(lra) ltac:(lra) Hpc Hfar)
    as (_ & _ & Hden).
  cbv zeta in Hden.
  assert (Hrange :
            let '(lat1, _, _) :=
              ecefToGeodetic (X + u) (Y + v) (Z + w) 6378249.145
                (1 / 293.465) in -90 < lat1 < 90).
  { unfold ecefToGeodetic. cbv zeta.
    unfold Math.sqrt, Math.sin, Math.cos. rewrite !pow_3.
    rewrite atan2_pos with (x := _ - _) by exact Hden.
    match goal with |- _ < rad2deg (atan ?t) < _ =>
      pose proof (atan_bound t) as [Hl Hu']; set (x := atan t) in * end.
    pose proof PI_RGT_0 as Hpi.
    unfold rad2deg, Math.PI. split.
    - apply (Rmult_lt_reg_r (PI / 180)); [apply Rdiv_lt_0_compat; lra|].
      replace (x * 180 / PI * (PI / 180)) with x by (field; lra). lra.
    - apply (Rmult_lt_reg_r (PI / 180)); [apply Rdiv_lt_0_compat; lra|].
      replace (x * 180 / PI * (PI / 180)) with x by (field; lra). lra. }
  destruct (ecefToGeodetic (X + u) (Y + v) (Z + w) 6378249.145 (1 / 293.465))
    as [[lat1 lon1] h1].
  split; [exact Hrange|]. destruct Hcore as [Hh _]. exact Hh.
Qed.

Lemma wgs84ToPSD93_ground_point_witness :
  -80 <= muscatLat <= 80 /\
  let '(lat1, _, h1) := wgs84ToPSD93 muscatLat muscatLon 0 in
  -90 < lat1 < 90 /\ Rabs h1 <= 965.
Proof.
  assert (H : -80 <= muscatLat <= 80) by (unfold muscatLat; lra).
  split; [exact H|]. exact (wgs84ToPSD93_ground_point muscatLat muscatLon H).
Defined.

(** ** The inverse projection, south of the equator *)

Lemma mul_opp_opp3 a b : a * - b * - b = a * b * b.
Proof. ring. Qed.

(** X10: [utmToPSD93] has no false northing either: a negative northing is
    read as a southern latitude.  Changing the sign of the northing changes
    the sign of the returned latitude and keeps the longitude; a northing
    of 0 gives the latitude 0, so that a point of the equator comes back
    from [psd93ToUTM] and [utmToPSD93] with the latitude 0 exactly. *)
Theorem utmToPSD93_odd_in_northing (e n zone : R) :
  Geo.lat (utmToPSD93 e (- n) zone) = - Geo.lat (utmToPSD93 e n zone) /\
  Geo.lon (utmToPSD93 e (- n) zone) = Geo.lon (utmToPSD93 e n zone) /\
  Geo.lat (utmToPSD93 e 0 zone) = 0 /\
  (forall lon : R,
      let u := psd93ToUTM 0 lon zone in
      Geo.lat (utmToPSD93 (UTM.easting u) (UTM.northing u) zone) = 0).
Proof.
  assert (Hodd : forall m,
             Geo.lat (utmToPSD93 e (- m) zone) = - Geo.lat (utmToPSD93 e m zone)
             /\ Geo.lon (utmToPSD93 e (- m) zone)
                = Geo.lon (utmToPSD93 e m zone)).
  { intros m. unfold utmToPSD93. cbn [Geo.lon Geo.lat].
    match goal with |- context [Math.sin (2 * (m / ?k / ?d))] =>
      set (mu := m / k / d);
      replace (- m / k / d) with (- mu) by (unfold mu, Rdiv; ring) end.
    unfold Math.sin, Math.cos, Math.tan.
    replace (2 * - mu) with (- (2 * mu)) by ring.
    replace (4 * - mu) with (- (4 * mu)) by ring.
    replace (6 * - mu) with (- (6 * mu)) by ring.
    replace (8 * - mu) with (- (8 * mu)) by ring.
    rewrite !sin_neg.
    match goal with |- context [tan (mu + ?a * ?s2 + ?b * ?s4 + ?c * ?s6
                                     + ?d * ?s8)] =>
      set (phi1 := mu + a * s2 + b * s4 + c * s6 + d * s8);
      replace (- mu + a * - s2 + b * - s4 + c * - s6 + d * - s8)
        with (- phi1) by (unfold phi1; ring) end.
    rewrite !sin_neg, !cos_neg, !tan_neg.
    rewrite !mul_opp_opp3, !Rmult_opp_opp.
    match goal with |- context [?a / Math.sqrt ?q] =>
      set (N1 := a / Math.sqrt q) end.
    match goal with |- context [?a / Math.pow ?q ?r] =>
      set (R1 := a / Math.pow q r) end.
    set (T1 := tan phi1 * tan phi1).
    match goal with |- context [?a * cos phi1 * cos phi1] =>
      set (C1 := a * cos phi1 * cos phi1) end.
    match goal with |- context [(e - 500000) / ?d] =>
      set (D := (e - 500000) / d) end.
    split; [|reflexivity].
    rewrite <- rad2deg_opp. f_equal. unfold Rdiv. ring. }
  destruct (Hodd n) as [H1 H2].
  assert (H0 : Geo.lat (utmToPSD93 e 0 zone) = 0).
  { destruct (Hodd 0) as [H _]. rewrite Ropp_0 in H. lra. }
  split; [exact H1|]. split; [exact H2|]. split; [exact H0|].
  intros lon u.
  assert (Hn : UTM.northing u = 0).
  { unfold u. rewrite psd93ToUTM_snyder. cbn [UTM.northing].
    rewrite deg2rad_0, meridionalArc_0, northingSeries_0. ring. }
  rewrite Hn.
  assert (Ez : forall e', Geo.lat (utmToPSD93 e' 0 zone)
                          = Geo.lat (utmToPSD93 e 0 zone)).
  { intros e'. unfold utmToPSD93. cbn [Geo.lat].
    unfold Math.sin, Math.cos, Math.tan.
    replace (0 / 0.9996) with 0 by (unfold Rdiv; ring).
    match goal with |- context [0 / ?d] =>
      replace (0 / d) with 0 by (unfold Rdiv; ring) end.
    rewrite !Rmult_0_r, !sin_0, !Rmult_0_r, !Rplus_0_r, tan_0.
    unfold rad2deg, Rdiv. ring. }
  rewrite Ez. exact H0.
Qed.

(** ** The northing along the central meridian *)

Lemma sin_abs_le x : Rabs (sin x) <= Rabs x.
Proof.
  destruct (Rtotal_order x 0) as [H|[->|H]].
  - pose proof (sin_lt_x (- x) ltac:(lra)) as H1. rewrite sin_neg in H1.
    destruct (Rle_or_lt 1 (- x)) as [H2|H2].
    + pose proof (SIN_bound x). rewrite (Rabs_left x H).
      apply Rabs_le_iff. lra.
    + assert (H3 : sin x < 0).
      { apply sin_lt_0_var; pose proof PI_RGT_0; pose proof PI2_1; lra. }
      rewrite (Rabs_left x H), (Rabs_left _ H3). lra.
  - rewrite sin_0. lra.
  - pose proof (sin_lt_x x H) as H1.
    destruct (Rle_or_lt 1 x) as [H2|H2].
    + pose proof (SIN_bound x). rewrite (Rabs_right x) by lra.
      apply Rabs_le_iff. lra.
    + assert (H3 : 0 < sin x).
      { apply sin_gt_0; pose proof PI_RGT_0; pose proof PI2_1; lra. }
      rewrite (Rabs_right x), (Rabs_right (sin x)) by lra. lra.
Qed.

Lemma sin_diff_bound x y : x <= y -> - (y - x) <= sin y - sin x <= y - x.
Proof.
  intros H. rewrite form4.
  pose proof (COS_bound ((y + x) / 2)) as Hc.
  pose proof (sin_abs_le ((y - x) / 2)) as Hs.
  rewrite (Rabs_right ((y - x) / 2)) in Hs by lra.
  apply Rabs_le_iff in Hs.
  set (c := cos ((y + x) / 2)) in *. set (s := sin ((y - x) / 2)) in *.
  set (t := (y - x) / 2) in *.
  assert (Ht : y - x = 2 * t) by (unfold t; field).
  rewrite Ht. clearbody c s t.
  assert (- t <= c * s <= t).
  { apply Rabs_le_iff. rewrite Rabs_mult.
    apply Rle_trans with (1 * Rabs s).
    - apply Rmult_le_compat_r; [apply Rabs_pos|]. apply Rabs_le_iff. lra.
    - rewrite Rmult_1_l. apply Rabs_le_iff. lra. }
  lra.
Qed.

Lemma northingSeries_dlam0 (E : Ellipsoid) phi : northingSeries E phi 0 = 0.
Proof. unfold northingSeries, Rdiv. ring. Qed.

Lemma meridionalArc_growth phi1 phi2 :
  phi1 <= phi2 ->
  6334000 * (phi2 - phi1)
  <= meridionalArc Clarke1880 phi2 - meridionalArc Clarke1880 phi1
  <= 6400100 * (phi2 - phi1).
Proof.
  intros H. unfold meridionalArc, Clarke1880. cbn [semiMajor flattening].
  pose proof (sin_diff_bound (2 * phi1) (2 * phi2) ltac:(lra)) as H2.
  pose proof (sin_diff_bound (4 * phi1) (4 * phi2) ltac:(lra)) as H4.
  pose proof (sin_diff_bound (6 * phi1) (6 * phi2) ltac:(lra)) as H6.
  set (s21 := sin (2 * phi1)) in *. set (s22 := sin (2 * phi2)) in *.
  set (s41 := sin (4 * phi1)) in *. set (s42 := sin (4 * phi2)) in *.
  set (s61 := sin (6 * phi1)) in *. set (s62 := sin (6 * phi2)) in *.
  clearbody s21 s22 s41 s42 s61 s62.
  set (e2 := 2 * (1 / 293.465) - 1 / 293.465 * (1 / 293.465)).
  assert (He2 : 0.0068035 <= e2 <= 0.0068036) by (unfold e2; lra).
  clearbody e2.
  assert (He22 : 0.0000462 <= e2 ^ 2 <= 0.0000463) by nra.
  assert (He23 : 0.0000003 <= e2 ^ 3 <= 0.0000004) by nra.
  set (q2 := e2 ^ 2) in *. set (q3 := e2 ^ 3) in *. clearbody q2 q3.
  set (c0 := 1 - e2 / 4 - 3 * q2 / 64 - 5 * q3 / 256).
  set (c2 := 3 * e2 / 8 + 3 * q2 / 32 + 45 * q3 / 1024).
  set (c4 := 15 * q2 / 256 + 45 * q3 / 1024).
  set (c6 := 35 * q3 / 3072).
  assert (H0 : 0.99829 <= c0 <= 0.9983) by (unfold c0; lra).
  assert (Hc2 : 0 <= c2 <= 0.002556) by (unfold c2; lra).
  assert (Hc4 : 0 <= c4 <= 0.0000028) by (unfold c4; lra).
  assert (Hc6 : 0 <= c6 <= 0.00000001) by (unfold c6; lra).
  clearbody c0 c2 c4 c6. set (d := phi2 - phi1) in *.
  assert (Hd : 0 <= d) by (unfold d; lra).
  replace (6378249.145 * (c0 * phi2 - c2 * s22 + c4 * s42 - c6 * s62)
           - 6378249.145 * (c0 * phi1 - c2 * s21 + c4 * s41 - c6 * s61))
    with (6378249.145 * (c0 * d - c2 * (s22 - s21) + c4 * (s42 - s41)
                         - c6 * (s62 - s61))) by (unfold d; ring).
  replace (2 * phi2 - 2 * phi1) with (2 * d) in H2 by (unfold d; ring).
  replace (4 * phi2 - 4 * phi1) with (4 * d) in H4 by (unfold d; ring).
  replace (6 * phi2 - 6 * phi1) with (6 * d) in H6 by (unfold d; ring).
  clearbody d.
  assert (B0 : 0.99829 * d <= c0 * d <= 0.9983 * d) by nra.
  assert (B2 : - (0.005112 * d) <= c2 * (s22 - s21) <= 0.005112 * d).
  { apply Rabs_le_iff. rewrite Rabs_mult.
    apply Rle_trans with (0.002556 * (2 * d)); [|lra].
    apply Rmult_le_compat; try apply Rabs_pos; apply Rabs_le_iff; lra. }
  assert (B4 : - (0.0000112 * d) <= c4 * (s42 - s41) <= 0.0000112 * d).
  { apply Rabs_le_iff. rewrite Rabs_mult.
    apply Rle_trans with (0.0000028 * (4 * d)); [|lra].
    apply Rmult_le_compat; try apply Rabs_pos; apply Rabs_le_iff; lra. }
  assert (B6 : - (0.00000006 * d) <= c6 * (s62 - s61) <= 0.00000006 * d).
  { apply Rabs_le_iff. rewrite Rabs_mult.
    apply Rle_trans with (0.00000001 * (6 * d)); [|lra].
    apply Rmult_le_compat; try apply Rabs_pos; apply Rabs_le_iff; lra. }
  set (t0 := c0 * d) in *. set (t2 := c2 * (s22 - s21)) in *.
  set (t4 := c4 * (s42 - s41)) in *. set (t6 := c6 * (s62 - s61)) in *.
  clearbody t0 t2 t4 t6. lra.
Qed.

(** X11: along the central meridian of a zone the northing grows with the
    latitude, by between 110.5 km and 111.7 km for every degree; so two
    different latitudes never get the same northing there. *)
Theorem northing_grows_with_latitude (lat1 lat2 zone : R) :
  lat1 <= lat2 ->
  let cm := 6 * zone - 183 in
  110500 * (lat2 - lat1)
  <= UTM.northing (psd93ToUTM lat2 cm zone)
     - UTM.northing (psd93ToUTM lat1 cm zone)
  <= 111700 * (lat2 - lat1).
Proof.
  intros H cm. subst cm. rewrite !psd93ToUTM_snyder. cbn [UTM.northing].
  replace (6 * zone - 183 - (6 * zone - 183)) with 0 by ring.
  rewrite deg2rad_0, !northingSeries_dlam0, !Rplus_0_r.
  assert (Hphi : deg2rad lat1 <= deg2rad lat2).
  { pose proof PI_RGT_0. unfold deg2rad, Math.PI. nra. }
  pose proof (meridionalArc_growth _ _ Hphi) as HM.
  rewrite deg2rad_minus in HM.
  set (M1 := meridionalArc Clarke1880 (deg2rad lat1)) in *.
  set (M2 := meridionalArc Clarke1880 (deg2rad lat2)) in *.
  clearbody M1 M2.
  pose proof PI_bounds as HPI. unfold deg2rad in HM.
  set (d := lat2 - lat1) in *. assert (Hd : 0 <= d) by (unfold d; lra).
  clearbody d. set (p := Math.PI) in *. clearbody p.
  assert (Hpd : 3.1415926 * d <= d * p <= 3.1415927 * d) by nra.
  set (dp := d * p) in *. clearbody dp. lra.
Qed.

Lemma northing_grows_with_latitude_witness :
  23 <= 24 /\
  110500 * (24 - 23)
  <= UTM.northing (psd93ToUTM 24 (6 * 40 - 183) 40)
     - UTM.northing (psd93ToUTM 23 (6 * 40 - 183) 40)
  <= 111700 * (24 - 23).
Proof.
  assert (H : 23 <= 24) by lra.
  split; [exact H|].
  exact (northing_grows_with_latitude 23 24 40 H).
Defined.

(** ** script.js: the haversine distance *)

Lemma sin_half_sq x : sin (x / 2) * sin (x / 2) = (1 - cos x) / 2.
Proof.
  pose proof (cos_2a_sin (x / 2)) as H.
  replace (2 * (x / 2)) with x in H by field. lra.
Qed.

(** The scalar product of two unit vectors. *)
Lemma unit_dot_bound m1 m2 m3 n1 n2 n3 :
  m1 * m1 + m2 * m2 + m3 * m3 = 1 -> n1 * n1 + n2 * n2 + n3 * n3 = 1 ->
  -1 <= m1 * n1 + m2 * n2 + m3 * n3 <= 1.
Proof.
  intros Hm Hn.
  pose proof (sq_nonneg (m1 - n1)). pose proof (sq_nonneg (m2 - n2)).
  pose proof (sq_nonneg (m3 - n3)). pose proof (sq_nonneg (m1 + n1)).
  pose proof (sq_nonneg (m2 + n2)). pose proof (sq_nonneg (m3 + n3)).
  split; lra.
Qed.

(** The cosine of the angle between the directions of two positions. *)
Lemma central_angle_bound phi1 phi2 dlam :
  -1 <= sin phi1 * sin phi2 + cos phi1 * cos phi2 * cos dlam <= 1.
Proof.
  pose proof (sin_cos_sq phi1) as H1. pose proof (sin_cos_sq phi2) as H2.
  pose proof (sin_cos_sq dlam) as H3.
  pose proof (unit_dot_bound (cos phi1) 0 (sin phi1)
                (cos phi2 * cos dlam) (cos phi2 * sin dlam) (sin phi2)
                ltac:(lra)) as H.
  assert (Hn : cos phi2 * cos dlam * (cos phi2 * cos dlam)
               + cos phi2 * sin dlam * (cos phi2 * sin dlam)
               + sin phi2 * sin phi2 = 1).
  { replace (cos phi2 * cos dlam * (cos phi2 * cos dlam)
             + cos phi2 * sin dlam * (cos phi2 * sin dlam)
             + sin phi2 * sin phi2)
      with (cos phi2 * cos phi2 * (sin dlam * sin dlam + cos dlam * cos dlam)
            + sin phi2 * sin phi2) by ring.
    rewrite H3. lra. }
  specialize (H Hn). lra.
Qed.

(** The angle that [calculateDistance] multiplies by the radius. *)
Lemma haversine_angle a :
  0 <= a <= 1 ->
  2 * Math.atan2 (Math.sqrt a) (Math.sqrt (1 - a)) = acos (1 - 2 * a).
Proof.
  intros Ha. unfold Math.sqrt.
  pose proof PI_RGT_0 as Hpi.
  assert (Hsa : 0 <= sqrt a) by apply sqrt_pos.
  assert (Hsb : 0 <= sqrt (1 - a)) by apply sqrt_pos.
  assert (Haa : sqrt a * sqrt a = a) by (apply sqrt_sqrt; lra).
  assert (Hbb : sqrt (1 - a) * sqrt (1 - a) = 1 - a)
    by (apply sqrt_sqrt; lra).
  assert (Hr : sqrt (sqrt (1 - a) * sqrt (1 - a) + sqrt a * sqrt a) = 1).
  { rewrite Haa, Hbb. replace (1 - a + a) with 1 by ring. apply sqrt_1. }
  destruct (atan2_cos_sin (sqrt a) (sqrt (1 - a))) as [_ Hs].
  { rewrite Hr. lra. }
  rewrite Hr in Hs.
  set (g := Math.atan2 (sqrt a) (sqrt (1 - a))) in *.
  assert (Hg : 0 <= g <= PI / 2).
  { unfold g, Math.atan2, Math.PI.
    destruct (Rlt_dec 0 (sqrt (1 - a))) as [Hx|Hx].
    - pose proof (atan_bound (sqrt a / sqrt (1 - a))) as [_ Hu].
      split; [|lra].
      destruct (Req_dec (sqrt a) 0) as [E|E].
      + rewrite E. unfold Rdiv. rewrite Rmult_0_l, atan_0. lra.
      + left. rewrite <- atan_0. apply atan_increasing.
        apply Rdiv_lt_0_compat; lra.
    - destruct (Rlt_dec (sqrt (1 - a)) 0); [lra|].
      assert (E0 : sqrt (1 - a) = 0) by lra.
      assert (Ea : a = 1) by (rewrite E0 in Hbb; lra).
      destruct (Rlt_dec 0 (sqrt a)) as [Hy|Hy]; [lra|].
      exfalso. apply Hy. rewrite Ea, sqrt_1. lra. }
  rewrite <- (acos_cos (2 * g)) by lra.
  f_equal. rewrite cos_2a_sin, Hs.
  replace (2 * (sqrt a / 1) * (sqrt a / 1)) with (2 * (sqrt a * sqrt a))
    by field.
  rewrite Haa. ring.
Qed.

(** [calculateDistance] is the radius times the angle between the two
    directions, by the spherical law of cosines. *)
Lemma calculateDistance_acos (p q : LatLng.t) :
  calculateDistance p q
  = 6371000
    * acos (sin (deg2rad (LatLng.lat p)) * sin (deg2rad (LatLng.lat q))
            + cos (deg2rad (LatLng.lat p)) * cos (deg2rad (LatLng.lat q))
              * cos (deg2rad (LatLng.lng q) - deg2rad (LatLng.lng p))).
Proof.
  unfold calculateDistance. cbv zeta. fold (deg2rad (LatLng.lat p)).
  fold (deg2rad (LatLng.lat q)).
  fold (deg2rad (LatLng.lat q - LatLng.lat p)).
  fold (deg2rad (LatLng.lng q - LatLng.lng p)).
  rewrite <- !deg2rad_minus. unfold Math.sin, Math.cos.
  set (phi1 := deg2rad (LatLng.lat p)). set (phi2 := deg2rad (LatLng.lat q)).
  set (dlam := deg2rad (LatLng.lng q) - deg2rad (LatLng.lng p)).
  set (D := sin phi1 * sin phi2 + cos phi1 * cos phi2 * cos dlam).
  pose proof (central_angle_bound phi1 phi2 dlam) as HD. fold D in HD.
  assert (Ea : sin ((phi2 - phi1) / 2) * sin ((phi2 - phi1) / 2)
               + cos phi1 * cos phi2 * sin (dlam / 2) * sin (dlam / 2)
               = (1 - D) / 2).
  { rewrite sin_half_sq.
    replace (cos phi1 * cos phi2 * sin (dlam / 2) * sin (dlam / 2))
      with (cos phi1 * cos phi2 * (sin (dlam / 2) * sin (dlam / 2))) by ring.
    rewrite sin_half_sq, cos_minus. unfold D. field. }
  rewrite Ea, haversine_angle by lra.
  f_equal. f_equal. field.
Qed.

(** X12: for two points with latitudes in [-80, 80] and longitudes at most
    90 degrees apart, [calculateDistance] is the great-circle distance on
    a sphere of radius 6,371,000 m: the radius times the angle whose
    cosine the spherical law of cosines gives.  That cosine is at least
    -0.9711, so the two points are never close to antipodal, and the
    distance is never negative and never more than half the
    circumference, [6371000 * PI]. *)
Theorem calculateDistance_great_circle (p q : LatLng.t) :
  -80 <= LatLng.lat p <= 80 -> -80 <= LatLng.lat q <= 80 ->
  Rabs (LatLng.lng q - LatLng.lng p) <= 90 ->
  let phi1 := deg2rad (LatLng.lat p) in
  let phi2 := deg2rad (LatLng.lat q) in
  let dlam := deg2rad (LatLng.lng q - LatLng.lng p) in
  cos (calculateDistance p q / 6371000)
  = sin phi1 * sin phi2 + cos phi1 * cos phi2 * cos dlam /\
  -0.9711 <= cos (calculateDistance p q / 6371000) /\
  0 <= calculateDistance p q <= 6371000 * PI.
Proof.
  intros Hp Hq Hlng phi1 phi2 dlam.
  assert (Hfar : -0.9711 <= sin phi1 * sin phi2
                             + cos phi1 * cos phi2 * cos dlam).
  { pose proof (cos_lat80 _ Hp) as Hc1. pose proof (cos_lat80 _ Hq) as Hc2.
    fold phi1 in Hc1. fold phi2 in Hc2.
    pose proof (sin_cos_sq phi1) as H1. pose proof (sin_cos_sq phi2) as H2.
    assert (Hcd : 0 <= cos dlam).
    { apply Rabs_le_iff in Hlng. pose proof PI_RGT_0.
      apply cos_ge_0; unfold dlam, deg2rad, Math.PI; nra. }
    pose proof (product_le_squares (- sin phi1) (sin phi2)) as Hs.
    assert (Hcc1 : 0.0289 <= cos phi1 * cos phi1) by nra.
    assert (Hcc2 : 0.0289 <= cos phi2 * cos phi2) by nra.
    assert (Hpos : 0 <= cos phi1 * cos phi2 * cos dlam).
    { apply Rmult_le_pos; [apply Rmult_le_pos; lra|exact Hcd]. }
    set (s1 := sin phi1) in *. set (s2 := sin phi2) in *.
    set (c1 := cos phi1) in *. set (c2 := cos phi2) in *.
    set (t := c1 * c2 * cos dlam) in *.
    replace (- s1 * - s1) with (s1 * s1) in Hs by ring.
    replace (- s1 * s2) with (- (s1 * s2)) in Hs by ring.
    set (s11 := s1 * s1) in *. set (s22 := s2 * s2) in *.
    set (c11 := c1 * c1) in *. set (c22 := c2 * c2) in *.
    set (s12 := s1 * s2) in *.
    clearbody s11 s22 c11 c22 s12 t. lra. }
  rewrite calculateDistance_acos.
  unfold dlam in *. rewrite <- deg2rad_minus in *. fold phi1 phi2.
  set (D := sin phi1 * sin phi2
            + cos phi1 * cos phi2
              * cos (deg2rad (LatLng.lng q) - deg2rad (LatLng.lng p))).
  pose proof (central_angle_bound phi1 phi2
                (deg2rad (LatLng.lng q) - deg2rad (LatLng.lng p))) as HD.
  fold D in HD. pose proof (acos_bound D) as Hb.
  assert (Hcos : cos (6371000 * acos D / 6371000) = D).
  { replace (6371000 * acos D / 6371000) with (acos D) by field.
    apply cos_acos. exact HD. }
  split; [exact Hcos|]. split.
  - rewrite Hcos. exact Hfar.
  - split; nra.
Qed.

Lemma calculateDistance_great_circle_witness :
  cos (calculateDistance {| LatLng.lat := 23.588; LatLng.lng := 58.3829 |}
                         {| LatLng.lat := 17.0151; LatLng.lng := 54.0924 |}
       / 6371000)
  = sin (deg2rad 23.588) * sin (deg2rad 17.0151)
    + cos (deg2rad 23.588) * cos (deg2rad 17.0151)
      * cos (deg2rad (54.0924 - 58.3829)) /\
  -0.9711
  <= cos (calculateDistance {| LatLng.lat := 23.588; LatLng.lng := 58.3829 |}
                            {| LatLng.lat := 17.0151; LatLng.lng := 54.0924 |}
          / 6371000) /\
  0 <= calculateDistance {| LatLng.lat := 23.588; LatLng.lng := 58.3829 |}
                         {| LatLng.lat := 17.0151; LatLng.lng := 54.0924 |}
    <= 6371000 * PI.
Proof.
  apply (calculateDistance_great_circle
           {| LatLng.lat := 23.588; LatLng.lng := 58.3829 |}
           {| LatLng.lat := 17.0151; LatLng.lng := 54.0924 |});
    cbn [LatLng.lat LatLng.lng].
  - lra.
  - lra.
  - apply Rabs_le_iff. lra.
Defined.

(** X13: the distance from a point to itself is 0, the distance does not
    depend on the order of the two points, and moving both points by the
    same amount in longitude, or one of them by 360 degrees, does not
    change it. *)
Theorem calculateDistance_symmetric (p q : LatLng.t) (d : R) :
  calculateDistance p p = 0 /\
  calculateDistance p q = calculateDistance q p /\
  calculateDistance
    {| LatLng.lat := LatLng.lat p; LatLng.lng := LatLng.lng p + d |}
    {| LatLng.lat := LatLng.lat q; LatLng.lng := LatLng.lng q + d |}
  = calculateDistance p q /\
  calculateDistance
    p {| LatLng.lat := LatLng.lat q; LatLng.lng := LatLng.lng q + 360 |}
  = calculateDistance p q.
Proof.
  rewrite !calculateDistance_acos. cbn [LatLng.lat LatLng.lng].
  split; [|split; [|split]].
  - replace (deg2rad (LatLng.lng p) - deg2rad (LatLng.lng p)) with 0 by ring.
    rewrite cos_0, Rmult_1_r.
    pose proof (sin_cos_sq (deg2rad (LatLng.lat p))) as H.
    rewrite H, acos_1. ring.
  - f_equal. f_equal.
    replace (deg2rad (LatLng.lng p) - deg2rad (LatLng.lng q))
      with (- (deg2rad (LatLng.lng q) - deg2rad (LatLng.lng p))) by ring.
    rewrite cos_neg. ring.
  - rewrite !deg2rad_plus.
    replace (deg2rad (LatLng.lng q) + deg2rad d
             - (deg2rad (LatLng.lng p) + deg2rad d))
      with (deg2rad (LatLng.lng q) - deg2rad (LatLng.lng p)) by ring.
    reflexivity.
  - rewrite deg2rad_plus, deg2rad_360.
    replace (deg2rad (LatLng.lng q) + 2 * PI - deg2rad (LatLng.lng p))
      with (deg2rad (LatLng.lng q) - deg2rad (LatLng.lng p) + 2 * PI) by ring.
    rewrite cos_plus_2PI. reflexivity.
Qed.

Lemma deg2rad_Rabs x : deg2rad (Rabs x) = Rabs (deg2rad x).
Proof.
  pose proof PI_RGT_0. unfold deg2rad, Math.PI, Rabs.
  destruct (Rcase_abs x); destruct (Rcase_abs (x * PI / 180)); try lra; nra.
Qed.

(** X14: along a meridian and along the equator the distance is the
    radius times the difference of the angles in radians, as long as this
    difference is at most 180 degrees; one degree is 6371000 * PI / 180
    metres, about 111.2 km. *)
Theorem calculateDistance_meridian_equator (lat1 lat2 lng1 lng2 : R) :
  Rabs (lat2 - lat1) <= 180 -> Rabs (lng2 - lng1) <= 180 ->
  calculateDistance {| LatLng.lat := lat1; LatLng.lng := lng1 |}
                    {| LatLng.lat := lat2; LatLng.lng := lng1 |}
  = 6371000 * deg2rad (Rabs (lat2 - lat1)) /\
  calculateDistance {| LatLng.lat := 0; LatLng.lng := lng1 |}
                    {| LatLng.lat := 0; LatLng.lng := lng2 |}
  = 6371000 * deg2rad (Rabs (lng2 - lng1)).
Proof.
  intros Hlat Hlng. pose proof PI_RGT_0 as Hpi.
  assert (Hrange : forall x, Rabs x <= 180 -> 0 <= Rabs (deg2rad x) <= PI).
  { intros x Hx. rewrite <- deg2rad_Rabs. pose proof (Rabs_pos x).
    unfold deg2rad, Math.PI. split; nra. }
  assert (Hcos : forall x, cos (Rabs x) = cos x).
  { intros x. unfold Rabs. destruct (Rcase_abs x); [apply cos_neg|reflexivity]. }
  split; rewrite calculateDistance_acos; cbn [LatLng.lat LatLng.lng];
    f_equal; rewrite deg2rad_Rabs.
  - replace (deg2rad lng1 - deg2rad lng1) with 0 by ring.
    rewrite cos_0, Rmult_1_r.
    replace (sin (deg2rad lat1) * sin (deg2rad lat2)
             + cos (deg2rad lat1) * cos (deg2rad lat2))
      with (cos (deg2rad lat2 - deg2rad lat1)) by (rewrite cos_minus; ring).
    rewrite deg2rad_minus, <- Hcos. apply acos_cos. apply Hrange. exact Hlat.
  - rewrite deg2rad_0, sin_0, cos_0.
    replace (0 * 0 + 1 * 1 * cos (deg2rad lng2 - deg2rad lng1))
      with (cos (deg2rad lng2 - deg2rad lng1)) by ring.
    rewrite deg2rad_minus, <- Hcos. apply acos_cos. apply Hrange. exact Hlng.
Qed.

Lemma calculateDistance_meridian_equator_witness :
  Rabs (24 - 23) <= 180 /\ Rabs (58 - 57) <= 180 /\
  calculateDistance {| LatLng.lat := 23; LatLng.lng := 57 |}
                    {| LatLng.lat := 24; LatLng.lng := 57 |}
  = 6371000 * deg2rad (Rabs (24 - 23)) /\
  calculateDistance {| LatLng.lat := 0; LatLng.lng := 57 |}
                    {| LatLng.lat := 0; LatLng.lng := 58 |}
  = 6371000 * deg2rad (Rabs (58 - 57)).
Proof.
  assert (H1 : Rabs (24 - 23) <= 180) by (apply Rabs_le_iff; lra).
  assert (H2 : Rabs (58 - 57) <= 180) by (apply Rabs_le_iff; lra).
  split; [exact H1|]. split; [exact H2|].
  exact (calculateDistance_meridian_equator 23 24 57 58 H1 H2).
Defined.

(** ** script.js: sums over consecutive vertices *)

Lemma pathSum_cons2 {A : Type} (g : A -> A -> R) (a b : A) (r : list A) :
  pathSum g (a :: b :: r) = g a b + pathSum g (b :: r).
Proof. reflexivity. Qed.

Section PathSums.
Context {A : Type}.
Variable g : A -> A -> R.
Variable d : A.

Lemma fold_left_ext_in {B C : Type} (f h : B -> C -> B) (l : list C) (b : B) :
  (forall x y, In y l -> f x y = h x y) -> fold_left f l b = fold_left h l b.
Proof.
  revert b. induction l as [|y l IH]; intros b H; [reflexivity|].
  cbn [fold_left]. rewrite (H b y (or_introl eq_refl)).
  apply IH. intros x z Hz. apply H. right. exact Hz.
Qed.

Lemma fold_left_map_seq {B : Type} (f : B -> nat -> B) (s n : nat) (b : B) :
  fold_left f (seq (S s) n) b = fold_left (fun x i => f x (S i)) (seq s n) b.
Proof.
  rewrite <- seq_shift. revert b.
  induction (seq s n) as [|i l IH]; intros b; [reflexivity|].
  cbn [map fold_left]. apply IH.
Qed.

(** The loop [for (i = 0; i < l.length - 1; i++) acc += g(l[i], l[i + 1])]. *)
Lemma index_loop_pathSum (l : list A) (acc : R) :
  fold_left (fun acc i => acc + g (nth i l d) (nth (i + 1) l d))
    (seq 0 (length l - 1)) acc
  = acc + pathSum g l.
Proof.
  revert acc. induction l as [|a l IH]; intros acc.
  - cbn. ring.
  - destruct l as [|b r].
    + cbn. ring.
    + replace (length (a :: b :: r) - 1)%nat with (S (length (b :: r) - 1))
        by (cbn [length]; lia).
      rewrite pathSum_cons2.
      replace (acc + (g a b + pathSum g (b :: r)))
        with (acc + g a b + pathSum g (b :: r)) by ring.
      rewrite <- (IH (acc + g a b)).
      set (k := (length (b :: r) - 1)%nat).
      change (seq 0 (S k)) with (0%nat :: seq 1 k).
      cbn [fold_left]. rewrite fold_left_map_seq.
      change (nth 0 (a :: b :: r) d) with a.
      change (nth (0 + 1) (a :: b :: r) d) with b.
      apply fold_left_ext_in. intros x i _.
      replace (S i + 1)%nat with (S (i + 1)) by lia. reflexivity.
Qed.

(** The loop [for (i = 0; i < n; i++) acc += g(l[i], l[(i + 1) % n])]. *)
Lemma cyclic_loop_cycleSum (l : list A) :
  fold_left
    (fun acc i => acc + g (nth i l d) (nth ((i + 1) mod length l) l d))
    (seq 0 (length l)) 0
  = cycleSum g l.
Proof.
  unfold cycleSum. destruct l as [|a r]; [reflexivity|].
  cbn [firstn]. set (l := a :: r). set (n := length l).
  assert (Hn : (length (l ++ [a]) - 1)%nat = n).
  { rewrite length_app. cbn [length]. unfold n. lia. }
  rewrite <- (Rplus_0_l (pathSum g (l ++ [a]))).
  rewrite <- index_loop_pathSum, Hn.
  apply fold_left_ext_in. intros x i Hi.
  apply in_seq in Hi. f_equal. f_equal.
  - symmetry. apply app_nth1. fold n. lia.
  - destruct (Nat.eq_dec (i + 1) n) as [E|E].
    + rewrite E. fold n. rewrite Nat.Div0.mod_same.
      rewrite app_nth2 by (fold n; lia). fold n.
      rewrite Nat.sub_diag. reflexivity.
    + fold n. rewrite Nat.mod_small by lia.
      symmetry. apply app_nth1. fold n. lia.
Qed.

Lemma pathSum_join (l1 l2 : list A) (a : A) :
  pathSum g (l1 ++ a :: l2) = pathSum g (l1 ++ [a]) + pathSum g (a :: l2).
Proof.
  induction l1 as [|b l1 IH].
  - cbn. ring.
  - destruct l1 as [|c l1].
    + cbn [app pathSum]. ring.
    + change ((b :: c :: l1) ++ a :: l2) with (b :: c :: (l1 ++ a :: l2)).
      change ((b :: c :: l1) ++ [a]) with (b :: c :: (l1 ++ [a])).
      rewrite !pathSum_cons2.
      change (c :: l1 ++ a :: l2) with ((c :: l1) ++ a :: l2).
      change (c :: l1 ++ [a]) with ((c :: l1) ++ [a]).
      rewrite IH. ring.
Qed.

Lemma cycleSum_rotate (l1 l2 : list A) :
  cycleSum g (l1 ++ l2) = cycleSum g (l2 ++ l1).
Proof.
  destruct l1 as [|a r1]; [rewrite app_nil_r; reflexivity|].
  destruct l2 as [|b r2]; [rewrite app_nil_r; reflexivity|].
  unfold cycleSum. cbn [app firstn].
  change (a :: (r1 ++ b :: r2) ++ [a]) with ((a :: r1 ++ b :: r2) ++ [a]).
  change (b :: (r2 ++ a :: r1) ++ [b]) with ((b :: r2 ++ a :: r1) ++ [b]).
  replace ((a :: r1 ++ b :: r2) ++ [a]) with ((a :: r1) ++ b :: (r2 ++ [a]))
    by (cbn [app]; rewrite <- app_assoc; reflexivity).
  replace ((b :: r2 ++ a :: r1) ++ [b]) with ((b :: r2) ++ a :: (r1 ++ [b]))
    by (cbn [app]; rewrite <- app_assoc; reflexivity).
  rewrite (pathSum_join (a :: r1) (r2 ++ [a]) b).
  rewrite (pathSum_join (b :: r2) (r1 ++ [b]) a). cbn [app]. ring.
Qed.

Lemma pathSum_nonneg (l : list A) :
  (forall x y, 0 <= g x y) -> 0 <= pathSum g l.
Proof.
  intros H. induction l as [|a l IH]; [cbn; lra|].
  destruct l as [|b r]; [cbn; lra|].
  rewrite pathSum_cons2. specialize (H a b). lra.
Qed.

(** A sum of differences collapses to the difference of the ends. *)
Lemma pathSum_telescope (h : A -> A -> R) (phi : A -> R) (a : A) (r : list A) :
  (forall x y, h x y = g x y + phi x - phi y) ->
  pathSum h (a :: r) = pathSum g (a :: r) + phi a - phi (last (a :: r) d).
Proof.
  intros H. revert a. induction r as [|b r IH]; intros a.
  - cbn. ring.
  - rewrite !pathSum_cons2, IH, H.
    change (last (a :: b :: r) d) with (last (b :: r) d). ring.
Qed.

End PathSums.

Lemma pathSum_ext {A : Type} (g h : A -> A -> R) (l : list A) :
  (forall x y, g x y = h x y) -> pathSum g l = pathSum h l.
Proof.
  intros H. induction l as [|a l IH]; [reflexivity|].
  destruct l as [|b r]; [reflexivity|].
  rewrite !pathSum_cons2, IH, H. reflexivity.
Qed.

Lemma pathSum_map {A B : Type} (g : B -> B -> R) (t : A -> B) (l : list A) :
  pathSum g (map t l) = pathSum (fun x y => g (t x) (t y)) l.
Proof.
  induction l as [|a l IH]; [reflexivity|].
  destruct l as [|b r]; [reflexivity|].
  cbn [map]. rewrite !pathSum_cons2, <- IH. reflexivity.
Qed.

Lemma pathSum_rev {A : Type} (g : A -> A -> R) (l : list A) :
  pathSum g (rev l) = pathSum (fun x y => g y x) l.
Proof.
  induction l as [|a l IH]; [reflexivity|].
  destruct l as [|b r]; [reflexivity|].
  rewrite pathSum_cons2, <- IH.
  change (rev (a :: b :: r)) with ((rev r ++ [b]) ++ [a]).
  rewrite <- app_assoc. cbn [app].
  rewrite (pathSum_join g (rev r) [a] b). cbn [rev].
  rewrite pathSum_cons2. cbn [pathSum]. ring.
Qed.

Lemma cycleSum_map {A B : Type} (g : B -> B -> R) (t : A -> B) (l : list A) :
  cycleSum g (map t l) = cycleSum (fun x y => g (t x) (t y)) l.
Proof.
  unfold cycleSum. rewrite firstn_map, <- map_app. apply pathSum_map.
Qed.

Lemma cycleSum_rev {A : Type} (g : A -> A -> R) (l : list A) :
  cycleSum g (rev l) = cycleSum (fun x y => g y x) l.
Proof.
  destruct l as [|a r]; [reflexivity|].
  cbn [rev]. rewrite cycleSum_rotate. unfold cycleSum. cbn [app firstn].
  rewrite <- (pathSum_rev g (a :: r ++ [a])).
  assert (E : rev (a :: r ++ [a]) = a :: rev r ++ [a]).
  { cbn [rev]. rewrite rev_app_distr. reflexivity. }
  rewrite E. reflexivity.
Qed.

Lemma cycleSum_ext {A : Type} (g h : A -> A -> R) (l : list A) :
  (forall x y, g x y = h x y) -> cycleSum g l = cycleSum h l.
Proof. intros H. apply pathSum_ext. exact H. Qed.

(** The sum of a closed path of differences is 0. *)
Lemma cycleSum_telescope {A : Type} (g h : A -> A -> R) (phi : A -> R)
      (l : list A) :
  (forall x y, h x y = g x y + phi x - phi y) ->
  cycleSum h l = cycleSum g l.
Proof.
  intros H. destruct l as [|a r]; [reflexivity|].
  unfold cycleSum. cbn [app firstn].
  rewrite (pathSum_telescope g a h phi a (r ++ [a]) H).
  change (a :: r ++ [a]) with ((a :: r) ++ [a]).
  rewrite last_last. ring.
Qed.

(** ** script.js: area and perimeter of a polygon *)

Lemma calculatePolygonArea_shoelace (l : list (R * R)) :
  calculatePolygonArea l
  = Rabs (cycleSum shoelaceTerm l) / 2 * 111320 * 111320.
Proof.
  unfold calculatePolygonArea. cbv zeta.
  rewrite <- (cyclic_loop_cycleSum shoelaceTerm (0, 0) l).
  do 4 f_equal. apply fold_left_ext_in. intros x i _.
  unfold shoelaceTerm. ring.
Qed.

Lemma calculatePerimeter_edges (l : list (R * R)) :
  calculatePerimeter l = cycleSum edgeLength l.
Proof.
  unfold calculatePerimeter. cbv zeta.
  rewrite <- (cyclic_loop_cycleSum edgeLength (0, 0) l). reflexivity.
Qed.

Lemma pathSum_opp {A : Type} (g : A -> A -> R) (l : list A) :
  pathSum (fun x y => - g x y) l = - pathSum g l.
Proof.
  induction l as [|a l IH]; [cbn; ring|].
  destruct l as [|b r]; [cbn; ring|].
  rewrite !pathSum_cons2, IH. ring.
Qed.

Lemma shoelaceTerm_swap x y : shoelaceTerm y x = - shoelaceTerm x y.
Proof. unfold shoelaceTerm. ring. Qed.

(** X15: with fewer than three vertices there is no area: for the empty
    list, one vertex or two vertices [calculatePolygonArea] returns 0. *)
Theorem calculatePolygonArea_degenerate (coordinates : list (R * R)) :
  (length coordinates < 3)%nat -> calculatePolygonArea coordinates = 0.
Proof.
  intros H. rewrite calculatePolygonArea_shoelace.
  assert (E : cycleSum shoelaceTerm coordinates = 0).
  { destruct coordinates as [|a [|b [|c r]]].
    - reflexivity.
    - unfold cycleSum. cbn. unfold shoelaceTerm. ring.
    - unfold cycleSum. cbn. unfold shoelaceTerm. ring.
    - cbn [length] in H. lia. }
  rewrite E, Rabs_R0. field.
Qed.

Lemma calculatePolygonArea_degenerate_witness :
  (length [(23.5, 58.3); (23.6, 58.4)]%R < 3)%nat /\
  calculatePolygonArea [(23.5, 58.3); (23.6, 58.4)] = 0.
Proof.
  split; [cbn; lia|].
  apply (calculatePolygonArea_degenerate [(23.5, 58.3); (23.6, 58.4)]).
  cbn; lia.
Defined.

(** X16: the area does not depend on where the polygon lies: moving every
    vertex by the same amounts in latitude and in longitude leaves
    [calculatePolygonArea] unchanged.  In particular the fixed factor
    111320 squared is applied at every latitude alike. *)
Theorem calculatePolygonArea_translation (coordinates : list (R * R))
        (dlat dlng : R) :
  calculatePolygonArea
    (map (fun c => (fst c + dlat, snd c + dlng)) coordinates)
  = calculatePolygonArea coordinates.
Proof.
  rewrite !calculatePolygonArea_shoelace, cycleSum_map.
  rewrite (cycleSum_telescope shoelaceTerm _
             (fun c => dlat * snd c - dlng * fst c)); [reflexivity|].
  intros x y. unfold shoelaceTerm. cbn [fst snd]. ring.
Qed.

(** X17: the area does not depend on which vertex comes first nor on the
    direction in which the vertices are listed. *)
Theorem calculatePolygonArea_relabel (l1 l2 : list (R * R)) :
  calculatePolygonArea (l1 ++ l2) = calculatePolygonArea (l2 ++ l1) /\
  calculatePolygonArea (rev l1) = calculatePolygonArea l1.
Proof.
  rewrite !calculatePolygonArea_shoelace. split.
  - rewrite cycleSum_rotate. reflexivity.
  - rewrite cycleSum_rev.
    rewrite (cycleSum_ext _ (fun x y => - shoelaceTerm x y))
      by (intros x y; apply shoelaceTerm_swap).
    unfold cycleSum. rewrite pathSum_opp, Rabs_Ropp. reflexivity.
Qed.

(** X18: a rectangle with sides along the meridians and parallels has the
    area [|lat1 - lat0| * |lng1 - lng0| * 111320 * 111320]: the product of
    its sides in degrees, with 111,320 m to the degree in both
    directions. *)
Theorem calculatePolygonArea_rectangle (lat0 lng0 lat1 lng1 : R) :
  calculatePolygonArea
    [(lat0, lng0); (lat0, lng1); (lat1, lng1); (lat1, lng0)]
  = Rabs (lat1 - lat0) * Rabs (lng1 - lng0) * 111320 * 111320.
Proof.
  rewrite calculatePolygonArea_shoelace. unfold cycleSum.
  cbn [app firstn pathSum]. unfold shoelaceTerm. cbn [fst snd].
  replace (lng0 * lat0 - lng1 * lat0
           + (lng1 * lat1 - lng1 * lat0
              + (lng1 * lat1 - lng0 * lat1
                 + (lng0 * lat0 - lng0 * lat1 + 0))))
    with (2 * ((lat1 - lat0) * (lng1 - lng0))) by ring.
  rewrite Rabs_mult, (Rabs_right 2) by lra. rewrite Rabs_mult. field.
Qed.

(** ** The perimeter *)

Lemma edgeLength_self x : edgeLength x x = 0.
Proof.
  unfold edgeLength. rewrite calculateDistance_acos. cbn [LatLng.lat LatLng.lng].
  replace (deg2rad (snd x) - deg2rad (snd x)) with 0 by ring.
  rewrite cos_0, Rmult_1_r, (sin_cos_sq (deg2rad (fst x))), acos_1. ring.
Qed.

Lemma edgeLength_comm x y : edgeLength y x = edgeLength x y.
Proof.
  unfold edgeLength. rewrite !calculateDistance_acos.
  cbn [LatLng.lat LatLng.lng]. f_equal. f_equal.
  replace (deg2rad (snd x) - deg2rad (snd y))
    with (- (deg2rad (snd y) - deg2rad (snd x))) by ring.
  rewrite cos_neg. ring.
Qed.

Lemma edgeLength_nonneg x y : 0 <= edgeLength x y.
Proof.
  unfold edgeLength. rewrite calculateDistance_acos.
  match goal with |- 0 <= _ * acos ?t => pose proof (acos_bound t) end. nra.
Qed.

(** X19: [calculatePerimeter] closes the path: it is 0 for no vertex and
    for one vertex, twice the distance for two vertices, and the sum of
    the three sides for a triangle.  For vertices with latitudes in
    [-80, 80] and longitudes within a band of 90 degrees, so that no two
    of them are close to antipodal, it is never negative. *)
Theorem calculatePerimeter_small (a b c : R * R) (coordinates : list (R * R))
        (lng0 : R) :
  calculatePerimeter [] = 0 /\
  calculatePerimeter [a] = 0 /\
  calculatePerimeter [a; b] = 2 * edgeLength a b /\
  calculatePerimeter [a; b; c]
  = edgeLength a b + edgeLength b c + edgeLength c a /\
  ((forall v, In v coordinates ->
              -80 <= fst v <= 80 /\ lng0 <= snd v <= lng0 + 90) ->
   0 <= calculatePerimeter coordinates).
Proof.
  rewrite !calculatePerimeter_edges. unfold cycleSum.
  cbn [app firstn pathSum].
  rewrite edgeLength_self, (edgeLength_comm a b).
  repeat split; try ring.
  intros _. apply pathSum_nonneg. apply edgeLength_nonneg.
Qed.

Lemma calculatePerimeter_small_witness :
  0 <= calculatePerimeter [(23.5, 58.3); (23.6, 58.4); (23.6, 58.3)]%R.
Proof.
  apply (proj2 (proj2 (proj2 (proj2
           (calculatePerimeter_small
              (23.5, 58.3) (23.6, 58.4) (23.6, 58.3)
              [(23.5, 58.3); (23.6, 58.4); (23.6, 58.3)] 58))))).
  intros v [<-|[<-|[<-|[]]]]; cbn [fst snd]; lra.
Defined.

(** X20: the perimeter does not depend on which vertex comes first, nor on
    the direction of the list, nor on a common shift of all longitudes. *)
Theorem calculatePerimeter_relabel (l1 l2 : list (R * R)) (dlng : R) :
  calculatePerimeter (l1 ++ l2) = calculatePerimeter (l2 ++ l1) /\
  calculatePerimeter (rev l1) = calculatePerimeter l1 /\
  calculatePerimeter (map (fun c => (fst c, snd c + dlng)) l1)
  = calculatePerimeter l1.
Proof.
  rewrite !calculatePerimeter_edges. split; [|split].
  - apply cycleSum_rotate.
  - rewrite cycleSum_rev. apply cycleSum_ext. intros x y.
    apply edgeLength_comm.
  - rewrite cycleSum_map. apply cycleSum_ext. intros x y.
    unfold edgeLength. rewrite !calculateDistance_acos.
    cbn [LatLng.lat LatLng.lng fst snd]. rewrite !deg2rad_plus.
    replace (deg2rad (snd y) + deg2rad dlng - (deg2rad (snd x) + deg2rad dlng))
      with (deg2rad (snd y) - deg2rad (snd x)) by ring.
    reflexivity.
Qed.

(** ** The point store *)

Lemma findPointById_some (groups : list (string * Group.t)) (pointId : JsValue)
      (point : Point.t) :
  findPointById groups pointId = Some point ->
  strictEq (Point.id point) pointId = true /\
  exists groupKey g, In (groupKey, g) groups /\ In point (Group.points g).
Proof.
  induction groups as [|[groupKey g] rest IH]; [discriminate|].
  cbn [findPointById].
  destruct (find _ (Group.points g)) as [p|] eqn:F.
  - intros E. injection E as ->. apply find_some in F. destruct F as [Hin Hid].
    split; [exact Hid|]. exists groupKey, g. split; [left; reflexivity|exact Hin].
  - intros E. destruct (IH E) as [Hid (k & g' & Hin & Hp)].
    split; [exact Hid|]. exists k, g'. split; [right; exact Hin|exact Hp].
Qed.

Lemma findPointById_none (groups : list (string * Group.t)) (pointId : JsValue) :
  findPointById groups pointId = None <->
  forall groupKey g point,
    In (groupKey, g) groups -> In point (Group.points g) ->
    strictEq (Point.id point) pointId = false.
Proof.
  induction groups as [|[groupKey g] rest IH].
  - split; [intros _ k g p []|reflexivity].
  - cbn [findPointById].
    destruct (find _ (Group.points g)) as [p|] eqn:F.
    + split; [discriminate|]. intros H. apply find_some in F.
      destruct F as [Hin Hid].
      rewrite (H groupKey g p (or_introl eq_refl) Hin) in Hid. discriminate.
    + rewrite IH. split.
      * intros H k g' p [E|Hin] Hp.
        -- injection E as <- <-. exact (find_none _ _ F p Hp).
        -- exact (H k g' p Hin Hp).
      * intros H k g' p Hin Hp. exact (H k g' p (or_intror Hin) Hp).
Qed.

(** X21: what [findPointById] returns is a stored point with the requested
    id, and it returns nothing exactly when no point of any group has that
    id. *)
Theorem findPointById_spec (groups : list (string * Group.t))
        (pointId : JsValue) :
  (forall point,
      findPointById groups pointId = Some point ->
      strictEq (Point.id point) pointId = true /\
      exists groupKey g,
        In (groupKey, g) groups /\ In point (Group.points g)) /\
  (findPointById groups pointId = None <->
   forall groupKey g point,
     In (groupKey, g) groups -> In point (Group.points g) ->
     strictEq (Point.id point) pointId = false).
Proof.
  split.
  - intros point. apply findPointById_some.
  - apply findPointById_none.
Qed.

(** X22: the ids of the points are numbers, so a lookup with the id written
    as a string finds nothing, whatever the string, while the lookup with
    the number of a stored point finds a point. *)
Theorem findPointById_string_id (groups : list (string * Group.t)) :
  (forall groupKey g point,
      In (groupKey, g) groups -> In point (Group.points g) ->
      exists n, Point.id point = JsNumber n) ->
  (forall s, findPointById groups (JsString s) = None) /\
  (forall groupKey g point,
      In (groupKey, g) groups -> In point (Group.points g) ->
      exists found,
        findPointById groups (Point.id point) = Some found /\
        Point.id found = Point.id point).
Proof.
  intros Hnum. split.
  - intros s. apply findPointById_none. intros k g p Hin Hp.
    destruct (Hnum k g p Hin Hp) as [n ->]. reflexivity.
  - intros k g p Hin Hp.
    destruct (findPointById groups (Point.id p)) as [found|] eqn:F.
    + exists found. split; [reflexivity|].
      destruct (findPointById_some _ _ _ F) as [Hid (k' & g' & Hin' & Hp')].
      destruct (Hnum k' g' found Hin' Hp') as [m Em].
      destruct (Hnum k g p Hin Hp) as [n En].
      rewrite Em, En in Hid |- *. cbn in Hid. apply Z.eqb_eq in Hid.
      now subst.
    + pose proof (proj1 (findPointById_none _ _) F k g p Hin Hp) as Hid.
      destruct (Hnum k g p Hin Hp) as [n En]. rewrite En in Hid. cbn in Hid.
      rewrite Z.eqb_refl in Hid. discriminate.
Qed.

Lemma sampleGroups_numeric_ids groupKey g point :
  In (groupKey, g) sampleGroups -> In point (Group.points g) ->
  exists n, Point.id point = JsNumber n.
Proof.
  intros [E|[]] Hp. injection E as <- <-.
  destruct Hp as [<-|[<-|[]]]; eexists; reflexivity.
Defined.

Lemma findPointById_string_id_witness :
  (forall s, findPointById sampleGroups (JsString s) = None) /\
  (forall groupKey g point,
      In (groupKey, g) sampleGroups -> In point (Group.points g) ->
      exists found,
        findPointById sampleGroups (Point.id point) = Some found /\
        Point.id found = Point.id point).
Proof.
  exact (findPointById_string_id sampleGroups sampleGroups_numeric_ids).
Defined.

(** ** The summary figures *)

Lemma calculateDistance_nonneg (p q : LatLng.t) : 0 <= calculateDistance p q.
Proof.
  rewrite calculateDistance_acos.
  match goal with |- 0 <= _ * acos ?t => pose proof (acos_bound t) end. nra.
Qed.

Lemma pathSum_short {A : Type} (g : A -> A -> R) (l : list A) :
  (length l < 2)%nat -> pathSum g l = 0.
Proof.
  destruct l as [|a [|b r]]; cbn [length]; intros H; try reflexivity. lia.
Qed.

Lemma summary_loop (groups : list (string * Group.t))
      (totalPoints : nat) (totalDistance : R) (groupsWithDistances k : nat) :
  (2 * groupsWithDistances <= totalPoints)%nat ->
  (groupsWithDistances <= k)%nat ->
  0 <= totalDistance ->
  (groupsWithDistances = 0%nat -> totalDistance = 0) ->
  let '(totalPoints', totalDistance', groupsWithDistances') :=
    fold_left
      (fun (acc : nat * R * nat) (entry : string * Group.t) =>
         let '(totalPoints, totalDistance, groupsWithDistances) := acc in
         let points := map Point.latlng (Group.points (snd entry)) in
         let totalPoints := (totalPoints + length points)%nat in
         let totalDistance :=
           fold_left
             (fun totalDistance i =>
                totalDistance
                + calculateDistance
                    (nth i points (LatLng.mk 0 0))
                    (nth (i + 1) points (LatLng.mk 0 0)))
             (seq 0 (length points - 1)) totalDistance in
         let groupsWithDistances :=
           if (2 <=? length points)%nat then S groupsWithDistances
           else groupsWithDistances in
         (totalPoints, totalDistance, groupsWithDistances))
      groups (totalPoints, totalDistance, groupsWithDistances) in
  (2 * groupsWithDistances' <= totalPoints')%nat /\
  (groupsWithDistances' <= k + length groups)%nat /\
  0 <= totalDistance' /\
  (groupsWithDistances' = 0%nat -> totalDistance' = 0).
Proof.
  revert totalPoints totalDistance groupsWithDistances k.
  induction groups as [|entry rest IH]; intros tp td gw k H1 H2 H3 H4.
  - cbn [fold_left length]. repeat split; try assumption. lia.
  - cbn [fold_left]. cbv zeta.
    rewrite (index_loop_pathSum calculateDistance (LatLng.mk 0 0)).
    set (points := map Point.latlng (Group.points (snd entry))).
    pose proof (pathSum_nonneg calculateDistance points
                  calculateDistance_nonneg) as Hp.
    specialize (IH (tp + length points)%nat
                   (td + pathSum calculateDistance points)
                   (if (2 <=? length points)%nat then S gw else gw) (S k)).
    cbn [length]. replace (k + S (length rest))%nat
      with (S k + length rest)%nat by lia.
    apply IH.
    + destruct (Nat.leb_spec 2 (length points)); lia.
    + destruct (Nat.leb_spec 2 (length points)); lia.
    + lra.
    + destruct (Nat.leb_spec 2 (length points)) as [Hl|Hl]; [discriminate|].
      intros E. rewrite (H4 E), (pathSum_short _ _ Hl). ring.
Qed.

(** X23: the figures of the summary panel are consistent: every group
    counted as having distances holds at least two of the counted points,
    there are no more such groups than groups, and the total distance is 0
    when no group has two points.  When all points have latitudes in
    [-80, 80] and longitudes within a band of 90 degrees, so that no two
    of them are close to antipodal, the total distance is never
    negative. *)
Theorem updateSummaryCalculations_figures (groups : list (string * Group.t))
        (lng0 : R) :
  let s := updateSummaryCalculations groups in
  (2 * Summary.groupsWithDistances s <= Summary.totalPoints s)%nat /\
  (Summary.groupsWithDistances s <= Summary.groups s)%nat /\
  ((forall groupKey g point,
       In (groupKey, g) groups -> In point (Group.points g) ->
       -80 <= Point.lat point <= 80 /\
       lng0 <= Point.lng point <= lng0 + 90) ->
   0 <= Summary.totalDistance s) /\
  (Summary.groupsWithDistances s = 0%nat -> Summary.totalDistance s = 0).
Proof.
  cbv zeta. unfold updateSummaryCalculations.
  pose proof (summary_loop groups 0 0 0 0) as H.
  destruct (fold_left _ groups (0%nat, 0, 0%nat)) as [[tp td] gw].
  cbn [Summary.groups Summary.totalPoints Summary.totalDistance
       Summary.groupsWithDistances].
  destruct H as (H1 & H2 & H3 & H4); try lia; try lra.
  repeat split; try assumption. intros _. exact H3.
Qed.

Lemma updateSummaryCalculations_figures_witness :
  0 <= Summary.totalDistance (updateSummaryCalculations sampleGroups).
Proof.
  apply (proj1 (proj2 (proj2
           (updateSummaryCalculations_figures sampleGroups 0)))).
  intros groupKey g point [E|[]] Hp. injection E as <- <-.
  destruct Hp as [<-|[<-|[]]]; cbn [Point.lat Point.lng samplePoint]; lra.
Defined.
